(** * A doubly linked list with a sentinel node (src/list.hpp)

    The container of [namespace sjtu] is embedded over an explicit store:
    node objects and list objects live in two finite maps, pointers are
    optional locations ([None] is [nullptr]), and every member function is
    a computation in a small state-and-error monad whose failures carry
    the store at the point of the [throw]. Loops are run with fuel. *)

From stdpp Require Import base gmap list.
From Stdlib Require Import ZArith Lia Permutation.

Module sjtu.

Local Open Scope Z_scope.

(** ** Outcomes and the monad *)

(** The two exception classes of exceptions.hpp that the list throws. *)
Inductive exn := invalid_iterator | container_is_empty.

(** [Undef]: the C++ program has undefined behaviour (null or dangling
    dereference, out-of-bounds array access). [Timeout]: the fuel given to
    a loop ran out. *)
Inductive outcome (St A : Type) : Type :=
| Ret (a : A) (s : St)
| Throw (e : exn) (s : St)
| Undef
| Timeout.
Arguments Ret {St A} a s.
Arguments Throw {St A} e s.
Arguments Undef {St A}.
Arguments Timeout {St A}.

Definition M (St A : Type) : Type := St → outcome St A.

Definition ret {St A} (a : A) : M St A := λ s, Ret a s.
Definition throw {St A} (e : exn) : M St A := λ s, Throw e s.
Definition undef {St A} : M St A := λ _, Undef.
Definition bind {St A B} (m : M St A) (f : A → M St B) : M St B :=
  λ s, match m s with
       | Ret a s' => f a s'
       | Throw e s' => Throw e s'
       | Undef => Undef
       | Timeout => Timeout
       end.

Notation "x <- m ;; k" := (bind m (λ x, k))
  (at level 100, m at next level, right associativity).
Notation "m1 ;; m2" := (bind m1 (λ _, m2))
  (at level 100, right associativity).

Definition get {St} : M St St := λ s, Ret s s.
Definition put {St} (s : St) : M St unit := λ _, Ret tt s.

(** [while (cond) body] over the loop-carried locals [v]. *)
Fixpoint while_ {St V} (fuel : nat) (cond : V → M St bool)
    (body : V → M St V) (v : V) : M St V :=
  match fuel with
  | O => λ _, Timeout
  | S f => b <- cond v;;
           if b : bool then v' <- body v;; while_ f cond body v' else ret v
  end.

(** The locals after at most [k] rounds of [while (cond) body]: the loop
    is left early when the condition fails. *)
Fixpoint loop_prefix {St V} (k : nat) (cond : V → M St bool)
    (body : V → M St V) (v : V) : M St V :=
  match k with
  | O => ret v
  | S k' => b <- cond v;;
            if b : bool then v' <- body v;; loop_prefix k' cond body v' else ret v
  end.

(** [do body while (cond)]. *)
Definition do_while {St V} (fuel : nat) (body : V → M St V)
    (cond : V → M St bool) (v : V) : M St V :=
  v' <- body v;; while_ fuel cond body v'.

(** ** Machine integers *)

(** [size_t] is 64 bits wide and wraps; [int] is 32 bits wide. *)
Definition wrap64 (z : Z) : Z := z mod 2 ^ 64.
Definition wrap32 (z : Z) : Z := (z + 2 ^ 31) mod 2 ^ 32 - 2 ^ 31.

(** ** Arrays allocated with [new T[n]] *)

Definition arr_get {St A} (a : list A) (i : Z) : M St A :=
  if i <? 0 then undef
  else match a !! Z.to_nat i with Some x => ret x | None => undef end.

Definition arr_set {St A} (a : list A) (i : Z) (x : A) : M St (list A) :=
  if (0 <=? i) && (i <? Z.of_nat (length a))
  then ret (<[Z.to_nat i := x]> a) else undef.

(** ** The store *)

Definition loc := positive.
Definition pointer := option loc.

Section model.
Context {T : Type}.
(** [operator<] and [operator==] of the element type. *)
Context (ltb eqb : T → T → bool).

(** [class node]: [val] owns the element, and is null in the sentinel. *)
Record node := Node { prev : pointer; next : pointer; val : option T }.

(** The data members of [class list]. *)
Record list_obj := ListObj { head : pointer; sz : Z }.

Record store := Store {
  nodes : gmap loc node;
  lists : gmap loc list_obj
}.

Definition empty_store : store := Store ∅ ∅.

Definition upd_node (x : loc) (f : node → node) (s : store) : store :=
  Store (alter f x (nodes s)) (lists s).
Definition upd_list (l : loc) (f : list_obj → list_obj) (s : store) : store :=
  Store (nodes s) (alter f l (lists s)).

Definition load_node (p : pointer) : M store node := λ s,
  match p with
  | None => Undef
  | Some x => match nodes s !! x with Some nd => Ret nd s | None => Undef end
  end.

Definition store_node (p : pointer) (f : node → node) : M store unit := λ s,
  match p with
  | None => Undef
  | Some x => match nodes s !! x with
              | Some _ => Ret tt (upd_node x f s)
              | None => Undef
              end
  end.

Definition get_prev (p : pointer) : M store pointer :=
  nd <- load_node p;; ret (prev nd).
Definition get_next (p : pointer) : M store pointer :=
  nd <- load_node p;; ret (next nd).
Definition set_prev (p q : pointer) : M store unit :=
  store_node p (λ nd, Node q (next nd) (val nd)).
Definition set_next (p q : pointer) : M store unit :=
  store_node p (λ nd, Node (prev nd) q (val nd)).
(** [*(p->val)] *)
Definition deref_val (p : pointer) : M store T :=
  nd <- load_node p;;
  match val nd with Some v => ret v | None => undef end.

(** [new node()] and [new node(v)]: both links start out null. *)
Definition new_node (v : option T) : M store pointer := λ s,
  let x := fresh (dom (nodes s)) in
  Ret (Some x) (Store (<[x := Node None None v]> (nodes s)) (lists s)).

(** [delete p]: deleting the null pointer does nothing. *)
Definition delete_node (p : pointer) : M store unit := λ s,
  match p with
  | None => Ret tt s
  | Some x => match nodes s !! x with
              | Some _ => Ret tt (Store (delete x (nodes s)) (lists s))
              | None => Undef
              end
  end.

Definition load_list (l : loc) : M store list_obj := λ s,
  match lists s !! l with Some o => Ret o s | None => Undef end.
Definition store_list (l : loc) (f : list_obj → list_obj) : M store unit := λ s,
  match lists s !! l with
  | Some _ => Ret tt (upd_list l f s)
  | None => Undef
  end.

Definition get_head (l : loc) : M store pointer :=
  o <- load_list l;; ret (head o).
Definition get_sz (l : loc) : M store Z :=
  o <- load_list l;; ret (sz o).
Definition set_sz (l : loc) (n : Z) : M store unit :=
  store_list l (λ o, ListObj (head o) n).
Definition set_head (l : loc) (h : pointer) : M store unit :=
  store_list l (λ o, ListObj h (sz o)).

(** ** Link operations (the protected overloads of insert and erase) *)

(** [node *insert(node *pos, node *cur)] *)
Definition insert_node (this : loc) (pos cur : pointer) : M store pointer :=
  pp <- get_prev pos;; set_prev cur pp;;
  set_next cur pos;;
  pp <- get_prev pos;; set_next pp cur;;
  set_prev pos cur;;
  n <- get_sz this;; set_sz this (wrap64 (n + 1));;
  ret cur.

(** [node *erase(node *pos)] *)
Definition erase_node (this : loc) (pos : pointer) : M store pointer :=
  pp <- get_prev pos;; pn <- get_next pos;; set_next pp pn;;
  pn <- get_next pos;; pp <- get_prev pos;; set_prev pn pp;;
  set_next pos None;; set_prev pos None;;
  n <- get_sz this;; set_sz this (wrap64 (n - 1));;
  ret pos.

(** ** Iterators *)

(** [class iterator]: a pair of the owning list and the current node. *)
Record iterator := Iterator { owner : pointer; ptr : pointer }.

(** [class const_iterator] has the same two members, and the bodies of its
    operators repeat those of [iterator] word for word. *)
Definition const_iterator := iterator.

(** The operators of an iterator run over the iterator object itself
    together with the store. *)
Definition MI (A : Type) : Type := M (iterator * store) A.

Definition on_store {A} (m : M store A) : MI A := λ '(it, s),
  match m s with
  | Ret a s' => Ret a (it, s')
  | Throw e s' => Throw e (it, s')
  | Undef => Undef
  | Timeout => Timeout
  end.
Definition self : MI iterator := λ '(it, s), Ret it (it, s).
Definition set_ptr (p : pointer) : MI unit := λ '(it, s),
  Ret tt (Iterator (owner it) p, s).

(** Running an operator of the iterator object [it] from list code. *)
Definition with_iterator {A} (it : iterator) (m : MI A)
    : M store (A * iterator) := λ s,
  match m (it, s) with
  | Ret a (it', s') => Ret (a, it') s'
  | Throw e (_, s') => Throw e s'
  | Undef => Undef
  | Timeout => Timeout
  end.

(** [!owner || !ptr || ptr == owner->head] *)
Definition at_sentinel_or_null : MI bool :=
  it <- self;;
  match owner it, ptr it with
  | None, _ => ret true
  | Some _, None => ret true
  | Some o, Some p => h <- on_store (get_head o);; ret (bool_decide (Some p = h))
  end.

(** [iterator operator++(int)] *)
Definition post_incr : MI iterator :=
  bad <- at_sentinel_or_null;;
  if bad : bool then throw invalid_iterator else
  tmp <- self;;
  n <- on_store (get_next (ptr tmp));; set_ptr n;;
  ret tmp.

(** [iterator & operator++()] *)
Definition pre_incr : MI unit :=
  bad <- at_sentinel_or_null;;
  if bad : bool then throw invalid_iterator else
  it <- self;;
  n <- on_store (get_next (ptr it));; set_ptr n.

(** The three checks shared by both forms of [operator--]. *)
Definition check_decr : MI unit :=
  it <- self;;
  match owner it, ptr it with
  | Some o, Some p =>
      n <- on_store (get_sz o);;
      if n =? 0 then throw invalid_iterator else
      pp <- on_store (get_prev (Some p));;
      h <- on_store (get_head o);;
      if bool_decide (pp = h) then throw invalid_iterator else ret tt
  | _, _ => throw invalid_iterator
  end.

(** [iterator operator--(int)] *)
Definition post_decr : MI iterator :=
  check_decr;;
  tmp <- self;;
  p <- on_store (get_prev (ptr tmp));; set_ptr p;;
  ret tmp.

(** [iterator & operator--()] *)
Definition pre_decr : MI unit :=
  check_decr;;
  it <- self;;
  p <- on_store (get_prev (ptr it));; set_ptr p.

(** [T & operator*() const] *)
Definition deref : MI T :=
  bad <- at_sentinel_or_null;;
  if bad : bool then throw invalid_iterator else
  it <- self;; on_store (deref_val (ptr it)).

(** [T * operator->() const]: the [val] pointer of the node. *)
Definition arrow : MI (option T) :=
  bad <- at_sentinel_or_null;;
  if bad : bool then throw invalid_iterator else
  it <- self;; nd <- on_store (load_node (ptr it));; ret (val nd).

(** [operator==] and [operator!=], between any two iterator kinds. *)
Definition iter_eq (a b : iterator) : bool :=
  bool_decide (owner a = owner b) && bool_decide (ptr a = ptr b).
Definition iter_ne (a b : iterator) : bool := negb (iter_eq a b).

(** ** The container *)

(** [list()]: the list object is placed at a fresh location. *)
Definition list_ctor : M store loc :=
  h <- new_node None;;
  s <- get;;
  let this := fresh (dom (lists s)) in
  put (Store (nodes s) (<[this := ListObj h 0]> (lists s)));;
  set_prev h h;; set_next h h;;
  set_sz this 0;;
  ret this.

Definition begin_ (this : loc) : M store iterator :=
  h <- get_head this;; f <- get_next h;; ret (Iterator (Some this) f).
Definition cbegin (this : loc) : M store const_iterator := begin_ this.
Definition end_ (this : loc) : M store iterator :=
  h <- get_head this;; ret (Iterator (Some this) h).
Definition cend (this : loc) : M store const_iterator := end_ this.

Definition empty (this : loc) : M store bool :=
  n <- get_sz this;; ret (n =? 0).
Definition size (this : loc) : M store Z := get_sz this.

Definition front (this : loc) : M store T :=
  n <- get_sz this;;
  if n =? 0 then throw container_is_empty else
  h <- get_head this;; f <- get_next h;; deref_val f.

Definition back (this : loc) : M store T :=
  n <- get_sz this;;
  if n =? 0 then throw container_is_empty else
  h <- get_head this;; b <- get_prev h;; deref_val b.

Definition clear (fuel : nat) (this : loc) : M store unit :=
  h <- get_head this;;
  cur <- (if h is Some _ then get_next h else ret None);;
  while_ fuel
    (λ cur, h <- get_head this;;
            ret (bool_decide (cur ≠ None) && bool_decide (cur ≠ h)))
    (λ cur, nxt <- get_next cur;; delete_node cur;; ret nxt)
    cur;;
  h <- get_head this;;
  (if h is Some _ then set_prev h h;; set_next h h else ret tt);;
  set_sz this 0.

(** [~list()]: the body of the destructor; the storage of the list object
    itself is the caller's. *)
Definition list_dtor (fuel : nat) (this : loc) : M store unit :=
  clear fuel this;;
  h <- get_head this;;
  if h is Some _ then delete_node h;; set_head this None else ret tt.

(** [iterator insert(iterator pos, const T &value)] *)
Definition insert (this : loc) (pos : iterator) (value : T) : M store iterator :=
  if bool_decide (owner pos ≠ Some this) || bool_decide (ptr pos = None)
  then throw invalid_iterator else
  cur <- new_node (Some value);;
  insert_node this (ptr pos) cur;;
  ret (Iterator (Some this) cur).

(** [iterator erase(iterator pos)] *)
Definition erase (this : loc) (pos : iterator) : M store iterator :=
  n <- get_sz this;;
  if n =? 0 then throw container_is_empty else
  h <- get_head this;;
  if bool_decide (owner pos ≠ Some this) || bool_decide (ptr pos = None)
     || bool_decide (ptr pos = h)
  then throw invalid_iterator else
  nxt <- get_next (ptr pos);;
  rm <- erase_node this (ptr pos);;
  delete_node rm;;
  ret (Iterator (Some this) nxt).

Definition push_back (this : loc) (value : T) : M store unit :=
  h <- get_head this;;
  insert this (Iterator (Some this) h) value;; ret tt.

Definition pop_back (this : loc) : M store unit :=
  n <- get_sz this;;
  if n =? 0 then throw container_is_empty else
  h <- get_head this;; b <- get_prev h;;
  erase this (Iterator (Some this) b);; ret tt.

Definition push_front (this : loc) (value : T) : M store unit :=
  h <- get_head this;; f <- get_next h;;
  insert this (Iterator (Some this) f) value;; ret tt.

Definition pop_front (this : loc) : M store unit :=
  n <- get_sz this;;
  if n =? 0 then throw container_is_empty else
  h <- get_head this;; f <- get_next h;;
  erase this (Iterator (Some this) f);; ret tt.

(** The loop shared by the copy constructor and the assignment operator:
    [it] runs from [other.cbegin()] to [other.cend()] with [++it], and
    every element it points at is passed to [push_back]. *)
Definition copy_from (fuel : nat) (this other : loc) : M store unit :=
  it <- cbegin other;;
  while_ fuel
    (λ it, e <- cend other;; ret (iter_ne it e))
    (λ it, r <- with_iterator it deref;;
           let '(v, it) := r in
           push_back this v;;
           r <- with_iterator it pre_incr;;
           ret (snd r))
    it;;
  ret tt.

(** [list(const list &other)] *)
Definition list_copy_ctor (fuel : nat) (other : loc) : M store loc :=
  this <- list_ctor;;
  copy_from fuel this other;;
  ret this.

(** [list &operator=(const list &other)] *)
Definition assign (fuel : nat) (this other : loc) : M store unit :=
  if bool_decide (this = other) then ret tt else
  clear fuel this;;
  copy_from fuel this other.

(** ** sort *)

(** The inner scans of the partition:
    [while (a[i]->val < pivot->val) ++i] and
    [while (pivot->val < a[j]->val) --j] (values read through the nodes). *)
Definition scan_up (fuel : nat) (a : list pointer) (pivot : pointer) (i : Z)
    : M store Z :=
  while_ fuel
    (λ i, p <- arr_get a i;; x <- deref_val p;; y <- deref_val pivot;;
          ret (ltb x y))
    (λ i, ret (wrap32 (i + 1)))
    i.

Definition scan_down (fuel : nat) (a : list pointer) (pivot : pointer) (j : Z)
    : M store Z :=
  while_ fuel
    (λ j, y <- deref_val pivot;; p <- arr_get a j;; x <- deref_val p;;
          ret (ltb y x))
    (λ j, ret (wrap32 (j - 1)))
    j.

(** [while (i <= j) { ... }] of one quicksort round, started at [i = l],
    [j = r]; yields the buffer and the final [i] and [j]. *)
Definition partition (fuel : nat) (a : list pointer) (pivot : pointer)
    (l r : Z) : M store (list pointer * Z * Z) :=
  while_ fuel
    (λ '(a, i, j), ret (i <=? j))
    (λ '(a, i, j),
       i <- scan_up fuel a pivot i;;
       j <- scan_down fuel a pivot j;;
       if i <=? j then
         t <- arr_get a i;;
         aj <- arr_get a j;; a <- arr_set a i aj;;
         a <- arr_set a j t;;
         ret (a, wrap32 (i + 1), wrap32 (j - 1))
       else ret (a, i, j))
    (a, l, r).

(** [{ ++top; L[top] = lo; R[top] = hi; }] *)
Definition push (stk : list Z * list Z * Z) (lo hi : Z)
    : M store (list Z * list Z * Z) :=
  let '(L, R, top) := stk in
  let top := wrap32 (top + 1) in
  L <- arr_set L top lo;; R <- arr_set R top hi;; ret (L, R, top).

(** The body of [while (top >= 0)]. *)
Definition qsort_round (fuel : nat) (st : list pointer * list Z * list Z * Z)
    : M store (list pointer * list Z * list Z * Z) :=
  let '(a, L, R, top) := st in
  l <- arr_get L top;; r <- arr_get R top;;
  let top := wrap32 (top - 1) in
  pivot <- arr_get a (Z.shiftr (wrap32 (l + r)) 1);;
  res <- partition fuel a pivot l r;;
  let '(a, i, j) := res in
  stk <- (if l <? j then push (L, R, top) l j else ret (L, R, top));;
  stk <- (if i <? r then push stk i r else ret stk);;
  let '(L, R, top) := stk in
  ret (a, L, R, top).

Definition qsort_loop (fuel : nat) (st : list pointer * list Z * list Z * Z)
    : M store (list pointer * list Z * list Z * Z) :=
  while_ fuel (λ '(_, _, _, top), ret (0 <=? top)) (qsort_round fuel) st.

(** The first loop of [sort]: the node pointers are copied into the buffer. *)
Definition collect (fuel : nat) (this : loc) (a : list pointer)
    : M store (list pointer) :=
  h <- get_head this;; first <- get_next h;;
  st <- while_ fuel
    (λ '(cur, idx, a), h <- get_head this;; ret (bool_decide (cur ≠ h)))
    (λ '(cur, idx, a),
       a <- arr_set a idx cur;;
       nx <- get_next cur;;
       ret (nx, wrap64 (idx + 1), a))
    (first, 0, a);;
  ret (snd st).

(** The end of [sort]: the chain is rebuilt in buffer order. *)
Definition relink (fuel : nat) (this : loc) (a : list pointer) : M store unit :=
  h <- get_head this;; a0 <- arr_get a 0;; set_next h a0;;
  a0 <- arr_get a 0;; h <- get_head this;; set_prev a0 h;;
  while_ fuel
    (λ k, n <- get_sz this;; ret (k <? n))
    (λ k, p <- arr_get a (wrap64 (k - 1));; q <- arr_get a k;; set_next p q;;
          q <- arr_get a k;; p <- arr_get a (wrap64 (k - 1));; set_prev q p;;
          ret (wrap64 (k + 1)))
    1;;
  n <- get_sz this;; z <- arr_get a (wrap64 (n - 1));;
  h <- get_head this;; set_next z h;;
  h <- get_head this;; n <- get_sz this;; z <- arr_get a (wrap64 (n - 1));;
  set_prev h z.

Definition sort (fuel : nat) (this : loc) : M store unit :=
  n <- get_sz this;;
  if n <=? 1 then ret tt else
  a <- collect fuel this (replicate (Z.to_nat n) None);;
  n <- get_sz this;;
  L <- arr_set (replicate (Z.to_nat n) 0) 0 0;;
  R <- arr_set (replicate (Z.to_nat n) 0) 0 (wrap32 (wrap32 n - 1));;
  st <- qsort_loop fuel (a, L, R, 0);;
  let '(a, _, _, _) := st in
  relink fuel this a.

(** ** merge *)

(** [x->prev = tail; tail->next = x;] *)
Definition splice (tail x : pointer) : M store unit :=
  set_prev x tail;; set_next tail x.

Definition merge (fuel : nat) (this other : loc) : M store unit :=
  skip <- (if bool_decide (this = other) then ret true
           else n <- get_sz other;; ret (n =? 0));;
  if skip : bool then ret tt else
  h <- get_head this;; a <- get_next h;;
  oh <- get_head other;; b <- get_next oh;;
  tail <- get_head this;;
  h <- get_head this;; set_prev h h;; set_next h h;;
  n1 <- get_sz this;; n2 <- get_sz other;;
  let new_sz := wrap64 (n1 + n2) in
  st <- while_ fuel
    (λ '(a, b, tail), h <- get_head this;; oh <- get_head other;;
       ret (bool_decide (a ≠ None) && bool_decide (b ≠ None)
            && bool_decide (a ≠ h) && bool_decide (b ≠ oh)))
    (λ '(a, b, tail),
       vb <- deref_val b;; va <- deref_val a;;
       if ltb vb va then
         nb <- get_next b;; splice tail b;; ret (a, nb, b)
       else
         na <- get_next a;; splice tail a;; ret (na, b, a))
    (a, b, tail);;
  let '(a, b, tail) := st in
  st <- while_ fuel
    (λ '(a, tail), h <- get_head this;; ret (bool_decide (a ≠ h)))
    (λ '(a, tail), na <- get_next a;; splice tail a;; ret (na, a))
    (a, tail);;
  let '(a, tail) := st in
  st <- while_ fuel
    (λ '(b, tail), oh <- get_head other;; ret (bool_decide (b ≠ oh)))
    (λ '(b, tail), nb <- get_next b;; splice tail b;; ret (nb, b))
    (b, tail);;
  let '(b, tail) := st in
  h <- get_head this;; set_next tail h;;
  h <- get_head this;; set_prev h tail;;
  oh <- get_head other;; set_prev oh oh;; set_next oh oh;;
  set_sz other 0;;
  set_sz this new_sz.

(** ** reverse *)

Definition reverse (fuel : nat) (this : loc) : M store unit :=
  n <- get_sz this;;
  if n <=? 1 then ret tt else
  cur <- get_head this;;
  do_while fuel
    (λ cur, tmp <- get_next cur;;
            p <- get_prev cur;; set_next cur p;;
            set_prev cur tmp;;
            ret tmp)
    (λ cur, h <- get_head this;; ret (bool_decide (cur ≠ h)))
    cur;;
  ret tt.

(** ** unique *)

Definition unique (fuel : nat) (this : loc) : M store unit :=
  n <- get_sz this;;
  if n <=? 1 then ret tt else
  h <- get_head this;; cur <- get_next h;;
  while_ fuel
    (λ cur, h <- get_head this;;
            if bool_decide (cur ≠ h)
            then nx <- get_next cur;; h <- get_head this;;
                 ret (bool_decide (nx ≠ h))
            else ret false)
    (λ cur, x <- deref_val cur;; nx <- get_next cur;; y <- deref_val nx;;
            if eqb x y then
              dup <- get_next cur;;
              erase_node this dup;;
              delete_node dup;;
              ret cur
            else get_next cur)
    cur;;
  ret tt.

(** ** Reading a list back *)

(** The locations met from [head->next] up to the sentinel. *)
Fixpoint walk (fuel : nat) (s : store) (h : pointer) (cur : pointer)
    : option (list loc) :=
  match fuel with
  | O => None
  | S f =>
      if bool_decide (cur = h) then Some []
      else match cur with
           | None => None
           | Some x => nd ← nodes s !! x; r ← walk f s h (next nd); Some (x :: r)
           end
  end.

Definition node_locs (fuel : nat) (s : store) (this : loc) : option (list loc) :=
  o ← lists s !! this;
  match head o with
  | None => None
  | Some h => nd ← nodes s !! h; walk fuel s (head o) (next nd)
  end.

Definition value_at (s : store) (x : loc) : option T :=
  nodes s !! x ≫= val.

Definition to_list (fuel : nat) (s : store) (this : loc) : option (list T) :=
  node_locs fuel s this ≫= mapM (value_at s).

End model.

Arguments node : clear implicits.
Arguments list_obj : clear implicits.
Arguments store : clear implicits.


(** ** Specification vocabulary *)

(** [returns m Q s]: run from [s], the computation [m] returns normally
    (no exception, no undefined behaviour, fuel left) with a result and a
    final store that satisfy [Q]. *)
Definition returns {St A} (m : M St A) (Q : A → St → Prop) (s : St) : Prop :=
  match m s with Ret a s' => Q a s' | _ => False end.

(** [m] never leaves by an exception. *)
Definition no_throw {St A} (m : M St A) : Prop :=
  ∀ s e s', m s ≠ Throw e s'.

(** [m] only reads: when it returns, the state is the one it started from. *)
Definition reads_only {St A} (m : M St A) : Prop :=
  ∀ s a s', m s = Ret a s' → s' = s.

(** Whenever [m] leaves by an exception, the state at the [throw] is the
    state [m] was started from: nothing was changed before the failure. *)
Definition throws_unchanged {St A} (m : M St A) : Prop :=
  ∀ s e s', m s = Throw e s' → s' = s.

(** [m] ends normally or by an exception, and [I] holds of the state it
    leaves behind. *)
Definition leaves {St A} (m : M St A) (I : St → Prop) (s : St) : Prop :=
  match m s with
  | Ret _ s' => I s'
  | Throw _ s' => I s'
  | Undef | Timeout => False
  end.

(** ** Pure counterparts of the bulk operations *)

Section pure.
Context {A : Type}.

(** What the loop of unique leaves of [x :: l] when [x] is the element under
    the cursor: the elements after [x] are dropped for as long as they
    compare equal to [x]; the first one that does not becomes the cursor. *)
Fixpoint unique_from (eq : A → A → bool) (x : A) (l : list A) : list A :=
  match l with
  | [] => [x]
  | y :: l' => if eq x y then unique_from eq x l' else x :: unique_from eq y l'
  end.

Definition unique_list (eq : A → A → bool) (l : list A) : list A :=
  match l with
  | [] => []
  | x :: l' => unique_from eq x l'
  end.

(** The spec's wording of unique: an element is removed when it compares
    equal to its immediate predecessor in the list. *)
Fixpoint drop_equal_to_predecessor (eq : A → A → bool) (p : A) (l : list A)
    : list A :=
  match l with
  | [] => []
  | y :: l' =>
      if eq p y then drop_equal_to_predecessor eq y l'
      else y :: drop_equal_to_predecessor eq y l'
  end.

Definition first_of_each_run (eq : A → A → bool) (l : list A) : list A :=
  match l with
  | [] => []
  | x :: l' => x :: drop_equal_to_predecessor eq x l'
  end.

(** What merge does to two sequences: the front element of the argument
    [ys] is taken when it is strictly less than the front element of the
    receiver [xs], the front element of the receiver otherwise. *)
Fixpoint merge_lists (lt : A → A → bool) (xs : list A) : list A → list A :=
  match xs with
  | [] => λ ys, ys
  | x :: xs' =>
      fix take_from (ys : list A) : list A :=
        match ys with
        | [] => x :: xs'
        | y :: ys' =>
            if lt y x then y :: take_from ys'
            else x :: merge_lists lt xs' (y :: ys')
        end
  end.

(** Ascending order, as the spec states it for adjacent elements: the
    right neighbour is never less than the left one. *)
Definition ascending (lt : A → A → bool) (l : list A) : Prop :=
  ∀ i x y, l !! i = Some x → l !! S i = Some y → lt y x = false.

(** The contract that sort and merge ask of [operator<]: irreflexive,
    transitive, and with a transitive incomparability relation. *)
Record strict_weak_order (lt : A → A → bool) : Prop := {
  swo_irrefl : ∀ x, lt x x = false;
  swo_trans : ∀ x y z, lt x y = true → lt y z = true → lt x z = true;
  swo_incomp : ∀ x y z,
    lt x y = false → lt y x = false → lt y z = false → lt z y = false →
    lt x z = false ∧ lt z x = false
}.

(** The contract that unique asks of [operator==]. *)
Record equivalence_test (eq : A → A → bool) : Prop := {
  eqt_refl : ∀ x, eq x x = true;
  eqt_sym : ∀ x y, eq x y = true → eq y x = true;
  eqt_trans : ∀ x y z, eq x y = true → eq y z = true → eq x z = true
}.

(** [x] occurs before [y] in [l]. *)
Definition precedes (x y : A) (l : list A) : Prop :=
  ∃ l1 l2 l3, l = l1 ++ x :: l2 ++ y :: l3.


End pure.

Section predicates.
Context {T : Type}.
Implicit Types (s : store T) (x y : loc) (xs ps : list loc).

(** The link fields of a node, as seen from the store. *)
Definition nxt s x : pointer := nodes s !! x ≫= next.
Definition prv s x : pointer := nodes s !! x ≫= prev.
Definition alive s x : Prop := is_Some (nodes s !! x).

(** The store after [x->next = q], [x->prev = q] and [l->sz = n]. *)
Definition with_next x (q : pointer) s : store T :=
  upd_node x (λ nd, Node (prev nd) q (val nd)) s.
Definition with_prev x (q : pointer) s : store T :=
  upd_node x (λ nd, Node q (next nd) (val nd)) s.
Definition with_sz (l : loc) (n : Z) s : store T :=
  upd_list l (λ o, ListObj (head o) n) s.

(** Every node of [xs] points forward to its right neighbour, which points
    back to it. *)
Fixpoint chain s xs : Prop :=
  match xs with
  | x :: (y :: _) as r => nxt s x = Some y ∧ prv s y = Some x ∧ chain s r
  | _ => True
  end.

(** The same with the [next] links alone. *)
Fixpoint nchain s xs : Prop :=
  match xs with
  | x :: (y :: _) as r => nxt s x = Some y ∧ nchain s r
  | _ => True
  end.

(** The list object [this] owns the sentinel [h] and, in traversal order,
    the nodes [ps]: the chain is circular through the sentinel, no node
    occurs twice, and the size counter is the number of nodes. *)
Definition is_list s (this : loc) (h : loc) ps : Prop :=
  lists s !! this = Some (ListObj (Some h) (Z.of_nat (length ps))) ∧
  NoDup (h :: ps) ∧
  chain s (h :: ps ++ [h]) ∧
  Z.of_nat (length ps) < 2 ^ 64.

Definition values s ps (vs : list T) : Prop :=
  Forall2 (λ p v, value_at s p = Some v) ps vs.

(** [this] holds the values [vs], in the nodes [ps]. *)
Definition repr s (this : loc) ps (vs : list T) : Prop :=
  ∃ h, is_list s this h ps ∧ values s ps vs.


(** [s1] is [s] with the two links of every node of [D] exchanged. *)
Definition swapped s s1 (D : list loc) : Prop :=
  (∀ x, x ∈ D → nxt s1 x = prv s x ∧ prv s1 x = nxt s x) ∧
  (∀ x, x ∉ D → nodes s1 !! x = nodes s !! x) ∧
  lists s1 = lists s ∧
  (∀ x, value_at s1 x = value_at s x) ∧
  (∀ x, alive s1 x ↔ alive s x).

(** The state of merge between two splices: [out] is the part of the new
    chain built so far behind the receiver's sentinel [h], [ra] and [rb]
    are the nodes of the receiver and of the argument that are still to be
    taken, reachable along their old [next] links, and [a], [b] and [tail]
    are the three cursors. *)
Definition merge_shape s0 (h oh : loc) (all out ra rb : list loc)
    (a b tail : pointer) s1 : Prop :=
  a = Some (default h (ra !! 0%nat)) ∧
  b = Some (default oh (rb !! 0%nat)) ∧
  tail = Some (default h (last out)) ∧
  NoDup (h :: oh :: out ++ ra ++ rb) ∧
  out ++ ra ++ rb ≡ₚ all ∧
  chain s1 (h :: out) ∧ nchain s1 (ra ++ [h]) ∧ nchain s1 (rb ++ [oh]) ∧
  (∀ x, value_at s1 x = value_at s0 x) ∧
  (∀ x, alive s1 x ↔ alive s0 x) ∧
  lists s1 = lists s0 ∧
  (∀ x, x ∉ h :: oh :: all → nodes s1 !! x = nodes s0 !! x) ∧
  (∀ x, x ∈ h :: oh :: all → alive s0 x).

(** Every node of [al] is listed with the value it holds. *)
Definition keyed s (al : list (loc * T)) : Prop :=
  Forall (λ p, value_at s p.1 = Some p.2) al.

(** The node pointers held by the buffer of sort, for the nodes [al]
    listed with their values. *)
Definition ptrs (al : list (loc * T)) : list pointer := (λ p, Some p.1) <$> al.

(** The pending subranges on the explicit stack of sort: entry [k] of the
    two arrays, for [k] up to [top]. *)
Definition stack_holds (L R : list Z) (top : Z) (stk : list (Z * Z)) : Prop :=
  top = Z.of_nat (length stk) - 1 ∧
  ∀ k l r, stk !! k = Some (l, r) → L !! k = Some l ∧ R !! k = Some r.

(** The pending subranges lie inside the buffer, hold at least two cells
    each and do not overlap. *)
Fixpoint ranges_ok (n : Z) (stk : list (Z * Z)) : Prop :=
  match stk with
  | [] => True
  | (l, r) :: rest =>
      0 ≤ l ∧ l < r ∧ r < n ∧
      Forall (λ lr, r < lr.1 ∨ lr.2 < l) rest ∧
      ranges_ok n rest
  end.

(** The sum of [r - l] over the pending subranges. *)
Definition span (stk : list (Z * Z)) : Z :=
  foldr (λ lr acc, (lr.2 - lr.1) + acc) 0 stk.

(** Every pair of cells that no pending subrange holds together is
    already in order. *)
Definition sorted_outside (lt : T → T → bool) (al : list (loc * T))
    (stk : list (Z * Z)) : Prop :=
  ∀ p q (u v : loc * T), 0 ≤ p → p < q →
    al !! Z.to_nat p = Some u → al !! Z.to_nat q = Some v →
    Forall (λ lr, ¬ (lr.1 ≤ p ∧ q ≤ lr.2)) stk →
    lt v.2 u.2 = false.

(** The invariant of the loop [while (top >= 0)] of sort, on the buffer
    and the two stack arrays; [al0] is the buffer the loop started from. *)
Definition qsort_inv (lt : T → T → bool) (al0 : list (loc * T))
    (st : list pointer * list Z * list Z * Z) : Prop :=
  ∃ al stk,
    st.1.1.1 = ptrs al ∧ al ≡ₚ al0 ∧
    length st.1.1.2 = length al0 ∧ length st.1.2 = length al0 ∧
    stack_holds st.1.1.2 st.1.2 st.2 stk ∧
    ranges_ok (Z.of_nat (length al0)) stk ∧
    span stk + Z.of_nat (length stk) ≤ Z.of_nat (length al0) ∧
    sorted_outside lt al stk.

(** Two lists share no node. *)
Definition apart xs (ys : list loc) : Prop := ∀ x, x ∈ xs → x ∉ ys.

(** Nodes and list objects that an operation on one list leaves alone. *)
Definition same_nodes_outside s s' (fp : list loc) : Prop :=
  ∀ x, x ∉ fp → alive s x → nodes s' !! x = nodes s !! x.
Definition same_lists_except s s' (ls : list loc) : Prop :=
  ∀ l, l ∉ ls → lists s' !! l = lists s !! l.


(** An iterator that belongs to [this] and is not null points to a node of
    [this] or to its sentinel: it does not dangle. *)
Definition valid_position (this h : loc) ps (pos : iterator) : Prop :=
  owner pos = Some this → ∀ x, ptr pos = Some x → x ∈ h :: ps.

End predicates.

Global Arguments chain {T} s xs : simpl never.
Global Arguments nchain {T} s xs : simpl never.

(** ** Running the code on small lists of integers *)

Module examples.

Definition run {A} (m : M (store Z) A) (s : store Z) : store Z :=
  match m s with Ret _ s' => s' | _ => s end.
Definition result {A} (d : A) (m : M (store Z) A) (s : store Z) : A :=
  match m s with Ret a _ => a | _ => d end.

Definition fill (this : loc) (vs : list Z) (s : store Z) : store Z :=
  foldl (λ s v, run (push_back this v) s) s vs.

(** Two lists, at locations 1 and 2. *)
Definition two_lists (xs ys : list Z) : store Z :=
  fill 2%positive ys (fill 1%positive xs (run list_ctor (run list_ctor empty_store))).

(** The stores that the properties below are run on; the list at location
    1 has its sentinel in node 1 and its elements in the nodes from 3 on. *)
Definition three : store Z := two_lists [1; 2; 3] [].
Definition sorted_pair : store Z := two_lists [1; 3; 3; 5] [2; 3; 4].
Definition runs : store Z := two_lists [1; 1; 2; 2; 2; 3; 1] [].
Definition single : store Z := two_lists [4] [].
Definition none : store Z := two_lists [] [].


End examples.


(** ** Reasoning rules for the monad *)

Section rules.
Context {St : Type}.

Lemma returns_ret {A} (a : A) (Q : A → St → Prop) s : Q a s → returns (ret a) Q s.
Proof. done. Qed.

Lemma returns_bind {A B} (m : M St A) (k : A → M St B) Q s :
  returns m (λ a s', returns (k a) Q s') s → returns (x <- m;; k x) Q s.
Proof. unfold returns, bind. by destruct (m s). Qed.

Lemma returns_mono {A} (m : M St A) (Q Q' : A → St → Prop) s :
  returns m Q s → (∀ a s', Q a s' → Q' a s') → returns m Q' s.
Proof. unfold returns. destruct (m s); naive_solver. Qed.

Lemma returns_eq {A} (m : M St A) Q s :
  returns m Q s ↔ ∃ a s', m s = Ret a s' ∧ Q a s'.
Proof.
  unfold returns. split.
  - destruct (m s); naive_solver.
  - intros (a & s' & -> & ?). done.
Qed.

Lemma returns_of_eq {A} (m : M St A) (Q : A → St → Prop) s a s' :
  m s = Ret a s' → Q a s' → returns m Q s.
Proof. intros. apply returns_eq. eauto. Qed.

Lemma returns_get (Q : St → St → Prop) s : Q s s → returns get Q s.
Proof. done. Qed.

Lemma returns_put (Q : unit → St → Prop) s s' : Q tt s' → returns (put s') Q s.
Proof. done. Qed.

Lemma returns_arr_get {A} (a : list A) (i : Z) x (Q : A → St → Prop) s :
  0 ≤ i → a !! Z.to_nat i = Some x → Q x s → returns (arr_get a i) Q s.
Proof.
  intros Hi Hx HQ. unfold returns, arr_get.
  destruct (Z.ltb_spec i 0); [lia|]. by rewrite Hx.
Qed.

Lemma returns_arr_set {A} (a : list A) (i : Z) x (Q : list A → St → Prop) s :
  0 ≤ i < Z.of_nat (length a) → Q (<[Z.to_nat i := x]> a) s →
  returns (arr_set a i x) Q s.
Proof.
  intros Hi HQ. unfold returns, arr_set.
  destruct (Z.leb_spec 0 i); [|lia].
  destruct (Z.ltb_spec i (Z.of_nat (length a))); [|lia]. done.
Qed.

(** The rule for loops: an invariant [I], kept by the body, and a measure
    that the body decreases and that the fuel exceeds. The condition of
    every loop of the program reads the store without changing it. *)
Lemma returns_while {V} (I : V → St → Prop) (meas : V → St → nat)
    (cond : V → M St bool) (body : V → M St V) (Q : V → St → Prop) fuel v s :
  I v s →
  (meas v s < fuel)%nat →
  (∀ v s, I v s →
     returns (cond v) (λ b s', s' = s ∧
       if b then returns (body v)
                   (λ v' s'', I v' s'' ∧ (meas v' s'' < meas v s)%nat) s
       else Q v s) s) →
  returns (while_ fuel cond body v) Q s.
Proof.
  intros HI Hfuel Hstep. revert v s HI Hfuel.
  induction fuel as [|fuel IH]; intros v s HI Hfuel; [lia|].
  simpl. apply returns_bind.
  eapply returns_mono; [apply Hstep, HI|].
  intros [] s' [-> H]; simpl.
  - apply returns_bind. eapply returns_mono; [exact H|].
    intros v' s'' [HI' Hm]. apply IH; [done|lia].
  - by apply returns_ret.
Qed.

End rules.

(** ** Reasoning rules for the store *)

Section store_rules.
Context {T : Type}.
Implicit Types (s : store T) (x y : loc) (p q : pointer) (xs ps : list loc).

Lemma nxt_alive s x y : nxt s x = Some y → alive s x.
Proof. unfold nxt, alive. destruct (nodes s !! x); naive_solver. Qed.

Lemma prv_alive s x y : prv s x = Some y → alive s x.
Proof. unfold prv, alive. destruct (nodes s !! x); naive_solver. Qed.

Lemma value_alive s x v : value_at s x = Some v → alive s x.
Proof. unfold value_at, alive. destruct (nodes s !! x); naive_solver. Qed.

Lemma returns_get_next s x (Q : pointer → store T → Prop) :
  alive s x → Q (nxt s x) s → returns (get_next (Some x)) Q s.
Proof.
  intros [nd Hnd] HQ. unfold returns, get_next, bind, load_node, nxt in *.
  by rewrite Hnd in *.
Qed.

Lemma returns_get_prev s x (Q : pointer → store T → Prop) :
  alive s x → Q (prv s x) s → returns (get_prev (Some x)) Q s.
Proof.
  intros [nd Hnd] HQ. unfold returns, get_prev, bind, load_node, prv in *.
  by rewrite Hnd in *.
Qed.

Lemma returns_set_next s x q (Q : unit → store T → Prop) :
  alive s x → Q tt (with_next x q s) → returns (set_next (Some x) q) Q s.
Proof.
  intros [nd Hnd] HQ. unfold returns, set_next, store_node. by rewrite Hnd.
Qed.

Lemma returns_set_prev s x q (Q : unit → store T → Prop) :
  alive s x → Q tt (with_prev x q s) → returns (set_prev (Some x) q) Q s.
Proof.
  intros [nd Hnd] HQ. unfold returns, set_prev, store_node. by rewrite Hnd.
Qed.

Lemma returns_deref_val s x v (Q : T → store T → Prop) :
  value_at s x = Some v → Q v s → returns (deref_val (Some x)) Q s.
Proof.
  unfold returns, deref_val, bind, load_node, value_at.
  destruct (nodes s !! x) as [nd|]; simpl; [|done].
  intros ->. done.
Qed.

Lemma returns_delete_node s x (Q : unit → store T → Prop) :
  alive s x → Q tt (Store (delete x (nodes s)) (lists s)) →
  returns (delete_node (Some x)) Q s.
Proof. intros [nd Hnd] HQ. unfold returns, delete_node. by rewrite Hnd. Qed.

Lemma returns_new_node s v (Q : pointer → store T → Prop) :
  (∀ x, ¬ alive s x →
        Q (Some x) (Store (<[x := Node None None v]> (nodes s)) (lists s))) →
  returns (new_node v) Q s.
Proof.
  intros HQ. unfold returns, new_node. apply HQ.
  unfold alive. rewrite <- elem_of_dom. apply is_fresh.
Qed.

Lemma returns_get_head s l o (Q : pointer → store T → Prop) :
  lists s !! l = Some o → Q (head o) s → returns (get_head l) Q s.
Proof. intros Hl HQ. unfold returns, get_head, bind, load_list. by rewrite Hl. Qed.

Lemma returns_get_sz s l o (Q : Z → store T → Prop) :
  lists s !! l = Some o → Q (sz o) s → returns (get_sz l) Q s.
Proof. intros Hl HQ. unfold returns, get_sz, bind, load_list. by rewrite Hl. Qed.

Lemma returns_set_sz s l o n (Q : unit → store T → Prop) :
  lists s !! l = Some o → Q tt (with_sz l n s) → returns (set_sz l n) Q s.
Proof. intros Hl HQ. unfold returns, set_sz, store_list. by rewrite Hl. Qed.

(** *** The fields after an update *)

Lemma nxt_with_next_eq s x q : alive s x → nxt (with_next x q s) x = q.
Proof.
  intros [nd Hnd]. unfold nxt, with_next, upd_node; simpl.
  by rewrite lookup_alter_eq, Hnd.
Qed.
Lemma nxt_with_next_ne s x y q : y ≠ x → nxt (with_next x q s) y = nxt s y.
Proof.
  intros. unfold nxt, with_next, upd_node; simpl. by rewrite lookup_alter_ne.
Qed.
Lemma prv_with_next s x y q : prv (with_next x q s) y = prv s y.
Proof.
  unfold prv, with_next, upd_node; simpl.
  destruct (decide (x = y)) as [->|].
  - rewrite lookup_alter_eq. by destruct (nodes s !! y).
  - by rewrite lookup_alter_ne.
Qed.
Lemma value_with_next s x y q : value_at (with_next x q s) y = value_at s y.
Proof.
  unfold value_at, with_next, upd_node; simpl.
  destruct (decide (x = y)) as [->|].
  - rewrite lookup_alter_eq. by destruct (nodes s !! y).
  - by rewrite lookup_alter_ne.
Qed.
Lemma alive_with_next s x y q : alive (with_next x q s) y ↔ alive s y.
Proof.
  unfold alive, with_next, upd_node; simpl.
  destruct (decide (x = y)) as [->|].
  - rewrite lookup_alter_eq. by rewrite fmap_is_Some.
  - by rewrite lookup_alter_ne.
Qed.

Lemma prv_with_prev_eq s x q : alive s x → prv (with_prev x q s) x = q.
Proof.
  intros [nd Hnd]. unfold prv, with_prev, upd_node; simpl.
  by rewrite lookup_alter_eq, Hnd.
Qed.
Lemma prv_with_prev_ne s x y q : y ≠ x → prv (with_prev x q s) y = prv s y.
Proof.
  intros. unfold prv, with_prev, upd_node; simpl. by rewrite lookup_alter_ne.
Qed.
Lemma nxt_with_prev s x y q : nxt (with_prev x q s) y = nxt s y.
Proof.
  unfold nxt, with_prev, upd_node; simpl.
  destruct (decide (x = y)) as [->|].
  - rewrite lookup_alter_eq. by destruct (nodes s !! y).
  - by rewrite lookup_alter_ne.
Qed.
Lemma value_with_prev s x y q : value_at (with_prev x q s) y = value_at s y.
Proof.
  unfold value_at, with_prev, upd_node; simpl.
  destruct (decide (x = y)) as [->|].
  - rewrite lookup_alter_eq. by destruct (nodes s !! y).
  - by rewrite lookup_alter_ne.
Qed.
Lemma alive_with_prev s x y q : alive (with_prev x q s) y ↔ alive s y.
Proof.
  unfold alive, with_prev, upd_node; simpl.
  destruct (decide (x = y)) as [->|].
  - rewrite lookup_alter_eq. by rewrite fmap_is_Some.
  - by rewrite lookup_alter_ne.
Qed.

End store_rules.

(** ** Chains *)

Section chains.
Context {T : Type}.
Implicit Types (s : store T) (x y : loc) (p q : pointer) (xs ps : list loc).

Lemma chain_cons s x y r :
  chain s (x :: y :: r) ↔ nxt s x = Some y ∧ prv s y = Some x ∧ chain s (y :: r).
Proof. done. Qed.

Lemma chain_app_l s xs ys : chain s (xs ++ ys) → chain s xs.
Proof.
  induction xs as [|x xs IH]; [done|].
  destruct xs as [|y r]; [done|].
  cbn [app] in *. rewrite !chain_cons. naive_solver.
Qed.

Lemma chain_app_r s xs ys : chain s (xs ++ ys) → chain s ys.
Proof.
  induction xs as [|x xs IH]; [done|].
  destruct xs as [|y r]; cbn [app] in *.
  - destruct ys; [done|]. rewrite chain_cons. naive_solver.
  - rewrite chain_cons. naive_solver.
Qed.

Lemma chain_join s xs y ys :
  chain s (xs ++ [y]) → chain s (y :: ys) → chain s (xs ++ y :: ys).
Proof.
  induction xs as [|x xs IH]; [done|].
  destruct xs as [|z r]; cbn [app] in *; rewrite !chain_cons; naive_solver.
Qed.

Lemma chain_snoc s xs x y :
  chain s (xs ++ [x]) → nxt s x = Some y → prv s y = Some x →
  chain s (xs ++ [x; y]).
Proof. intros. apply chain_join; [done|]. by rewrite chain_cons. Qed.

Lemma chain_frame s s' xs :
  chain s xs →
  (∀ z, z ∈ removelast xs → nxt s' z = nxt s z) →
  (∀ z, z ∈ tail xs → prv s' z = prv s z) →
  chain s' xs.
Proof.
  induction xs as [|x xs IH]; [done|].
  destruct xs as [|y r]; [done|].
  rewrite !chain_cons. intros (Hn & Hp & Hc) Hnxt Hprv.
  split_and!.
  - rewrite Hnxt; [done|]. cbn. left.
  - rewrite Hprv; [done|]. cbn. left.
  - apply IH; [done| |].
    + intros z Hz. apply Hnxt. cbn [removelast]. by right.
    + intros z Hz. apply Hprv. cbn [tail] in *. by right.
Qed.

Lemma chain_nchain s xs : chain s xs → nchain s xs.
Proof.
  induction xs as [|x xs IH]; [done|].
  destruct xs as [|y r]; [done|].
  rewrite chain_cons. intros (? & ? & ?). split; auto.
Qed.

Lemma chain_alive s xs x : chain s xs → (1 < length xs)%nat → x ∈ xs → alive s x.
Proof.
  induction xs as [|a xs IH]; [simpl; lia|].
  destruct xs as [|b r]; [simpl; lia|].
  rewrite chain_cons. intros (Hn & Hp & Hc) _ Hx.
  apply elem_of_cons in Hx as [->|Hx]; [by eapply nxt_alive|].
  destruct r as [|c r].
  - apply list_elem_of_singleton in Hx as ->. by eapply prv_alive.
  - apply IH; [done|simpl; lia|done].
Qed.

(** Rewiring the part of a circular chain between the end of [ps1] and the
    start of [ps2]: the rest of the chain is kept as long as its own links
    are. *)
Lemma cyc_surgery s s' (h : loc) ps1 ps2 mid mid' :
  NoDup (h :: ps1 ++ ps2) →
  chain s (h :: ps1 ++ mid ++ ps2 ++ [h]) →
  let q := default h (last ps1) in
  let n := default h (ps2 !! 0%nat) in
  (∀ z, z ∈ h :: ps1 → z ≠ q → nxt s' z = nxt s z) →
  (∀ z, z ∈ ps1 → prv s' z = prv s z) →
  (∀ z, z ∈ ps2 → nxt s' z = nxt s z) →
  (∀ z, z ∈ ps2 ++ [h] → z ≠ n → prv s' z = prv s z) →
  chain s' (q :: mid' ++ [n]) →
  chain s' (h :: ps1 ++ mid' ++ ps2 ++ [h]).
Proof.
  intros Hnd Hc q n H1 H2 H3 H4 Hmid.
  assert (chain s (h :: ps1)) as Hl.
  { change (h :: ps1 ++ mid ++ ps2 ++ [h]) with ((h :: ps1) ++ mid ++ ps2 ++ [h]) in Hc.
    by apply chain_app_l in Hc. }
  assert (chain s (ps2 ++ [h])) as Hr.
  { change (h :: ps1 ++ mid ++ ps2 ++ [h]) with ((h :: ps1) ++ mid ++ ps2 ++ [h]) in Hc.
    by do 2 apply chain_app_r in Hc. }
  assert (chain s' (h :: ps1)) as Hl'.
  { eapply chain_frame; [done| |].
    - intros z Hz. subst q.
      destruct ps1 as [|a ps1 _] using rev_ind; [cbn in Hz; set_solver|].
      rewrite last_snoc in H1. cbn in H1.
      rewrite app_comm_cons, removelast_last in Hz.
      apply H1; [set_solver|]. intros ->.
      rewrite app_comm_cons in Hnd. apply NoDup_app in Hnd as [Hnd _].
      apply (NoDup_app (h :: ps1) [a]) in Hnd as (_ & Hnd & _). set_solver.
    - intros z Hz. by apply H2. }
  assert (chain s' (ps2 ++ [h])) as Hr'.
  { eapply chain_frame; [done| |].
    - intros z Hz. apply H3. by rewrite removelast_last in Hz.
    - intros z Hz. apply H4.
      + destruct ps2; simpl in *; set_solver.
      + intros ->. subst n. destruct ps2 as [|b ps2]; simpl in *; [set_solver|].
        apply NoDup_cons in Hnd as [Hh Hnd]. apply NoDup_app in Hnd as (_ & _ & Hnd).
        apply NoDup_cons in Hnd as [Hb _]. set_solver. }
  clear Hc Hl Hr H1 H2 H3 H4.
  destruct ps1 as [|a ps1 _] using rev_ind.
  - simpl in *. subst q.
    destruct ps2 as [|b ps2]; simpl in *; subst n.
    + done.
    + change (h :: mid' ++ b :: ps2 ++ [h]) with ((h :: mid') ++ b :: ps2 ++ [h]).
      apply chain_join; done.
  - subst q. rewrite last_snoc in Hmid. simpl in Hmid.
    rewrite <- app_assoc. simpl.
    change (h :: ps1 ++ a :: mid' ++ ps2 ++ [h]) with ((h :: ps1) ++ a :: mid' ++ ps2 ++ [h]).
    apply chain_join; [done|].
    destruct ps2 as [|b ps2]; simpl in *; subst n.
    + done.
    + change (a :: mid' ++ b :: ps2 ++ [h]) with ((a :: mid') ++ b :: ps2 ++ [h]).
      apply chain_join; done.
Qed.

End chains.

(** ** The link operations *)

Section links.
Context {T : Type}.
Implicit Types (s : store T) (x y : loc) (xs ps : list loc).

Lemma nxt_with_sz s l n x : nxt (with_sz l n s) x = nxt s x.
Proof. done. Qed.
Lemma prv_with_sz s l n x : prv (with_sz l n s) x = prv s x.
Proof. done. Qed.
Lemma value_with_sz s l n x : value_at (with_sz l n s) x = value_at s x.
Proof. done. Qed.
Lemma alive_with_sz s l n x : alive (with_sz l n s) x ↔ alive s x.
Proof. done. Qed.

Lemma lists_with_sz_eq s l n o :
  lists s !! l = Some o → lists (with_sz l n s) !! l = Some (ListObj (head o) n).
Proof. intros H. unfold with_sz, upd_list; simpl. by rewrite lookup_alter_eq, H. Qed.
Lemma lists_with_sz_ne s l l' n :
  l' ≠ l → lists (with_sz l n s) !! l' = lists s !! l'.
Proof. intros H. unfold with_sz, upd_list; simpl. by rewrite lookup_alter_ne. Qed.

Lemma nodes_with_next_ne s x y (q : pointer) : y ≠ x → nodes (with_next x q s) !! y = nodes s !! y.
Proof. intros. unfold with_next, upd_node; simpl. by rewrite lookup_alter_ne. Qed.
Lemma nodes_with_prev_ne s x y (q : pointer) : y ≠ x → nodes (with_prev x q s) !! y = nodes s !! y.
Proof. intros. unfold with_prev, upd_node; simpl. by rewrite lookup_alter_ne. Qed.

(** The links between the end of [ps1] and the start of [ps2]. *)
Lemma cyc_middle s (h : loc) ps1 mid ps2 :
  chain s (h :: ps1 ++ mid ++ ps2 ++ [h]) →
  chain s (default h (last ps1) :: mid ++ [default h (ps2 !! 0%nat)]).
Proof.
  intros Hc.
  destruct ps1 as [|a ps1 _] using rev_ind; cbn [last default app] in *.
  - destruct ps2 as [|b ps2]; cbn in *; [done|].
    replace (h :: mid ++ b :: ps2 ++ [h]) with ((h :: mid ++ [b]) ++ ps2 ++ [h]) in Hc
      by (cbn; by rewrite <- app_assoc).
    by apply chain_app_l in Hc.
  - rewrite last_snoc. cbn.
    rewrite <- app_assoc, app_comm_cons in Hc. apply chain_app_r in Hc.
    cbn [app] in Hc.
    destruct ps2 as [|b ps2]; cbn in *; [done|].
    replace (a :: mid ++ b :: ps2 ++ [h]) with ((a :: mid ++ [b]) ++ ps2 ++ [h]) in Hc
      by (cbn; by rewrite <- app_assoc).
    by apply chain_app_l in Hc.
Qed.

Lemma is_list_alive s this h ps x : is_list s this h ps → x ∈ h :: ps → alive s x.
Proof.
  intros (_ & _ & Hc & _) Hx.
  eapply chain_alive; [done| |].
  - rewrite length_cons, length_app; simpl; lia.
  - set_solver.
Qed.

Lemma snoc_default_in (h : loc) ps : default h (last ps) ∈ h :: ps.
Proof.
  destruct ps as [|a ps _] using rev_ind; [set_solver|].
  rewrite last_snoc. set_solver.
Qed.
Lemma head_default_in (h : loc) ps : default h (ps !! 0%nat) ∈ ps ++ [h].
Proof. destruct ps; set_solver. Qed.

Lemma nodup_sides_l (h : loc) ps1 ps2 z :
  NoDup (h :: ps1 ++ ps2) → z ∈ ps1 → z ∈ ps2 ++ [h] → False.
Proof.
  intros Hnd H1 H2. apply NoDup_cons in Hnd as [Hh Hnd].
  apply NoDup_app in Hnd as (_ & Hd & _).
  apply elem_of_app in H2 as [H2|H2].
  - by apply (Hd z).
  - apply list_elem_of_singleton in H2 as ->. apply Hh, elem_of_app. by left.
Qed.

Lemma nodup_sides_r (h : loc) ps1 ps2 z :
  NoDup (h :: ps1 ++ ps2) → z ∈ h :: ps1 → z ∈ ps2 → False.
Proof.
  intros Hnd H1 H2. apply NoDup_cons in Hnd as [Hh Hnd].
  apply NoDup_app in Hnd as (_ & Hd & _).
  apply elem_of_cons in H1 as [->|H1].
  - apply Hh, elem_of_app. by right.
  - by apply (Hd z).
Qed.

Lemma insert_node_spec s this h ps1 ps2 cur :
  is_list s this h (ps1 ++ ps2) →
  alive s cur → cur ∉ h :: ps1 ++ ps2 →
  Z.of_nat (length (ps1 ++ ps2)) + 1 < 2 ^ 64 →
  returns (insert_node this (Some (default h (ps2 !! 0%nat))) (Some cur))
    (λ r s', r = Some cur ∧ is_list s' this h (ps1 ++ cur :: ps2) ∧
             (∀ x, value_at s' x = value_at s x) ∧
             (∀ x, alive s' x ↔ alive s x) ∧
             same_nodes_outside s s' (cur :: h :: ps1 ++ ps2) ∧
             same_lists_except s s' [this]) s.
Proof.
  intros Hl Hcur Hfresh Hsz.
  pose proof Hl as (Hobj & Hnd & Hc & _).
  set (pos := default h (ps2 !! 0%nat)).
  set (q := default h (last ps1)).
  assert (chain s [q; pos]) as Hqp.
  { apply (cyc_middle s h ps1 [] ps2). by rewrite <- app_assoc in Hc. }
  apply chain_cons in Hqp as (Hq & Hp & _).
  assert (pos ∈ h :: ps1 ++ ps2) as Hpos.
  { pose proof (head_default_in h ps2). subst pos. set_solver. }
  assert (q ∈ h :: ps1 ++ ps2) as Hqin.
  { pose proof (snoc_default_in h ps1). subst q. set_solver. }
  assert (cur ≠ pos) by set_solver.
  assert (cur ≠ q) by set_solver.
  unfold insert_node.
  apply returns_bind, returns_get_prev; [by eapply prv_alive|]. rewrite Hp.
  apply returns_bind, returns_set_prev; [done|].
  apply returns_bind, returns_set_next; [by rewrite alive_with_prev|].
  apply returns_bind, returns_get_prev.
  { rewrite alive_with_next, alive_with_prev. by eapply prv_alive. }
  rewrite prv_with_next, prv_with_prev_ne, Hp by done.
  apply returns_bind, returns_set_next.
  { rewrite alive_with_next, alive_with_prev. by eapply nxt_alive. }
  apply returns_bind, returns_set_prev.
  { rewrite !alive_with_next, alive_with_prev. by eapply prv_alive. }
  apply returns_bind. eapply returns_get_sz; [exact Hobj|]. cbn [sz].
  apply returns_bind. eapply returns_set_sz; [exact Hobj|].
  apply returns_ret.
  set (s' := with_sz _ _ _).
  assert (∀ z, nxt s' z = if decide (z = q) then Some cur
                          else if decide (z = cur) then Some pos else nxt s z) as Hnxt.
  { intros z. subst s'. rewrite nxt_with_sz, nxt_with_prev.
    destruct (decide (z = q)) as [->|].
    - rewrite nxt_with_next_eq; [done|].
      rewrite alive_with_next, alive_with_prev. by eapply nxt_alive.
    - rewrite nxt_with_next_ne by done.
      destruct (decide (z = cur)) as [->|].
      + rewrite nxt_with_next_eq; [done|]. by rewrite alive_with_prev.
      + by rewrite nxt_with_next_ne, nxt_with_prev. }
  assert (∀ z, prv s' z = if decide (z = pos) then Some cur
                          else if decide (z = cur) then Some q else prv s z) as Hprv.
  { intros z. subst s'. rewrite prv_with_sz.
    destruct (decide (z = pos)) as [->|].
    - rewrite prv_with_prev_eq; [done|].
      rewrite !alive_with_next, alive_with_prev. by eapply prv_alive.
    - rewrite prv_with_prev_ne, !prv_with_next by done.
      destruct (decide (z = cur)) as [->|].
      + by rewrite prv_with_prev_eq.
      + by rewrite prv_with_prev_ne. }
  split_and!.
  - done.
  - split_and!.
    + subst s'. erewrite lists_with_sz_eq; [|exact Hobj]. cbn [head].
      do 3 f_equal. unfold wrap64. rewrite Z.mod_small.
      * rewrite !length_app, length_cons, !Nat2Z.inj_add, Nat2Z.inj_succ. lia.
      * lia.
    + apply NoDup_cons in Hnd as [Hh Hnd]. apply NoDup_app in Hnd as (? & ? & ?).
      apply NoDup_cons. split; [set_solver|].
      apply NoDup_app. split_and!; [done|set_solver|].
      apply NoDup_cons. split; [set_solver|done].
    + change (cur :: ps2) with ([cur] ++ ps2). rewrite <- app_assoc.
      eapply (cyc_surgery s s' h ps1 ps2 [] [cur]); fold q pos.
      * done.
      * by rewrite <- app_assoc in Hc.
      * intros z Hz Hzq. rewrite Hnxt. rewrite decide_False by done.
        rewrite decide_False; [done|set_solver].
      * intros z Hz. rewrite Hprv.
        pose proof (head_default_in h ps2) as Hin. fold pos in Hin.
        rewrite decide_False.
        -- rewrite decide_False; [done|]. intros ->. apply Hfresh.
           apply elem_of_cons. right. apply elem_of_app. by left.
        -- intros ->. by eapply nodup_sides_l.
      * intros z Hz. rewrite Hnxt.
        pose proof (snoc_default_in h ps1) as Hin. fold q in Hin.
        rewrite decide_False.
        -- rewrite decide_False; [done|]. intros ->. apply Hfresh.
           apply elem_of_cons. right. apply elem_of_app. by right.
        -- intros ->. by eapply nodup_sides_r.
      * intros z Hz Hzp. rewrite Hprv. rewrite decide_False by done.
        rewrite decide_False; [done|set_solver].
      * cbn [app]. rewrite !chain_cons. rewrite !Hnxt, !Hprv.
        rewrite !decide_True by done.
        rewrite (decide_False (P := cur = q)) by done.
        rewrite (decide_False (P := cur = pos)) by done.
        rewrite !decide_True by done. done.
    + rewrite length_app, length_cons, Nat2Z.inj_add, Nat2Z.inj_succ.
      rewrite length_app, Nat2Z.inj_add in Hsz. lia.
  - intros x. subst s'. by rewrite value_with_sz, value_with_prev, !value_with_next, value_with_prev.
  - intros x. subst s'. by rewrite alive_with_sz, alive_with_prev, !alive_with_next, alive_with_prev.
  - intros x Hx _. subst s'. unfold with_sz, upd_list. cbn [nodes].
    rewrite nodes_with_prev_ne, !nodes_with_next_ne, nodes_with_prev_ne; set_solver.
  - intros l Hl'. subst s'. rewrite lists_with_sz_ne; [done|].
    by apply not_elem_of_cons in Hl' as [? _].
Qed.

Lemma nodup_remove_mid (h : loc) ps1 p ps2 :
  NoDup (h :: ps1 ++ p :: ps2) →
  NoDup (h :: ps1 ++ ps2) ∧ p ∉ h :: ps1 ++ ps2.
Proof.
  rewrite !NoDup_cons, !NoDup_app, NoDup_cons.
  intros (Hh & H1 & Hd & Hp & H2).
  rewrite elem_of_app, elem_of_cons in Hh.
  split_and!; try done.
  - rewrite elem_of_app. tauto.
  - intros x Hx Hx'. apply (Hd x Hx). by right.
  - rewrite elem_of_cons, elem_of_app. intros [->|[Hp'|Hp']]; [tauto| |tauto].
    apply (Hd p Hp'). left.
Qed.

Lemma erase_node_spec s this h ps1 p ps2 :
  is_list s this h (ps1 ++ p :: ps2) →
  returns (erase_node this (Some p))
    (λ r s', r = Some p ∧ is_list s' this h (ps1 ++ ps2) ∧
             (∀ x, value_at s' x = value_at s x) ∧
             (∀ x, alive s' x ↔ alive s x) ∧
             nxt s' p = None ∧ prv s' p = None ∧
             same_nodes_outside s s' (h :: ps1 ++ p :: ps2) ∧
             same_lists_except s s' [this]) s.
Proof.
  intros Hl.
  pose proof Hl as (Hobj & Hnd & Hc & Hsz).
  set (n := default h (ps2 !! 0%nat)).
  set (q := default h (last ps1)).
  apply nodup_remove_mid in Hnd as [Hnd Hpout].
  assert (chain s [q; p; n]) as Hqpn.
  { apply (cyc_middle s h ps1 [p] ps2). by rewrite <- app_assoc in Hc. }
  apply chain_cons in Hqpn as (Hq & Hp & Hqpn).
  apply chain_cons in Hqpn as (Hpn & Hn & _).
  assert (n ∈ ps2 ++ [h]) as Hnin by apply head_default_in.
  assert (q ∈ h :: ps1) as Hqin by apply snoc_default_in.
  assert (p ≠ q) as Hpq.
  { intros ->. apply Hpout. apply elem_of_cons in Hqin as [->|Hqin]; [left|].
    right. apply elem_of_app. by left. }
  assert (p ≠ n) as Hpn'.
  { intros ->. apply Hpout. apply elem_of_app in Hnin as [Hnin|Hnin].
    - right. apply elem_of_app. by right.
    - apply list_elem_of_singleton in Hnin as ->. left. }
  assert (alive s p) as Ap by (by eapply nxt_alive).
  assert (alive s q) as Aq by (by eapply nxt_alive).
  assert (alive s n) as An by (by eapply prv_alive).
  unfold erase_node.
  apply returns_bind, returns_get_prev; [done|]. rewrite Hp.
  apply returns_bind, returns_get_next; [done|]. rewrite Hpn.
  apply returns_bind, returns_set_next; [done|].
  apply returns_bind, returns_get_next; [by rewrite alive_with_next|].
  rewrite nxt_with_next_ne, Hpn by done.
  apply returns_bind, returns_get_prev; [by rewrite alive_with_next|].
  rewrite prv_with_next, Hp.
  apply returns_bind, returns_set_prev; [by rewrite alive_with_next|].
  apply returns_bind, returns_set_next; [by rewrite alive_with_prev, alive_with_next|].
  apply returns_bind, returns_set_prev.
  { by rewrite alive_with_next, alive_with_prev, alive_with_next. }
  apply returns_bind. eapply returns_get_sz; [exact Hobj|]. cbn [sz].
  apply returns_bind. eapply returns_set_sz; [exact Hobj|].
  apply returns_ret.
  set (s' := with_sz _ _ _).
  assert (∀ z, nxt s' z = if decide (z = p) then None
                          else if decide (z = q) then Some n else nxt s z) as Hnxt.
  { intros z. subst s'. rewrite nxt_with_sz, nxt_with_prev.
    destruct (decide (z = p)) as [->|].
    - rewrite nxt_with_next_eq; [done|]. by rewrite alive_with_prev, alive_with_next.
    - rewrite nxt_with_next_ne, nxt_with_prev by done.
      destruct (decide (z = q)) as [->|].
      + by rewrite nxt_with_next_eq.
      + by rewrite nxt_with_next_ne. }
  assert (∀ z, prv s' z = if decide (z = p) then None
                          else if decide (z = n) then Some q else prv s z) as Hprv.
  { intros z. subst s'. rewrite prv_with_sz.
    destruct (decide (z = p)) as [->|].
    - rewrite prv_with_prev_eq; [done|].
      by rewrite alive_with_next, alive_with_prev, alive_with_next.
    - rewrite prv_with_prev_ne, prv_with_next by done.
      destruct (decide (z = n)) as [->|].
      + rewrite prv_with_prev_eq; [done|]. by rewrite alive_with_next.
      + by rewrite prv_with_prev_ne, prv_with_next. }
  assert (∀ z, z ∈ h :: ps1 ++ ps2 → z ≠ p) as Hne by (by intros z Hz ->).
  split_and!.
  - done.
  - split_and!.
    + subst s'. erewrite lists_with_sz_eq; [|exact Hobj]. cbn [head].
      do 3 f_equal. unfold wrap64.
      rewrite !length_app, length_cons, !Nat2Z.inj_add, Nat2Z.inj_succ.
      rewrite length_app, length_cons, Nat2Z.inj_add, Nat2Z.inj_succ in Hsz.
      rewrite Z.mod_small; lia.
    + done.
    + rewrite <- app_assoc. change (ps2 ++ [h]) with ([] ++ ps2 ++ [h]).
      eapply (cyc_surgery s s' h ps1 ps2 [p] []); fold q n.
      * done.
      * by rewrite <- app_assoc in Hc.
      * intros z Hz Hzq. rewrite Hnxt. rewrite decide_False.
        -- by rewrite decide_False.
        -- apply Hne. apply elem_of_cons in Hz as [->|Hz]; [left|].
           right. apply elem_of_app. by left.
      * intros z Hz. rewrite Hprv. rewrite decide_False.
        -- rewrite decide_False; [done|]. intros ->. by eapply nodup_sides_l.
        -- apply Hne. right. apply elem_of_app. by left.
      * intros z Hz. rewrite Hnxt. rewrite decide_False.
        -- rewrite decide_False; [done|]. intros ->. by eapply nodup_sides_r.
        -- apply Hne. right. apply elem_of_app. by right.
      * intros z Hz Hzn. rewrite Hprv. rewrite decide_False.
        -- by rewrite decide_False.
        -- apply Hne. apply elem_of_app in Hz as [Hz|Hz].
           ++ right. apply elem_of_app. by right.
           ++ apply list_elem_of_singleton in Hz as ->. left.
      * cbn [app]. rewrite chain_cons, Hnxt, Hprv.
        rewrite (decide_False (P := q = p)) by done.
        rewrite (decide_False (P := n = p)) by done.
        rewrite !decide_True by done. done.
    + rewrite length_app, length_cons, Nat2Z.inj_add, Nat2Z.inj_succ in Hsz.
      rewrite length_app, Nat2Z.inj_add. lia.
  - intros x. subst s'.
    by rewrite value_with_sz, value_with_prev, value_with_next, value_with_prev,
      value_with_next.
  - intros x. subst s'.
    by rewrite alive_with_sz, alive_with_prev, alive_with_next, alive_with_prev,
      alive_with_next.
  - rewrite Hnxt. by rewrite decide_True.
  - rewrite Hprv. by rewrite decide_True.
  - intros x Hx _. subst s'. unfold with_sz, upd_list. cbn [nodes].
    assert (x ≠ p).
    { intros ->. apply Hx. right. apply elem_of_app. right. left. }
    assert (x ≠ q).
    { intros ->. apply Hx. apply elem_of_cons in Hqin as [->|Hqin]; [left|].
      right. apply elem_of_app. by left. }
    assert (x ≠ n).
    { intros ->. apply Hx. apply elem_of_app in Hnin as [Hnin|Hnin].
      - right. apply elem_of_app. right. by right.
      - apply list_elem_of_singleton in Hnin as ->. left. }
    by rewrite nodes_with_prev_ne, nodes_with_next_ne, nodes_with_prev_ne,
      nodes_with_next_ne.
  - intros l Hl'. subst s'. rewrite lists_with_sz_ne; [done|].
    by apply not_elem_of_cons in Hl' as [? _].
Qed.

End links.

(** ** Exceptions and the state they leave *)

Section throwing.
Context {St : Type}.

Lemma no_throw_ret {A} (a : A) : no_throw (ret (St := St) a).
Proof. by intros s e s'. Qed.

Lemma no_throw_undef {A} : no_throw (undef (St := St) (A := A)).
Proof. by intros s e s'. Qed.

Lemma no_throw_bind {A B} (m : M St A) (k : A → M St B) :
  no_throw m → (∀ a, no_throw (k a)) → no_throw (x <- m;; k x).
Proof.
  intros Hm Hk s e s'. unfold bind.
  destruct (m s) as [a s1|e1 s1| |] eqn:E; try done.
  - apply Hk.
  - by destruct (Hm s e1 s1).
Qed.

Lemma no_throw_while {V} fuel (cond : V → M St bool) (body : V → M St V) v :
  (∀ v, no_throw (cond v)) → (∀ v, no_throw (body v)) →
  no_throw (while_ fuel cond body v).
Proof.
  intros Hc Hb. revert v. induction fuel as [|fuel IH]; intros v; [done|].
  simpl. apply no_throw_bind; [done|]. intros [].
  - apply no_throw_bind; done.
  - apply no_throw_ret.
Qed.

Lemma no_throw_arr_get {A} (a : list A) i : no_throw (arr_get (St := St) a i).
Proof.
  intros s e s'. unfold arr_get. destruct (i <? 0); [done|].
  by destruct (a !! Z.to_nat i).
Qed.

Lemma no_throw_arr_set {A} (a : list A) i x : no_throw (arr_set (St := St) a i x).
Proof. intros s e s'. unfold arr_set. by destruct (_ && _). Qed.

Lemma throws_unchanged_throw {A} e : throws_unchanged (throw (St := St) (A := A) e).
Proof. intros s e' s'. unfold throw. congruence. Qed.

Lemma throws_unchanged_no_throw {A} (m : M St A) : no_throw m → throws_unchanged m.
Proof. intros H s e s' E. by destruct (H s e s'). Qed.

(** Checks first: a reading prefix, then a computation that keeps the
    guarantee. *)
Lemma throws_unchanged_bind_read {A B} (m : M St A) (k : A → M St B) :
  reads_only m → throws_unchanged m → (∀ a, throws_unchanged (k a)) →
  throws_unchanged (x <- m;; k x).
Proof.
  intros Hr Hm Hk s e s'. unfold bind.
  destruct (m s) as [a s1|e1 s1| |] eqn:E; try done.
  - apply Hr in E as ->. apply Hk.
  - intros [= -> ->]. by eapply Hm.
Qed.

(** A guarded computation followed by steps that cannot throw. *)
Lemma throws_unchanged_bind_last {A B} (m : M St A) (k : A → M St B) :
  throws_unchanged m → (∀ a, no_throw (k a)) →
  throws_unchanged (x <- m;; k x).
Proof.
  intros Hm Hk s e s'. unfold bind.
  destruct (m s) as [a s1|e1 s1| |] eqn:E; try done.
  - intros E'. by destruct (Hk a s1 e s').
  - intros [= -> ->]. by eapply Hm.
Qed.

Lemma reads_only_ret {A} (a : A) : reads_only (ret (St := St) a).
Proof. intros s a' s'. unfold ret. congruence. Qed.

Lemma reads_only_bind {A B} (m : M St A) (k : A → M St B) :
  reads_only m → (∀ a, reads_only (k a)) → reads_only (x <- m;; k x).
Proof.
  intros Hm Hk s b s'. unfold bind.
  destruct (m s) as [a s1|e1 s1| |] eqn:E; try done.
  apply Hm in E as ->. apply Hk.
Qed.

Lemma leaves_of_returns {A} (m : M St A) (Q : A → St → Prop) (I : St → Prop) s :
  returns m Q s → (∀ a s', Q a s' → I s') → leaves m I s.
Proof. unfold returns, leaves. destruct (m s); naive_solver. Qed.

End throwing.

Section store_throwing.
Context {T : Type}.
Implicit Types (s : store T).

Lemma no_throw_load_node p : no_throw (load_node (T := T) p).
Proof.
  intros s e s'. unfold load_node. destruct p as [x|]; [|done].
  by destruct (nodes s !! x).
Qed.
Lemma reads_only_load_node p : reads_only (load_node (T := T) p).
Proof.
  intros s a s'. unfold load_node. destruct p as [x|]; [|done].
  destruct (nodes s !! x); congruence.
Qed.
Lemma no_throw_store_node p f : no_throw (store_node (T := T) p f).
Proof.
  intros s e s'. unfold store_node. destruct p as [x|]; [|done].
  by destruct (nodes s !! x).
Qed.
Lemma no_throw_load_list l : no_throw (load_list (T := T) l).
Proof. intros s e s'. unfold load_list. by destruct (lists s !! l). Qed.
Lemma reads_only_load_list l : reads_only (load_list (T := T) l).
Proof. intros s a s'. unfold load_list. destruct (lists s !! l); congruence. Qed.
Lemma no_throw_store_list l f : no_throw (store_list (T := T) l f).
Proof. intros s e s'. unfold store_list. by destruct (lists s !! l). Qed.

Lemma no_throw_get_prev p : no_throw (get_prev (T := T) p).
Proof. apply no_throw_bind; [apply no_throw_load_node|]. intros. apply no_throw_ret. Qed.
Lemma no_throw_get_next p : no_throw (get_next (T := T) p).
Proof. apply no_throw_bind; [apply no_throw_load_node|]. intros. apply no_throw_ret. Qed.
Lemma no_throw_set_prev p q : no_throw (set_prev (T := T) p q).
Proof. apply no_throw_store_node. Qed.
Lemma no_throw_set_next p q : no_throw (set_next (T := T) p q).
Proof. apply no_throw_store_node. Qed.
Lemma no_throw_deref_val p : no_throw (deref_val (T := T) p).
Proof.
  apply no_throw_bind; [apply no_throw_load_node|]. intros nd.
  destruct (val nd); [apply no_throw_ret|apply no_throw_undef].
Qed.
Lemma no_throw_new_node v : no_throw (new_node (T := T) v).
Proof. by intros s e s'. Qed.
Lemma no_throw_delete_node p : no_throw (delete_node (T := T) p).
Proof.
  intros s e s'. unfold delete_node. destruct p as [x|]; [|done].
  by destruct (nodes s !! x).
Qed.
Lemma no_throw_get_head l : no_throw (get_head (T := T) l).
Proof. apply no_throw_bind; [apply no_throw_load_list|]. intros. apply no_throw_ret. Qed.
Lemma no_throw_get_sz l : no_throw (get_sz (T := T) l).
Proof. apply no_throw_bind; [apply no_throw_load_list|]. intros. apply no_throw_ret. Qed.
Lemma no_throw_set_sz l n : no_throw (set_sz (T := T) l n).
Proof. apply no_throw_store_list. Qed.

Lemma reads_only_get_prev p : reads_only (get_prev (T := T) p).
Proof. apply reads_only_bind; [apply reads_only_load_node|]. intros. apply reads_only_ret. Qed.
Lemma reads_only_get_next p : reads_only (get_next (T := T) p).
Proof. apply reads_only_bind; [apply reads_only_load_node|]. intros. apply reads_only_ret. Qed.
Lemma reads_only_get_head l : reads_only (get_head (T := T) l).
Proof. apply reads_only_bind; [apply reads_only_load_list|]. intros. apply reads_only_ret. Qed.
Lemma reads_only_get_sz l : reads_only (get_sz (T := T) l).
Proof. apply reads_only_bind; [apply reads_only_load_list|]. intros. apply reads_only_ret. Qed.

Lemma no_throw_insert_node this pos cur : no_throw (insert_node (T := T) this pos cur).
Proof.
  unfold insert_node.
  repeat first
    [ apply no_throw_ret | apply no_throw_get_prev | apply no_throw_get_next
    | apply no_throw_set_prev | apply no_throw_set_next
    | apply no_throw_get_sz | apply no_throw_set_sz
    | apply no_throw_bind | intro ].
Qed.

Lemma no_throw_erase_node this pos : no_throw (erase_node (T := T) this pos).
Proof.
  unfold erase_node.
  repeat first
    [ apply no_throw_ret | apply no_throw_get_prev | apply no_throw_get_next
    | apply no_throw_set_prev | apply no_throw_set_next
    | apply no_throw_get_sz | apply no_throw_set_sz
    | apply no_throw_bind | intro ].
Qed.

End store_throwing.

(** ** The container operations *)

Section container.
Context {T : Type}.
Implicit Types (s : store T) (x y : loc) (xs ps : list loc).

Lemma nxt_eq_nodes s s' x : nodes s' !! x = nodes s !! x → nxt s' x = nxt s x.
Proof. unfold nxt. by intros ->. Qed.
Lemma prv_eq_nodes s s' x : nodes s' !! x = nodes s !! x → prv s' x = prv s x.
Proof. unfold prv. by intros ->. Qed.
Lemma value_eq_nodes s s' x :
  nodes s' !! x = nodes s !! x → value_at s' x = value_at s x.
Proof. unfold value_at. by intros ->. Qed.

Lemma in_removelast (xs : list loc) z : z ∈ removelast xs → z ∈ xs.
Proof.
  induction xs as [|a xs IH]; [done|].
  destruct xs as [|b r]; [cbn; by rewrite elem_of_nil|].
  change (removelast (a :: b :: r)) with (a :: removelast (b :: r)).
  rewrite !(elem_of_cons _ z a). intros [->|H]; [by left|]. right. by apply IH.
Qed.

Lemma in_tail (xs : list loc) z : z ∈ tail xs → z ∈ xs.
Proof. destruct xs; [done|]. cbn. by right. Qed.

Lemma chain_frame_nodes s s' xs :
  chain s xs → (∀ x, x ∈ xs → nodes s' !! x = nodes s !! x) → chain s' xs.
Proof.
  intros Hc H. eapply chain_frame; [done| |].
  - intros z Hz. apply nxt_eq_nodes, H. by apply in_removelast.
  - intros z Hz. apply prv_eq_nodes, H. by apply in_tail.
Qed.

Lemma is_list_frame s s' l h ps :
  is_list s l h ps →
  (∀ x, x ∈ h :: ps → nodes s' !! x = nodes s !! x) →
  lists s' !! l = lists s !! l →
  is_list s' l h ps.
Proof.
  intros (Hobj & Hnd & Hc & Hsz) Hn Hl. split_and!; try done.
  - by rewrite Hl.
  - eapply chain_frame_nodes; [done|]. intros x Hx. apply Hn.
    rewrite app_comm_cons in Hx. apply elem_of_app in Hx as [Hx|Hx]; [done|].
    apply list_elem_of_singleton in Hx as ->. left.
Qed.

Lemma values_frame s s' ps (vs : list T) :
  values s ps vs → (∀ x, x ∈ ps → value_at s' x = value_at s x) →
  values s' ps vs.
Proof.
  unfold values. intros Hv H. induction Hv as [|p v ps vs Hp Hv IH]; [constructor|].
  constructor.
  - rewrite H; [done|left].
  - apply IH. intros x Hx. apply H. by right.
Qed.

Lemma values_length s ps (vs : list T) : values s ps vs → length ps = length vs.
Proof. apply Forall2_length. Qed.

(** The two ends of the chain, as the sentinel sees them. *)
Lemma nxt_sentinel s this h ps :
  is_list s this h ps → nxt s h = Some (default h (ps !! 0%nat)).
Proof.
  intros (_ & _ & Hc & _).
  pose proof (cyc_middle s h [] [] ps Hc) as Hm. by apply chain_cons in Hm as (? & _).
Qed.

Lemma prv_sentinel s this h ps :
  is_list s this h ps → prv s h = Some (default h (last ps)).
Proof.
  intros (_ & _ & Hc & _).
  pose proof (cyc_middle s h ps [] []) as Hm. cbn [app default lookup] in Hm.
  apply Hm in Hc. by apply chain_cons in Hc as (_ & ? & _).
Qed.

Lemma is_list_lookup s this h ps :
  is_list s this h ps →
  lists s !! this = Some (ListObj (Some h) (Z.of_nat (length ps))).
Proof. by intros (? & _). Qed.

Lemma is_list_fresh s this h ps x : is_list s this h ps → ¬ alive s x → x ∉ h :: ps.
Proof. intros Hl Hx Hin. apply Hx. by eapply is_list_alive. Qed.

Lemma bool_decide_ne_refl (a : pointer) : bool_decide (a ≠ a) = false.
Proof. by apply bool_decide_eq_false_2; intros H. Qed.
Lemma bool_decide_some_none (x : loc) : bool_decide (Some x = @None loc) = false.
Proof. by apply bool_decide_eq_false_2. Qed.

(** *** The default constructor *)

Lemma list_ctor_spec s :
  returns list_ctor
    (λ this s', lists s !! this = None ∧
       ∃ h, ¬ alive s h ∧ is_list s' this h [] ∧
            same_nodes_outside s s' [] ∧ same_lists_except s s' [this]) s.
Proof.
  unfold list_ctor.
  apply returns_bind, returns_new_node. intros h Hh.
  apply returns_bind, returns_get.
  apply returns_bind, returns_put.
  set (this := fresh (dom (lists _))). cbn [lists nodes] in *.
  set (s2 := Store _ _).
  assert (lists s !! this = None) as Hthis.
  { apply not_elem_of_dom. apply is_fresh. }
  assert (alive s2 h) as Ah.
  { unfold alive. subst s2. cbn. rewrite lookup_insert_eq. by eexists. }
  assert (lists s2 !! this = Some (ListObj (Some h) 0)) as Hobj.
  { subst s2. cbn. by rewrite lookup_insert_eq. }
  apply returns_bind, returns_set_prev; [done|].
  apply returns_bind, returns_set_next; [by rewrite alive_with_prev|].
  apply returns_bind. eapply returns_set_sz; [exact Hobj|].
  apply returns_ret. split; [done|]. exists h. split_and!.
  - done.
  - split_and!.
    + rewrite (lists_with_sz_eq _ _ _ (ListObj (Some h) 0)); [done|exact Hobj].
    + apply NoDup_singleton.
    + cbn [app]. rewrite chain_cons, nxt_with_sz, prv_with_sz, prv_with_next.
      rewrite nxt_with_next_eq by (by rewrite alive_with_prev).
      by rewrite prv_with_prev_eq.
    + done.
  - intros x _ Hx. unfold with_sz, upd_list. cbn [nodes].
    assert (x ≠ h) by (by intros ->).
    rewrite nodes_with_next_ne, nodes_with_prev_ne by done.
    subst s2. cbn. by rewrite lookup_insert_ne.
  - intros l Hl. rewrite lists_with_sz_ne by (by apply not_elem_of_cons in Hl as [? _]).
    subst s2. cbn. rewrite lookup_insert_ne; [done|].
    by apply not_elem_of_cons in Hl as [? _].
Qed.

(** *** insert *)

Lemma insert_spec s this h ps1 ps2 (v : T) :
  is_list s this h (ps1 ++ ps2) →
  Z.of_nat (length (ps1 ++ ps2)) + 1 < 2 ^ 64 →
  returns (insert this (Iterator (Some this) (Some (default h (ps2 !! 0%nat)))) v)
    (λ it s', ∃ cur, ¬ alive s cur ∧
       it = Iterator (Some this) (Some cur) ∧
       is_list s' this h (ps1 ++ cur :: ps2) ∧
       value_at s' cur = Some v ∧
       (∀ x, alive s x → value_at s' x = value_at s x) ∧
       same_nodes_outside s s' (h :: ps1 ++ ps2) ∧
       same_lists_except s s' [this]) s.
Proof.
  intros Hl Hsz. unfold insert. cbn [owner ptr].
  rewrite bool_decide_ne_refl, bool_decide_some_none. cbn [orb].
  apply returns_bind, returns_new_node. intros cur Hcur.
  set (s1 := Store _ _).
  assert (∀ x, x ≠ cur → nodes s1 !! x = nodes s !! x) as Hs1.
  { intros x Hx. subst s1. cbn. by rewrite lookup_insert_ne. }
  assert (cur ∉ h :: ps1 ++ ps2) as Hout by (by eapply is_list_fresh).
  assert (is_list s1 this h (ps1 ++ ps2)) as Hl1.
  { eapply is_list_frame; [done| |done]. intros x Hx. apply Hs1. by intros ->. }
  assert (alive s1 cur) as Acur.
  { unfold alive. subst s1. cbn. rewrite lookup_insert_eq. by eexists. }
  apply returns_bind.
  eapply returns_mono; [by apply insert_node_spec|].
  intros r s' (-> & Hl' & Hv & Ha & Hn & Hls). apply returns_ret.
  exists cur. split_and!; try done.
  - rewrite Hv. unfold value_at. subst s1. cbn. by rewrite lookup_insert_eq.
  - intros x Hx. rewrite Hv. apply value_eq_nodes, Hs1. by intros ->.
  - intros x Hx Ax. assert (x ≠ cur) by (by intros ->).
    rewrite Hn.
    + by apply Hs1.
    + by apply not_elem_of_cons.
    + unfold alive. rewrite Hs1 by done. done.
Qed.

Lemma insert_throws s this pos (v : T) :
  owner pos ≠ Some this ∨ ptr pos = None →
  insert this pos v s = Throw invalid_iterator s.
Proof.
  intros H. unfold insert.
  destruct (bool_decide (owner pos ≠ Some this)) eqn:E1; [done|].
  destruct (bool_decide (ptr pos = None)) eqn:E2; [done|].
  apply bool_decide_eq_false in E1, E2. destruct H; [|done].
  destruct E1. done.
Qed.

(** *** erase *)

Lemma length_mid_pos {A} (l1 : list A) a l2 :
  (Z.of_nat (length (l1 ++ a :: l2)) =? 0) = false.
Proof. rewrite length_app, length_cons. apply Z.eqb_neq. lia. Qed.

Lemma erase_spec s this h ps1 p ps2 :
  is_list s this h (ps1 ++ p :: ps2) →
  returns (erase this (Iterator (Some this) (Some p)))
    (λ it s',
       it = Iterator (Some this) (Some (default h (ps2 !! 0%nat))) ∧
       is_list s' this h (ps1 ++ ps2) ∧
       ¬ alive s' p ∧
       (∀ x, x ≠ p → value_at s' x = value_at s x) ∧
       same_nodes_outside s s' (h :: ps1 ++ p :: ps2) ∧
       same_lists_except s s' [this]) s.
Proof.
  intros Hl. pose proof Hl as (Hobj & Hnd & Hc & Hsz).
  unfold erase.
  apply returns_bind. eapply returns_get_sz; [exact Hobj|]. cbn [sz].
  rewrite length_mid_pos.
  apply returns_bind. eapply returns_get_head; [exact Hobj|]. cbn [owner ptr head].
  apply nodup_remove_mid in Hnd as [Hnd Hpout].
  assert (p ≠ h) as Hph by (intros ->; apply Hpout; left).
  rewrite bool_decide_ne_refl, bool_decide_some_none.
  rewrite (bool_decide_eq_false_2 (Some p = Some h)) by congruence. cbn [orb].
  assert (chain s [default h (last ps1); p; default h (ps2 !! 0%nat)]) as Hm.
  { apply (cyc_middle s h ps1 [p] ps2). by rewrite <- app_assoc in Hc. }
  apply chain_cons in Hm as (Hq & Hp & Hm). apply chain_cons in Hm as (Hpn & _).
  apply returns_bind, returns_get_next; [by eapply nxt_alive|]. rewrite Hpn.
  apply returns_bind.
  eapply returns_mono; [by apply erase_node_spec|].
  intros r s1 (-> & Hl1 & Hv & Ha & _ & _ & Hn & Hls).
  apply returns_bind, returns_delete_node.
  { apply Ha. by eapply nxt_alive. }
  apply returns_ret.
  set (s2 := Store _ _).
  assert (∀ x, x ≠ p → nodes s2 !! x = nodes s1 !! x) as Hs2.
  { intros x Hx. subst s2. cbn. by rewrite lookup_delete_ne. }
  split_and!; try done.
  - eapply is_list_frame; [done| |done]. intros x Hx. apply Hs2. by intros ->.
  - unfold alive. subst s2. cbn. rewrite lookup_delete_eq. by intros [? ?].
  - intros x Hx. rewrite <- Hv. by apply value_eq_nodes, Hs2.
  - intros x Hx Ax. rewrite <- Hn by done. apply Hs2. intros ->. apply Hx.
    right. apply elem_of_app. right. left.
Qed.



End container.

(** ** The wrappers around insert and erase, and the accessors *)

Section wrappers.
Context {T : Type}.
Implicit Types (s : store T) (x y : loc) (xs ps : list loc).

Lemma push_back_spec s this h ps (v : T) :
  is_list s this h ps →
  Z.of_nat (length ps) + 1 < 2 ^ 64 →
  returns (push_back this v)
    (λ _ s', ∃ cur, ¬ alive s cur ∧
       is_list s' this h (ps ++ [cur]) ∧
       value_at s' cur = Some v ∧
       (∀ x, alive s x → value_at s' x = value_at s x) ∧
       same_nodes_outside s s' (h :: ps) ∧
       same_lists_except s s' [this]) s.
Proof.
  intros Hl Hsz. unfold push_back.
  apply returns_bind. eapply returns_get_head; [by eapply is_list_lookup|]. cbn [head].
  apply returns_bind.
  rewrite <- (app_nil_r ps) in Hl, Hsz.
  eapply returns_mono; [by apply (insert_spec s this h ps [] v)|].
  intros it s' (cur & ? & _ & ? & ? & ? & Hn & ?). apply returns_ret.
  rewrite app_nil_r in Hn. by exists cur.
Qed.

Lemma push_front_spec s this h ps (v : T) :
  is_list s this h ps →
  Z.of_nat (length ps) + 1 < 2 ^ 64 →
  returns (push_front this v)
    (λ _ s', ∃ cur, ¬ alive s cur ∧
       is_list s' this h (cur :: ps) ∧
       value_at s' cur = Some v ∧
       (∀ x, alive s x → value_at s' x = value_at s x) ∧
       same_nodes_outside s s' (h :: ps) ∧
       same_lists_except s s' [this]) s.
Proof.
  intros Hl Hsz. unfold push_front.
  apply returns_bind. eapply returns_get_head; [by eapply is_list_lookup|]. cbn [head].
  apply returns_bind, returns_get_next.
  { eapply is_list_alive; [done|left]. }
  erewrite nxt_sentinel by done.
  apply returns_bind.
  eapply returns_mono; [by apply (insert_spec s this h [] ps v)|].
  intros it s' (cur & ? & _ & ? & ? & ? & Hn & ?). apply returns_ret.
  by exists cur.
Qed.

Lemma pop_back_spec s this h ps p :
  is_list s this h (ps ++ [p]) →
  returns (pop_back this)
    (λ _ s', is_list s' this h ps ∧ ¬ alive s' p ∧
       (∀ x, x ≠ p → value_at s' x = value_at s x) ∧
       same_nodes_outside s s' (h :: ps ++ [p]) ∧
       same_lists_except s s' [this]) s.
Proof.
  intros Hl. unfold pop_back.
  apply returns_bind. eapply returns_get_sz; [by eapply is_list_lookup|]. cbn [sz].
  rewrite length_mid_pos.
  apply returns_bind. eapply returns_get_head; [by eapply is_list_lookup|]. cbn [head].
  apply returns_bind, returns_get_prev.
  { eapply is_list_alive; [done|left]. }
  erewrite prv_sentinel by done. rewrite last_snoc. cbn [default].
  apply returns_bind.
  eapply returns_mono; [by apply (erase_spec s this h ps p [])|].
  intros it s' (_ & Hl' & ? & ? & ? & ?). apply returns_ret.
  rewrite app_nil_r in Hl'. done.
Qed.

Lemma pop_front_spec s this h ps p :
  is_list s this h (p :: ps) →
  returns (pop_front this)
    (λ _ s', is_list s' this h ps ∧ ¬ alive s' p ∧
       (∀ x, x ≠ p → value_at s' x = value_at s x) ∧
       same_nodes_outside s s' (h :: p :: ps) ∧
       same_lists_except s s' [this]) s.
Proof.
  intros Hl. unfold pop_front.
  apply returns_bind. eapply returns_get_sz; [by eapply is_list_lookup|]. cbn [sz].
  change (p :: ps) with ([] ++ p :: ps) at 1; rewrite (length_mid_pos [] p ps).
  apply returns_bind. eapply returns_get_head; [by eapply is_list_lookup|]. cbn [head].
  apply returns_bind, returns_get_next.
  { eapply is_list_alive; [done|left]. }
  erewrite nxt_sentinel by done. cbn [lookup default].
  apply returns_bind.
  eapply returns_mono; [by apply (erase_spec s this h [] p ps)|].
  intros it s' (_ & Hl' & ? & ? & ? & ?). by apply returns_ret.
Qed.

Lemma pop_back_empty s this (h : pointer) :
  lists s !! this = Some (ListObj h 0) →
  pop_back this s = Throw container_is_empty s.
Proof. intros H. unfold pop_back, bind, get_sz, bind, load_list, ret. by rewrite H. Qed.

Lemma pop_front_empty s this (h : pointer) :
  lists s !! this = Some (ListObj h 0) →
  pop_front this s = Throw container_is_empty s.
Proof. intros H. unfold pop_front, bind, get_sz, bind, load_list, ret. by rewrite H. Qed.

Lemma front_empty s this (h : pointer) :
  lists s !! this = Some (ListObj h 0) →
  front this s = Throw container_is_empty s.
Proof. intros H. unfold front, bind, get_sz, bind, load_list, ret. by rewrite H. Qed.

Lemma back_empty s this (h : pointer) :
  lists s !! this = Some (ListObj h 0) →
  back this s = Throw container_is_empty s.
Proof. intros H. unfold back, bind, get_sz, bind, load_list, ret. by rewrite H. Qed.

Lemma front_spec s this h ps p (v : T) :
  is_list s this h (p :: ps) → value_at s p = Some v →
  front this s = Ret v s.
Proof.
  intros Hl Hv.
  assert (returns (front this) (λ r s', r = v ∧ s' = s) s) as H.
  { unfold front.
    apply returns_bind. eapply returns_get_sz; [by eapply is_list_lookup|]. cbn [sz].
    change (p :: ps) with ([] ++ p :: ps) at 1; rewrite (length_mid_pos [] p ps).
    apply returns_bind. eapply returns_get_head; [by eapply is_list_lookup|]. cbn [head].
    apply returns_bind, returns_get_next.
    { eapply is_list_alive; [done|left]. }
    erewrite nxt_sentinel by done. cbn [lookup default].
    by eapply returns_deref_val. }
  apply returns_eq in H as (? & ? & -> & -> & ->). done.
Qed.

Lemma back_spec s this h ps p (v : T) :
  is_list s this h (ps ++ [p]) → value_at s p = Some v →
  back this s = Ret v s.
Proof.
  intros Hl Hv.
  assert (returns (back this) (λ r s', r = v ∧ s' = s) s) as H.
  { unfold back.
    apply returns_bind. eapply returns_get_sz; [by eapply is_list_lookup|]. cbn [sz].
    rewrite length_mid_pos.
    apply returns_bind. eapply returns_get_head; [by eapply is_list_lookup|]. cbn [head].
    apply returns_bind, returns_get_prev.
    { eapply is_list_alive; [done|left]. }
    erewrite prv_sentinel by done. rewrite last_snoc. cbn [default].
    by eapply returns_deref_val. }
  apply returns_eq in H as (? & ? & -> & -> & ->). done.
Qed.

Lemma begin_spec s this h ps :
  is_list s this h ps →
  begin_ this s = Ret (Iterator (Some this) (Some (default h (ps !! 0%nat)))) s.
Proof.
  intros Hl.
  assert (returns (begin_ this)
            (λ r s', r = Iterator (Some this) (Some (default h (ps !! 0%nat))) ∧ s' = s) s) as H.
  { unfold begin_.
    apply returns_bind. eapply returns_get_head; [by eapply is_list_lookup|]. cbn [head].
    apply returns_bind, returns_get_next.
    { eapply is_list_alive; [done|left]. }
    erewrite nxt_sentinel by done. by apply returns_ret. }
  apply returns_eq in H as (? & ? & -> & -> & ->). done.
Qed.

Lemma end_spec s this h ps :
  is_list s this h ps →
  end_ this s = Ret (Iterator (Some this) (Some h)) s.
Proof.
  intros Hl. unfold end_, bind, get_head, bind, load_list, ret.
  by erewrite is_list_lookup by done.
Qed.

Lemma size_spec s this h ps :
  is_list s this h ps → size this s = Ret (Z.of_nat (length ps)) s.
Proof.
  intros Hl. unfold size, get_sz, bind, load_list, ret.
  by erewrite is_list_lookup by done.
Qed.

Lemma empty_spec s this h ps :
  is_list s this h ps → empty this s = Ret (bool_decide (ps = [])) s.
Proof.
  intros Hl. unfold empty, get_sz, bind, load_list, ret.
  erewrite is_list_lookup by done. cbn [sz]. f_equal.
  destruct ps; [done|]. cbn [length]. rewrite bool_decide_eq_false_2 by done.
  apply Z.eqb_neq. lia.
Qed.

End wrappers.

(** ** Iterators *)

Section iterators.
Context {T : Type}.
Implicit Types (s : store T) (x y : loc) (xs ps : list loc) (it : iterator).

Lemma no_throw_on_store {A} (m : M (store T) A) : no_throw m → no_throw (on_store m).
Proof.
  intros H [it s] e [it' s']. unfold on_store.
  destruct (m s) as [a s1|e1 s1| |] eqn:E; try done. by destruct (H s e1 s1).
Qed.
Lemma reads_only_on_store {A} (m : M (store T) A) : reads_only m → reads_only (on_store m).
Proof.
  intros H [it s] a [it' s']. unfold on_store.
  destruct (m s) as [a1 s1|e1 s1| |] eqn:E; try done.
  apply H in E as ->. congruence.
Qed.
Lemma no_throw_self : no_throw (self (T := T)).
Proof. by intros [it s] e s'. Qed.
Lemma reads_only_self : reads_only (self (T := T)).
Proof. intros [it s] a s'. unfold self. congruence. Qed.
Lemma no_throw_set_ptr p : no_throw (set_ptr (T := T) p).
Proof. by intros [it s] e s'. Qed.

Lemma no_throw_at_sentinel_or_null : no_throw (at_sentinel_or_null (T := T)).
Proof.
  unfold at_sentinel_or_null. apply no_throw_bind; [apply no_throw_self|].
  intros it. destruct (owner it), (ptr it); try apply no_throw_ret.
  apply no_throw_bind; [apply no_throw_on_store, no_throw_get_head|].
  intros. apply no_throw_ret.
Qed.
Lemma reads_only_at_sentinel_or_null : reads_only (at_sentinel_or_null (T := T)).
Proof.
  unfold at_sentinel_or_null. apply reads_only_bind; [apply reads_only_self|].
  intros it. destruct (owner it), (ptr it); try apply reads_only_ret.
  apply reads_only_bind; [apply reads_only_on_store, reads_only_get_head|].
  intros. apply reads_only_ret.
Qed.

Lemma throws_unchanged_check_decr : throws_unchanged (check_decr (T := T)).
Proof.
  unfold check_decr.
  apply throws_unchanged_bind_read;
    [apply reads_only_self|apply throws_unchanged_no_throw, no_throw_self|].
  intros it. destruct (owner it), (ptr it); try apply throws_unchanged_throw.
  apply throws_unchanged_bind_read;
    [apply reads_only_on_store, reads_only_get_sz
    |apply throws_unchanged_no_throw, no_throw_on_store, no_throw_get_sz|].
  intros n. destruct (n =? 0); [apply throws_unchanged_throw|].
  apply throws_unchanged_bind_read;
    [apply reads_only_on_store, reads_only_get_prev
    |apply throws_unchanged_no_throw, no_throw_on_store, no_throw_get_prev|].
  intros pp.
  apply throws_unchanged_bind_read;
    [apply reads_only_on_store, reads_only_get_head
    |apply throws_unchanged_no_throw, no_throw_on_store, no_throw_get_head|].
  intros h. destruct (bool_decide _); [apply throws_unchanged_throw|].
  apply throws_unchanged_no_throw, no_throw_ret.
Qed.

Lemma throws_unchanged_pre_incr : throws_unchanged (pre_incr (T := T)).
Proof.
  unfold pre_incr.
  apply throws_unchanged_bind_read;
    [apply reads_only_at_sentinel_or_null
    |apply throws_unchanged_no_throw, no_throw_at_sentinel_or_null|].
  intros []; [apply throws_unchanged_throw|].
  apply throws_unchanged_no_throw.
  apply no_throw_bind; [apply no_throw_self|]. intros it.
  apply no_throw_bind; [apply no_throw_on_store, no_throw_get_next|]. intros n.
  apply no_throw_set_ptr.
Qed.

Lemma throws_unchanged_post_incr : throws_unchanged (post_incr (T := T)).
Proof.
  unfold post_incr.
  apply throws_unchanged_bind_read;
    [apply reads_only_at_sentinel_or_null
    |apply throws_unchanged_no_throw, no_throw_at_sentinel_or_null|].
  intros []; [apply throws_unchanged_throw|].
  apply throws_unchanged_no_throw.
  apply no_throw_bind; [apply no_throw_self|]. intros it.
  apply no_throw_bind; [apply no_throw_on_store, no_throw_get_next|]. intros n.
  apply no_throw_bind; [apply no_throw_set_ptr|]. intros. apply no_throw_ret.
Qed.

Lemma throws_unchanged_pre_decr : throws_unchanged (pre_decr (T := T)).
Proof.
  unfold pre_decr.
  apply throws_unchanged_bind_last; [apply throws_unchanged_check_decr|]. intros _.
  apply no_throw_bind; [apply no_throw_self|]. intros it.
  apply no_throw_bind; [apply no_throw_on_store, no_throw_get_prev|]. intros n.
  apply no_throw_set_ptr.
Qed.

Lemma throws_unchanged_post_decr : throws_unchanged (post_decr (T := T)).
Proof.
  unfold post_decr.
  apply throws_unchanged_bind_last; [apply throws_unchanged_check_decr|]. intros _.
  apply no_throw_bind; [apply no_throw_self|]. intros it.
  apply no_throw_bind; [apply no_throw_on_store, no_throw_get_prev|]. intros n.
  apply no_throw_bind; [apply no_throw_set_ptr|]. intros. apply no_throw_ret.
Qed.

Lemma throws_unchanged_deref : throws_unchanged (deref (T := T)).
Proof.
  unfold deref.
  apply throws_unchanged_bind_read;
    [apply reads_only_at_sentinel_or_null
    |apply throws_unchanged_no_throw, no_throw_at_sentinel_or_null|].
  intros []; [apply throws_unchanged_throw|].
  apply throws_unchanged_no_throw.
  apply no_throw_bind; [apply no_throw_self|]. intros it.
  apply no_throw_on_store, no_throw_deref_val.
Qed.

Lemma throws_unchanged_arrow : throws_unchanged (arrow (T := T)).
Proof.
  unfold arrow.
  apply throws_unchanged_bind_read;
    [apply reads_only_at_sentinel_or_null
    |apply throws_unchanged_no_throw, no_throw_at_sentinel_or_null|].
  intros []; [apply throws_unchanged_throw|].
  apply throws_unchanged_no_throw.
  apply no_throw_bind; [apply no_throw_self|]. intros it.
  apply no_throw_bind; [apply no_throw_on_store, no_throw_load_node|]. intros.
  apply no_throw_ret.
Qed.

(** *** The container operations that can fail *)

Lemma throws_unchanged_insert this pos (v : T) : throws_unchanged (insert this pos v).
Proof.
  unfold insert. destruct (_ || _); [apply throws_unchanged_throw|].
  apply throws_unchanged_no_throw.
  apply no_throw_bind; [apply no_throw_new_node|]. intros cur.
  apply no_throw_bind; [apply no_throw_insert_node|]. intros. apply no_throw_ret.
Qed.

Lemma throws_unchanged_erase this pos : throws_unchanged (erase (T := T) this pos).
Proof.
  unfold erase.
  apply throws_unchanged_bind_read;
    [apply reads_only_get_sz|apply throws_unchanged_no_throw, no_throw_get_sz|].
  intros n. destruct (n =? 0); [apply throws_unchanged_throw|].
  apply throws_unchanged_bind_read;
    [apply reads_only_get_head|apply throws_unchanged_no_throw, no_throw_get_head|].
  intros h. destruct (_ || _); [apply throws_unchanged_throw|].
  apply throws_unchanged_no_throw.
  apply no_throw_bind; [apply no_throw_get_next|]. intros nx.
  apply no_throw_bind; [apply no_throw_erase_node|]. intros rm.
  apply no_throw_bind; [apply no_throw_delete_node|]. intros. apply no_throw_ret.
Qed.

Lemma throws_unchanged_front this : throws_unchanged (front (T := T) this).
Proof.
  unfold front.
  apply throws_unchanged_bind_read;
    [apply reads_only_get_sz|apply throws_unchanged_no_throw, no_throw_get_sz|].
  intros n. destruct (n =? 0); [apply throws_unchanged_throw|].
  apply throws_unchanged_no_throw.
  apply no_throw_bind; [apply no_throw_get_head|]. intros h.
  apply no_throw_bind; [apply no_throw_get_next|]. intros f.
  apply no_throw_deref_val.
Qed.

Lemma throws_unchanged_back this : throws_unchanged (back (T := T) this).
Proof.
  unfold back.
  apply throws_unchanged_bind_read;
    [apply reads_only_get_sz|apply throws_unchanged_no_throw, no_throw_get_sz|].
  intros n. destruct (n =? 0); [apply throws_unchanged_throw|].
  apply throws_unchanged_no_throw.
  apply no_throw_bind; [apply no_throw_get_head|]. intros h.
  apply no_throw_bind; [apply no_throw_get_prev|]. intros f.
  apply no_throw_deref_val.
Qed.

Lemma throws_unchanged_pop_back this : throws_unchanged (pop_back (T := T) this).
Proof.
  unfold pop_back.
  apply throws_unchanged_bind_read;
    [apply reads_only_get_sz|apply throws_unchanged_no_throw, no_throw_get_sz|].
  intros n. destruct (n =? 0); [apply throws_unchanged_throw|].
  apply throws_unchanged_bind_read;
    [apply reads_only_get_head|apply throws_unchanged_no_throw, no_throw_get_head|].
  intros h.
  apply throws_unchanged_bind_read;
    [apply reads_only_get_prev|apply throws_unchanged_no_throw, no_throw_get_prev|].
  intros b.
  apply throws_unchanged_bind_last; [apply throws_unchanged_erase|].
  intros. apply no_throw_ret.
Qed.

Lemma throws_unchanged_pop_front this : throws_unchanged (pop_front (T := T) this).
Proof.
  unfold pop_front.
  apply throws_unchanged_bind_read;
    [apply reads_only_get_sz|apply throws_unchanged_no_throw, no_throw_get_sz|].
  intros n. destruct (n =? 0); [apply throws_unchanged_throw|].
  apply throws_unchanged_bind_read;
    [apply reads_only_get_head|apply throws_unchanged_no_throw, no_throw_get_head|].
  intros h.
  apply throws_unchanged_bind_read;
    [apply reads_only_get_next|apply throws_unchanged_no_throw, no_throw_get_next|].
  intros b.
  apply throws_unchanged_bind_last; [apply throws_unchanged_erase|].
  intros. apply no_throw_ret.
Qed.

(** *** Stepping and dereferencing inside a list *)

Lemma returns_on_store {A} (m : M (store T) A) (Q : A → iterator * store T → Prop) it s :
  returns m (λ a s', Q a (it, s')) s → returns (on_store m) Q (it, s).
Proof. unfold returns, on_store. by destruct (m s). Qed.

Lemma at_sentinel_or_null_spec s this (h : pointer) n x :
  lists s !! this = Some (ListObj h n) →
  at_sentinel_or_null (Iterator (Some this) (Some x), s)
  = Ret (bool_decide (Some x = h)) (Iterator (Some this) (Some x), s).
Proof.
  intros H. unfold at_sentinel_or_null, bind, self, on_store, get_head, bind,
    load_list, ret. cbn. by rewrite H.
Qed.

Lemma pre_incr_spec s this h ps1 x ps2 :
  is_list s this h (ps1 ++ x :: ps2) →
  pre_incr (Iterator (Some this) (Some x), s)
  = Ret tt (Iterator (Some this) (Some (default h (ps2 !! 0%nat))), s).
Proof.
  intros Hl. pose proof Hl as (Hobj & Hnd & Hc & _).
  apply nodup_remove_mid in Hnd as [Hnd Hx].
  assert (chain s [default h (last ps1); x; default h (ps2 !! 0%nat)]) as Hm.
  { apply (cyc_middle s h ps1 [x] ps2). by rewrite <- app_assoc in Hc. }
  apply chain_cons in Hm as (_ & _ & Hm). apply chain_cons in Hm as (Hxn & _).
  unfold pre_incr, bind. erewrite at_sentinel_or_null_spec by done.
  rewrite bool_decide_eq_false_2.
  2:{ intros [= ->]. apply Hx. left. }
  unfold self, on_store, get_next, bind, load_node, ret, set_ptr. cbn.
  unfold nxt in Hxn. destruct (nodes s !! x) as [nd|]; [|done].
  cbn in Hxn. by rewrite Hxn.
Qed.

Lemma post_incr_spec s this h ps1 x ps2 :
  is_list s this h (ps1 ++ x :: ps2) →
  post_incr (Iterator (Some this) (Some x), s)
  = Ret (Iterator (Some this) (Some x))
        (Iterator (Some this) (Some (default h (ps2 !! 0%nat))), s).
Proof.
  intros Hl. pose proof Hl as (Hobj & Hnd & Hc & _).
  apply nodup_remove_mid in Hnd as [Hnd Hx].
  assert (chain s [default h (last ps1); x; default h (ps2 !! 0%nat)]) as Hm.
  { apply (cyc_middle s h ps1 [x] ps2). by rewrite <- app_assoc in Hc. }
  apply chain_cons in Hm as (_ & _ & Hm). apply chain_cons in Hm as (Hxn & _).
  unfold post_incr, bind. erewrite at_sentinel_or_null_spec by done.
  rewrite bool_decide_eq_false_2.
  2:{ intros [= ->]. apply Hx. left. }
  unfold self, on_store, get_next, bind, load_node, ret, set_ptr. cbn.
  unfold nxt in Hxn. destruct (nodes s !! x) as [nd|]; [|done].
  cbn in Hxn. by rewrite Hxn.
Qed.

Lemma incr_at_end s this (h : pointer) n :
  lists s !! this = Some (ListObj h n) →
  pre_incr (Iterator (Some this) h, s)
    = Throw invalid_iterator (Iterator (Some this) h, s) ∧
  post_incr (Iterator (Some this) h, s)
    = Throw invalid_iterator (Iterator (Some this) h, s) ∧
  deref (Iterator (Some this) h, s)
    = Throw invalid_iterator (Iterator (Some this) h, s) ∧
  arrow (Iterator (Some this) h, s)
    = Throw invalid_iterator (Iterator (Some this) h, s).
Proof.
  intros H. unfold pre_incr, post_incr, deref, arrow, bind.
  destruct h as [x|].
  - erewrite at_sentinel_or_null_spec by done.
    by rewrite bool_decide_eq_true_2.
  - done.
Qed.

Lemma deref_spec s this h ps x (v : T) :
  is_list s this h ps → x ∈ ps → value_at s x = Some v →
  deref (Iterator (Some this) (Some x), s) = Ret v (Iterator (Some this) (Some x), s).
Proof.
  intros Hl Hx Hv. pose proof Hl as (Hobj & Hnd & _).
  unfold deref, bind. erewrite at_sentinel_or_null_spec by done.
  rewrite bool_decide_eq_false_2.
  2:{ intros [= ->]. by apply NoDup_cons in Hnd as [? _]. }
  unfold self, on_store, deref_val, bind, load_node, ret. cbn.
  unfold value_at in Hv. destruct (nodes s !! x) as [nd|]; [|done].
  cbn in Hv. by rewrite Hv.
Qed.

Lemma arrow_spec s this h ps x (v : T) :
  is_list s this h ps → x ∈ ps → value_at s x = Some v →
  arrow (Iterator (Some this) (Some x), s)
  = Ret (Some v) (Iterator (Some this) (Some x), s).
Proof.
  intros Hl Hx Hv. pose proof Hl as (Hobj & Hnd & _).
  unfold arrow, bind. erewrite at_sentinel_or_null_spec by done.
  rewrite bool_decide_eq_false_2.
  2:{ intros [= ->]. by apply NoDup_cons in Hnd as [? _]. }
  unfold self, on_store, bind, load_node, ret. cbn.
  unfold value_at in Hv. destruct (nodes s !! x) as [nd|]; [|done].
  cbn in Hv. by rewrite Hv.
Qed.

(** Stepping back from the position in front of [ps2] (the sentinel when
    [ps2] is empty), with [p] the element before it. *)
Lemma check_decr_spec s this h ps1 p ps2 :
  is_list s this h (ps1 ++ p :: ps2) → ps1 ≠ [] →
  check_decr (Iterator (Some this) (Some p), s)
  = Ret tt (Iterator (Some this) (Some p), s).
Proof.
  intros Hl Hne. pose proof Hl as (Hobj & Hnd & Hc & _).
  assert (chain s [default h (last ps1); p; default h (ps2 !! 0%nat)]) as Hm.
  { apply (cyc_middle s h ps1 [p] ps2). by rewrite <- app_assoc in Hc. }
  apply chain_cons in Hm as (_ & Hp & _).
  unfold check_decr, bind, self, on_store, get_sz, get_head, get_prev, bind,
    load_list, load_node, ret. cbn. rewrite Hobj. cbn [sz head].
  rewrite length_mid_pos.
  unfold prv in Hp. destruct (nodes s !! p) as [nd|]; [|done]. cbn in Hp.
  rewrite Hobj. cbn [head]. rewrite Hp.
  rewrite bool_decide_eq_false_2; [done|].
  intros [= Hq]. destruct ps1 as [|a ps1 _] using rev_ind; [done|].
  rewrite last_snoc in Hq. cbn in Hq. subst a.
  apply NoDup_cons in Hnd as [Hh _]. apply Hh.
  rewrite <- app_assoc. apply elem_of_app. right. left.
Qed.

Lemma check_decr_sentinel s this h ps :
  is_list s this h ps → ps ≠ [] →
  check_decr (Iterator (Some this) (Some h), s)
  = Ret tt (Iterator (Some this) (Some h), s).
Proof.
  intros Hl Hne. pose proof Hl as (Hobj & Hnd & Hc & _).
  pose proof (prv_sentinel _ _ _ _ Hl) as Hp.
  unfold check_decr, bind, self, on_store, get_sz, get_head, get_prev, bind,
    load_list, load_node, ret. cbn. rewrite Hobj. cbn [sz head].
  destruct (Z.eqb_spec (Z.of_nat (length ps)) 0) as [E|_].
  { destruct ps; [done|]. cbn in E. lia. }
  unfold prv in Hp. destruct (nodes s !! h) as [nd|]; [|done]. cbn in Hp.
  rewrite Hobj. cbn [head]. rewrite Hp.
  rewrite bool_decide_eq_false_2; [done|].
  intros [= Hq]. destruct ps as [|a ps _] using rev_ind; [done|].
  rewrite last_snoc in Hq. cbn in Hq. subst a.
  apply NoDup_cons in Hnd as [Hh _]. apply Hh. apply elem_of_app. right. left.
Qed.

End iterators.

(** *** Stepping backwards *)

Section stepping_back.
Context {T : Type}.
Implicit Types (s : store T) (x y : loc) (xs ps : list loc) (it : iterator).

Lemma decr_spec s this h ps1 p ps2 :
  is_list s this h (ps1 ++ p :: ps2) → ps1 ≠ [] →
  pre_decr (Iterator (Some this) (Some p), s)
    = Ret tt (Iterator (Some this) (Some (default h (last ps1))), s) ∧
  post_decr (Iterator (Some this) (Some p), s)
    = Ret (Iterator (Some this) (Some p))
          (Iterator (Some this) (Some (default h (last ps1))), s).
Proof.
  intros Hl Hne. pose proof Hl as (Hobj & Hnd & Hc & _).
  assert (chain s [default h (last ps1); p; default h (ps2 !! 0%nat)]) as Hm.
  { apply (cyc_middle s h ps1 [p] ps2). by rewrite <- app_assoc in Hc. }
  apply chain_cons in Hm as (_ & Hp & _).
  unfold pre_decr, post_decr, bind. erewrite check_decr_spec by done.
  unfold self, on_store, get_prev, bind, load_node, ret, set_ptr. cbn.
  unfold prv in Hp. destruct (nodes s !! p) as [nd|]; [|done]. cbn in Hp.
  by rewrite Hp.
Qed.

Lemma decr_from_end s this h ps :
  is_list s this h ps → ps ≠ [] →
  pre_decr (Iterator (Some this) (Some h), s)
    = Ret tt (Iterator (Some this) (Some (default h (last ps))), s) ∧
  post_decr (Iterator (Some this) (Some h), s)
    = Ret (Iterator (Some this) (Some h))
          (Iterator (Some this) (Some (default h (last ps))), s).
Proof.
  intros Hl Hne. pose proof (prv_sentinel _ _ _ _ Hl) as Hp.
  unfold pre_decr, post_decr, bind. erewrite check_decr_sentinel by done.
  unfold self, on_store, get_prev, bind, load_node, ret, set_ptr. cbn.
  unfold prv in Hp. destruct (nodes s !! h) as [nd|]; [|done]. cbn in Hp.
  by rewrite Hp.
Qed.

Lemma check_decr_begin s this h p ps :
  is_list s this h (p :: ps) →
  check_decr (Iterator (Some this) (Some p), s)
  = Throw invalid_iterator (Iterator (Some this) (Some p), s).
Proof.
  intros Hl. pose proof Hl as (Hobj & Hnd & Hc & _).
  apply chain_cons in Hc as (_ & Hp & _).
  unfold check_decr, bind, self, on_store, get_sz, get_head, get_prev, bind,
    load_list, load_node, ret. cbn. rewrite Hobj. cbn [sz head].
  change (p :: ps) with ([] ++ p :: ps). rewrite length_mid_pos.
  unfold prv in Hp. destruct (nodes s !! p) as [nd|]; [|done]. cbn in Hp.
  rewrite Hobj. cbn [head]. rewrite Hp. by rewrite bool_decide_eq_true_2.
Qed.

Lemma check_decr_empty s this (h : pointer) it :
  lists s !! this = Some (ListObj h 0) → owner it = Some this →
  check_decr (it, s) = Throw invalid_iterator (it, s).
Proof.
  intros Hobj Ho. unfold check_decr, bind, self, on_store, get_sz, bind,
    load_list, ret. cbn. rewrite Ho. destruct (ptr it); [|done].
  by rewrite Hobj.
Qed.

Lemma decr_at_begin s this h p ps :
  is_list s this h (p :: ps) →
  pre_decr (Iterator (Some this) (Some p), s)
    = Throw invalid_iterator (Iterator (Some this) (Some p), s) ∧
  post_decr (Iterator (Some this) (Some p), s)
    = Throw invalid_iterator (Iterator (Some this) (Some p), s).
Proof.
  intros Hl. unfold pre_decr, post_decr, bind.
  by erewrite check_decr_begin by done.
Qed.

Lemma decr_on_empty s this (h : pointer) it :
  lists s !! this = Some (ListObj h 0) → owner it = Some this →
  pre_decr (it, s) = Throw invalid_iterator (it, s) ∧
  post_decr (it, s) = Throw invalid_iterator (it, s).
Proof.
  intros Hobj Ho. unfold pre_decr, post_decr, bind.
  by erewrite check_decr_empty by done.
Qed.

End stepping_back.

(** ** clear *)

Section ghost_loops.
Context {St : Type}.

(** The loop rule with the measure taken on a logical variable [g] that
    the invariant ties to the locals and the state. *)
Lemma returns_loop {V G} (I : G → V → St → Prop) (meas : G → nat)
    (cond : V → M St bool) (body : V → M St V) (Q : V → St → Prop) fuel g v s :
  I g v s →
  (meas g < fuel)%nat →
  (∀ g v s, I g v s →
     returns (cond v) (λ b s', s' = s ∧
       if b then returns (body v)
                   (λ v' s'', ∃ g', I g' v' s'' ∧ (meas g' < meas g)%nat) s
       else Q v s) s) →
  returns (while_ fuel cond body v) Q s.
Proof.
  intros HI Hfuel Hstep. revert g v s HI Hfuel.
  induction fuel as [|fuel IH]; intros g v s HI Hfuel; [lia|].
  simpl. apply returns_bind.
  eapply returns_mono; [eapply Hstep, HI|].
  intros [] s' [-> H]; simpl.
  - apply returns_bind. eapply returns_mono; [exact H|].
    intros v' s'' (g' & HI' & Hm). eapply IH; [done|lia].
  - by apply returns_ret.
Qed.

End ghost_loops.

Section clearing.
Context {T : Type}.
Implicit Types (s : store T) (x y : loc) (xs ps : list loc).

Lemma first_not_sentinel (h : loc) ps1 ps2 :
  NoDup (h :: ps1 ++ ps2) → default h (ps2 !! 0%nat) = h → ps2 = [].
Proof.
  intros Hnd. destruct ps2 as [|a ps2]; [done|]. cbn. intros ->.
  apply NoDup_cons in Hnd as [Hh _]. destruct Hh.
  apply elem_of_app. right. left.
Qed.

Lemma clear_spec fuel s this h ps :
  is_list s this h ps → (length ps < fuel)%nat →
  returns (clear fuel this)
    (λ _ s', is_list s' this h [] ∧
       (∀ x, x ∈ ps → ¬ alive s' x) ∧
       same_nodes_outside s s' (h :: ps) ∧
       same_lists_except s s' [this]) s.
Proof.
  intros Hl Hfuel. pose proof Hl as (Hobj & Hnd & Hc & Hsz).
  unfold clear.
  apply returns_bind. eapply returns_get_head; [exact Hobj|]. cbn [head].
  apply returns_bind, returns_get_next; [eapply is_list_alive; [done|left]|].
  erewrite nxt_sentinel by done.
  apply returns_bind.
  eapply (returns_loop
    (λ rest cur s1, ∃ done, ps = done ++ rest ∧
       cur = Some (default h (rest !! 0%nat)) ∧
       lists s1 = lists s ∧
       (∀ x, x ∉ done → nodes s1 !! x = nodes s !! x) ∧
       (∀ x, x ∈ done → nodes s1 !! x = None))
    length _ _ _ _ ps).
  - exists []. split_and!; try done. intros x Hx. by apply elem_of_nil in Hx.
  - done.
  - intros rest cur s1 (done & -> & -> & Hls & Hkeep & Hgone).
    apply returns_bind. eapply returns_get_head; [by rewrite Hls|]. cbn [head].
    apply returns_ret. split; [done|].
    rewrite (bool_decide_eq_true_2 (Some _ ≠ None)) by done. cbn [andb].
    destruct rest as [|x rest]; simpl (default _ _).
    + rewrite bool_decide_eq_false_2 by (by intros H; apply H).
      rewrite app_nil_r in *.
      assert (h ∉ done) as Hh by (by apply NoDup_cons in Hnd as [? _]).
      assert (alive s1 h) as Ah.
      { unfold alive. rewrite Hkeep by done. eapply is_list_alive; [done|left]. }
      apply returns_bind. eapply returns_get_head; [by rewrite Hls|]. cbn [head].
      apply returns_bind, returns_bind, returns_set_prev; [done|].
      apply returns_set_next; [by rewrite alive_with_prev|].
      eapply returns_set_sz; [cbn; by rewrite Hls|].
      split_and!.
      * split_and!; [|apply NoDup_singleton| |done].
        -- rewrite (lists_with_sz_eq _ _ _ (ListObj (Some h) (Z.of_nat (length done))));
             [done|]. cbn. by rewrite Hls.
        -- cbn [app]. rewrite chain_cons, nxt_with_sz, prv_with_sz, prv_with_next.
           rewrite nxt_with_next_eq by (by rewrite alive_with_prev).
           by rewrite prv_with_prev_eq.
      * intros x Hx. unfold alive, with_sz, upd_list. cbn [nodes].
        assert (x ≠ h) by (by intros ->).
        rewrite nodes_with_next_ne, nodes_with_prev_ne, Hgone by done.
        by intros [? ?].
      * intros x Hx _. unfold with_sz, upd_list. cbn [nodes].
        apply not_elem_of_cons in Hx as [? ?].
        by rewrite nodes_with_next_ne, nodes_with_prev_ne, Hkeep.
      * intros l Hl'. rewrite lists_with_sz_ne by (by apply not_elem_of_cons in Hl' as [? _]).
        cbn. by rewrite Hls.
    + pose proof Hnd as Hnd'. apply nodup_remove_mid in Hnd' as [Hnd' Hx].
      rewrite bool_decide_eq_true_2.
      2:{ intros [= ->]. apply Hx. left. }
      assert (x ∉ done) as Hxd.
      { intros ?. apply Hx. right. apply elem_of_app. by left. }
      assert (chain s [default h (last done); x; default h (rest !! 0%nat)]) as Hm.
      { apply (cyc_middle s h done [x] rest). by rewrite <- app_assoc in Hc. }
      apply chain_cons in Hm as (_ & _ & Hm). apply chain_cons in Hm as (Hxn & _).
      assert (alive s1 x) as Ax.
      { unfold alive. rewrite Hkeep by done. by eapply nxt_alive. }
      apply returns_bind, returns_get_next; [done|].
      rewrite (nxt_eq_nodes s s1) by (by apply Hkeep). rewrite Hxn.
      apply returns_bind, returns_delete_node; [done|].
      apply returns_ret. exists rest. split; [|cbn; lia].
      exists (done ++ [x]). split_and!.
      * by rewrite <- app_assoc.
      * done.
      * done.
      * intros y Hy. cbn. rewrite not_elem_of_app, not_elem_of_cons in Hy.
        destruct Hy as [? [? _]]. rewrite lookup_delete_ne by done. by apply Hkeep.
      * intros y Hy. cbn. apply elem_of_app in Hy as [Hy|Hy].
        -- destruct (decide (x = y)) as [->|]; [by rewrite lookup_delete_eq|].
           rewrite lookup_delete_ne by done. by apply Hgone.
        -- apply list_elem_of_singleton in Hy as ->. by rewrite lookup_delete_eq.
Qed.

End clearing.

(** ** Copying *)

Section copying.
Context {T : Type}.
Implicit Types (s : store T) (x y : loc) (xs ps : list loc).

Lemma values_app_inv s ps1 ps2 (vs : list T) :
  values s (ps1 ++ ps2) vs →
  ∃ vs1 vs2, vs = vs1 ++ vs2 ∧ values s ps1 vs1 ∧ values s ps2 vs2.
Proof.
  intros H. apply Forall2_app_inv_l in H as (vs1 & vs2 & ? & ? & ->).
  by exists vs1, vs2.
Qed.

Lemma values_app s ps1 ps2 (vs1 vs2 : list T) :
  values s ps1 vs1 → values s ps2 vs2 → values s (ps1 ++ ps2) (vs1 ++ vs2).
Proof. apply Forall2_app. Qed.

Lemma values_alive s ps (vs : list T) x : values s ps vs → x ∈ ps → alive s x.
Proof.
  intros Hv Hx. apply list_elem_of_lookup in Hx as [i Hi].
  destruct (Forall2_lookup_l _ _ _ _ _ Hv Hi) as (v & _ & Hv').
  by eapply value_alive.
Qed.

Lemma copy_from_spec fuel s this h ps (vs : list T) other oh pso vso :
  is_list s this h ps → values s ps vs →
  is_list s other oh pso → values s pso vso →
  apart (h :: ps) (oh :: pso) → this ≠ other →
  Z.of_nat (length ps) + Z.of_nat (length pso) < 2 ^ 64 →
  (length pso < fuel)%nat →
  returns (copy_from fuel this other)
    (λ _ s', ∃ new,
       is_list s' this h (ps ++ new) ∧ values s' (ps ++ new) (vs ++ vso) ∧
       is_list s' other oh pso ∧ values s' pso vso ∧
       (∀ x, x ∈ new → ¬ alive s x) ∧
       same_nodes_outside s s' (h :: ps) ∧
       same_lists_except s s' [this]) s.
Proof.
  intros Hl Hv Hlo Hvo Hap Hne Hsz Hfuel.
  unfold copy_from, cbegin, cend.
  apply returns_bind. eapply returns_of_eq; [by eapply begin_spec|].
  apply returns_bind.
  eapply (returns_loop
    (λ rest it s1, ∃ done new vd vr,
       pso = done ++ rest ∧ vso = vd ++ vr ∧ length vd = length done ∧
       length new = length done ∧
       it = Iterator (Some other) (Some (default oh (rest !! 0%nat))) ∧
       is_list s1 this h (ps ++ new) ∧ values s1 (ps ++ new) (vs ++ vd) ∧
       is_list s1 other oh pso ∧ values s1 pso vso ∧
       (∀ x, x ∈ new → ¬ alive s x) ∧
       same_nodes_outside s s1 (h :: ps) ∧
       same_lists_except s s1 [this])
    length _ _ _ _ pso).
  - exists [], [], [], vso. rewrite !app_nil_r. split_and!; try done.
    intros x Hx. by apply elem_of_nil in Hx.
  - done.
  - intros rest it s1 (done & new & vd & vr & -> & -> & Hlen & Hlen' & -> & Hl1 & Hv1
                       & Hlo1 & Hvo1 & Hnew & Hout & Hls).
    apply returns_bind. eapply returns_of_eq; [by eapply end_spec|].
    apply returns_ret. split; [done|].
    unfold iter_ne, iter_eq. cbn [owner ptr].
    rewrite (bool_decide_eq_true_2 (Some other = Some other)) by done. cbn [andb].
    destruct rest as [|x rest]; simpl (default _ _).
    + rewrite bool_decide_eq_true_2 by done. cbn [negb].
      apply returns_ret. exists new. rewrite app_nil_r in *.
      apply Forall2_length in Hvo. rewrite length_app in Hvo.
      assert (vr = []) as -> by (apply nil_length_inv; lia).
      rewrite app_nil_r in *. done.
    + pose proof Hlo1 as (_ & Hndo & _).
      apply nodup_remove_mid in Hndo as [Hndo Hx].
      rewrite bool_decide_eq_false_2.
      2:{ intros [= ->]. apply Hx. left. }
      cbn [negb].
      apply values_app_inv in Hvo1 as (vd' & vr' & Hsplit & Hvd & Hvr).
      assert (length vd' = length done) as Hlen''.
      { symmetry. by apply Forall2_length in Hvd. }
      apply app_inj_1 in Hsplit as [<- <-]; [|lia].
      destruct vr as [|v vr]; [by apply Forall2_length in Hvr|].
      apply Forall2_cons in Hvr as [Hxv Hvr].
      apply returns_bind. eapply returns_of_eq.
      { unfold with_iterator. erewrite deref_spec; [done|done| |done].
        apply elem_of_app. right. left. }
      apply returns_bind.
      assert (Z.of_nat (length (ps ++ new)) + 1 < 2 ^ 64) as Hsz1.
      { rewrite length_app, Hlen'. rewrite length_app, length_cons in Hsz. lia. }
      eapply returns_mono; [by apply push_back_spec|].
      intros _ s2 (cur & Hcur & Hl2 & Hvcur & Hvals & Hout2 & Hls2).
      assert (∀ y, y ∈ oh :: done ++ x :: rest → nodes s2 !! y = nodes s1 !! y) as Hsame.
      { intros y Hy. apply Hout2.
        - intros Hy'. rewrite app_comm_cons in Hy'.
          apply elem_of_app in Hy' as [Hy'|Hy'].
          + by apply (Hap y).
          + apply (Hnew y Hy'). by eapply is_list_alive.
        - by eapply is_list_alive. }
      assert (is_list s2 other oh (done ++ x :: rest)) as Hlo2.
      { eapply is_list_frame; [done|done|]. apply Hls2.
        apply not_elem_of_cons. split; [done|apply not_elem_of_nil]. }
      apply returns_bind. eapply returns_of_eq.
      { unfold with_iterator. by erewrite pre_incr_spec. }
      apply returns_ret. cbn [snd]. exists rest. split; [|cbn; lia].
      exists (done ++ [x]), (new ++ [cur]), (vd ++ [v]), vr.
      rewrite <- !app_assoc. cbn [app]. rewrite !length_app. cbn [length].
      split_and!; try done; try lia.
      * rewrite !app_assoc. done.
      * rewrite !app_assoc. apply values_app.
        -- eapply values_frame; [exact Hv1|]. intros y Hy. apply Hvals.
           by apply (values_alive s1 (ps ++ new) (vs ++ vd)).
        -- by repeat constructor.
      * unfold values. apply Forall2_app.
        -- eapply values_frame; [done|]. intros y Hy. apply value_eq_nodes, Hsame.
           right. apply elem_of_app. by left.
        -- constructor.
           ++ rewrite <- Hxv. apply value_eq_nodes, Hsame. right. apply elem_of_app.
              right. left.
           ++ eapply values_frame; [done|]. intros y Hy. apply value_eq_nodes, Hsame.
              right. apply elem_of_app. right. by right.
      * intros y Hy. apply elem_of_app in Hy as [Hy|Hy]; [by apply Hnew|].
        apply list_elem_of_singleton in Hy as ->. intros Ay. apply Hcur.
        destruct (decide (cur ∈ h :: ps)) as [Hin|Hin].
        -- eapply is_list_alive; [exact Hl1|]. rewrite app_comm_cons.
           apply elem_of_app. by left.
        -- unfold alive. rewrite Hout by done. done.
      * intros y Hy Ay. rewrite <- Hout by done. apply Hout2.
        -- intros Hy'. rewrite app_comm_cons in Hy'.
           apply elem_of_app in Hy' as [Hy'|Hy']; [done|]. by apply (Hnew y).
        -- unfold alive. rewrite Hout by done. done.
      * intros l Hl'. rewrite Hls2 by done. by apply Hls.
Qed.

Lemma list_copy_ctor_spec fuel s other oh pso (vso : list T) :
  is_list s other oh pso → values s pso vso →
  (length pso < fuel)%nat →
  returns (list_copy_ctor fuel other)
    (λ this s', lists s !! this = None ∧ ∃ h new,
       is_list s' this h new ∧ values s' new vso ∧
       is_list s' other oh pso ∧ values s' pso vso ∧
       (∀ x, x ∈ h :: new → ¬ alive s x) ∧
       same_nodes_outside s s' [] ∧
       same_lists_except s s' [this]) s.
Proof.
  intros Hlo Hvo Hfuel. unfold list_copy_ctor.
  apply returns_bind. eapply returns_mono; [apply list_ctor_spec|].
  intros this s1 (Hthis & h & Hh & Hl1 & Hout1 & Hls1).
  assert (this ≠ other) as Hne.
  { intros ->. destruct Hlo as (Hobj & _). congruence. }
  assert (∀ y, y ∈ oh :: pso → nodes s1 !! y = nodes s !! y) as Hsame.
  { intros y Hy. apply Hout1; [apply not_elem_of_nil|]. by eapply is_list_alive. }
  assert (is_list s1 other oh pso) as Hlo1.
  { eapply is_list_frame; [done|done|]. apply Hls1.
    apply not_elem_of_cons. split; [done|apply not_elem_of_nil]. }
  assert (values s1 pso vso) as Hvo1.
  { eapply values_frame; [done|]. intros y Hy. apply value_eq_nodes, Hsame. by right. }
  apply returns_bind.
  eapply returns_mono.
  { apply (copy_from_spec fuel s1 this h [] [] other oh pso vso); try done.
    - constructor.
    - intros y Hy Hy'. apply list_elem_of_singleton in Hy as ->.
      apply Hh. by eapply is_list_alive.
    - destruct Hlo as (_ & _ & _ & ?). cbn [length]. lia. }
  intros _ s2 (new & Hl2 & Hv2 & Hlo2 & Hvo2 & Hnew & Hout2 & Hls2).
  apply returns_ret. split; [done|]. exists h, new. cbn [app] in *.
  split_and!; try done.
  - intros y Hy. apply elem_of_cons in Hy as [->|Hy]; [done|].
    intros Ay. apply (Hnew y Hy). unfold alive. rewrite Hout1; [done| |done].
    apply not_elem_of_nil.
  - intros y _ Ay. rewrite <- Hout1; [|apply not_elem_of_nil|done]. apply Hout2.
    + intros Hy. apply list_elem_of_singleton in Hy as ->. done.
    + unfold alive. rewrite Hout1; [done|apply not_elem_of_nil|done].
  - intros l Hl'. rewrite Hls2 by done. by apply Hls1.
Qed.

Lemma assign_self fuel s this : assign (T := T) fuel this this s = Ret tt s.
Proof. unfold assign. by rewrite bool_decide_eq_true_2. Qed.

Lemma assign_spec fuel s this h ps other oh pso (vso : list T) :
  is_list s this h ps →
  is_list s other oh pso → values s pso vso →
  apart (h :: ps) (oh :: pso) → this ≠ other →
  (length ps < fuel)%nat → (length pso < fuel)%nat →
  returns (assign fuel this other)
    (λ _ s', ∃ new,
       is_list s' this h new ∧ values s' new vso ∧
       is_list s' other oh pso ∧ values s' pso vso ∧
       same_nodes_outside s s' (h :: ps) ∧
       same_lists_except s s' [this]) s.
Proof.
  intros Hl Hlo Hvo Hap Hne Hf1 Hf2. unfold assign.
  rewrite bool_decide_eq_false_2 by done.
  apply returns_bind. eapply returns_mono; [by apply clear_spec|].
  intros _ s1 (Hl1 & Hgone & Hout1 & Hls1).
  assert (∀ y, y ∈ oh :: pso → nodes s1 !! y = nodes s !! y) as Hsame.
  { intros y Hy. apply Hout1; [|by eapply is_list_alive].
    intros Hy'. by apply (Hap y). }
  assert (is_list s1 other oh pso) as Hlo1.
  { eapply is_list_frame; [done|done|]. apply Hls1.
    apply not_elem_of_cons. split; [done|apply not_elem_of_nil]. }
  assert (values s1 pso vso) as Hvo1.
  { eapply values_frame; [done|]. intros y Hy. apply value_eq_nodes, Hsame. by right. }
  eapply returns_mono.
  { apply (copy_from_spec fuel s1 this h [] [] other oh pso vso); try done.
    - constructor.
    - intros y Hy. apply list_elem_of_singleton in Hy as ->. apply Hap. left.
    - destruct Hlo as (_ & _ & _ & ?). cbn [length]. lia. }
  intros _ s2 (new & Hl2 & Hv2 & Hlo2 & Hvo2 & Hnew & Hout2 & Hls2).
  exists new. cbn [app] in *. split_and!; try done.
  - intros y Hy Ay. rewrite <- Hout1 by done. apply Hout2.
    + intros Hy'. apply list_elem_of_singleton in Hy' as ->. apply Hy. left.
    + unfold alive. by rewrite Hout1.
  - intros l Hl'. rewrite Hls2 by done. by apply Hls1.
Qed.

End copying.

(** ** reverse *)

Section reversing.
Context {T : Type}.
Implicit Types (s : store T) (x y : loc) (xs ps : list loc).

Lemma chain_rev s s' xs :
  (∀ x, x ∈ xs → nxt s' x = prv s x ∧ prv s' x = nxt s x) →
  chain s xs → chain s' (rev xs).
Proof.
  induction xs as [|x xs IH]; [done|].
  destruct xs as [|y r]; [done|].
  intros Hsw Hc. apply chain_cons in Hc as (Hn & Hp & Hc).
  change (rev (x :: y :: r)) with (rev (y :: r) ++ [x]).
  change (rev (y :: r)) with (rev r ++ [y]) in *.
  rewrite <- app_assoc. cbn [app]. apply chain_snoc.
  - apply IH; [|done]. intros z Hz. apply Hsw. by right.
  - destruct (Hsw y) as [-> _]; [right; left|done].
  - destruct (Hsw x) as [_ ->]; [left|done].
Qed.

Lemma elem_of_rev (xs : list loc) x : x ∈ rev xs ↔ x ∈ xs.
Proof. rewrite !list_elem_of_In. symmetry. apply in_rev. Qed.

Lemma NoDup_rev_list (xs : list loc) : NoDup xs → NoDup (rev xs).
Proof. rewrite !NoDup_ListNoDup. apply NoDup_rev. Qed.

(** One round of the loop of reverse, on a node that was not yet visited. *)
Lemma reverse_round s s1 D x :
  swapped s s1 D → x ∉ D → alive s x →
  returns (tmp <- get_next (Some x);;
           p <- get_prev (Some x);; set_next (Some x) p;;
           set_prev (Some x) tmp;;
           ret tmp)
    (λ r s2, r = nxt s x ∧ swapped s s2 (D ++ [x])) s1.
Proof.
  intros (Hsw & Hkeep & Hls & Hval & Hal) Hx Ax.
  assert (alive s1 x) as Ax1 by (by apply Hal).
  apply returns_bind, returns_get_next; [done|].
  apply returns_bind, returns_get_prev; [done|].
  apply returns_bind, returns_set_next; [done|].
  apply returns_bind, returns_set_prev; [by rewrite alive_with_next|].
  apply returns_ret.
  rewrite (nxt_eq_nodes s s1), (prv_eq_nodes s s1) by (by apply Hkeep).
  split; [done|]. split_and!.
  - intros y Hy. apply elem_of_app in Hy as [Hy|Hy].
    + assert (y ≠ x) by (by intros ->).
      rewrite nxt_with_prev, nxt_with_next_ne, prv_with_prev_ne, prv_with_next by done.
      by apply Hsw.
    + apply list_elem_of_singleton in Hy as ->.
      rewrite nxt_with_prev, nxt_with_next_eq by done.
      by rewrite prv_with_prev_eq by (by rewrite alive_with_next).
  - intros y Hy. rewrite not_elem_of_app, not_elem_of_cons in Hy.
    destruct Hy as [? [? _]].
    rewrite nodes_with_prev_ne, nodes_with_next_ne by done. by apply Hkeep.
  - done.
  - intros y. by rewrite value_with_prev, value_with_next.
  - intros y. by rewrite alive_with_prev, alive_with_next.
Qed.

Lemma reverse_spec fuel s this h ps :
  is_list s this h ps → (length ps < fuel)%nat →
  returns (reverse fuel this)
    (λ _ s', is_list s' this h (rev ps) ∧
       (∀ x, value_at s' x = value_at s x) ∧
       (∀ x, alive s' x ↔ alive s x) ∧
       same_nodes_outside s s' (h :: ps) ∧
       lists s' = lists s) s.
Proof.
  intros Hl Hfuel. pose proof Hl as (Hobj & Hnd & Hc & Hsz).
  unfold reverse.
  apply returns_bind. eapply returns_get_sz; [exact Hobj|]. cbn [sz].
  destruct (Z.leb_spec (Z.of_nat (length ps)) 1) as [Hle|Hgt].
  { apply returns_ret. split_and!; try done.
    destruct ps as [|a [|b ps]]; try done. cbn in Hle. lia. }
  apply returns_bind. eapply returns_get_head; [exact Hobj|]. cbn [head].
  apply returns_bind. unfold do_while.
  apply returns_bind.
  eapply returns_mono.
  { apply (reverse_round s s [] h).
    - split_and!; try done. intros x Hx. by apply elem_of_nil in Hx.
    - apply not_elem_of_nil.
    - eapply is_list_alive; [done|left]. }
  intros r s1 (-> & Hsw1). cbn [app] in Hsw1.
  erewrite nxt_sentinel by done.
  eapply (returns_loop
    (λ rest cur s1, ∃ done, ps = done ++ rest ∧
       cur = Some (default h (rest !! 0%nat)) ∧ swapped s s1 (h :: done))
    length _ _ _ _ ps).
  - by exists [].
  - done.
  - intros rest cur s2 (done & -> & -> & Hsw).
    pose proof Hsw as (Hsw2 & Hkeep & Hls & Hval & Hal).
    apply returns_bind. eapply returns_get_head; [by rewrite Hls|]. cbn [head].
    apply returns_ret. split; [done|].
    destruct rest as [|x rest]; simpl (default _ _).
    + rewrite bool_decide_eq_false_2 by (by intros H; apply H).
      apply returns_ret. rewrite app_nil_r in *.
      split_and!; try done.
      * split_and!.
        -- rewrite Hls, Hobj. by rewrite length_rev.
        -- apply NoDup_cons in Hnd as [Hh Hnd]. apply NoDup_cons. split.
           ++ by rewrite elem_of_rev.
           ++ by apply NoDup_rev_list.
        -- replace (h :: rev done ++ [h]) with (rev (h :: done ++ [h])).
           2:{ cbn [rev]. rewrite rev_app_distr. done. }
           apply (chain_rev s); [|done]. intros y Hy. apply Hsw2.
           rewrite app_comm_cons in Hy. apply elem_of_app in Hy as [Hy|Hy]; [done|].
           apply list_elem_of_singleton in Hy as ->. left.
        -- by rewrite length_rev.
      * intros y Hy _. by apply Hkeep.
    + pose proof Hnd as Hnd'. apply nodup_remove_mid in Hnd' as [Hnd' Hx].
      rewrite bool_decide_eq_true_2.
      2:{ intros [= ->]. apply Hx. left. }
      eapply returns_mono.
      { apply (reverse_round s s2 (h :: done) x); [done| |].
        - intros Hin. apply Hx. apply elem_of_cons in Hin as [->|Hin]; [left|].
          right. apply elem_of_app. by left.
        - eapply is_list_alive; [done|]. right. apply elem_of_app. right. left. }
      intros r s3 (-> & Hsw3).
      assert (chain s [default h (last done); x; default h (rest !! 0%nat)]) as Hm.
      { apply (cyc_middle s h done [x] rest). by rewrite <- app_assoc in Hc. }
      apply chain_cons in Hm as (_ & _ & Hm). apply chain_cons in Hm as (Hxn & _).
      exists rest. split; [|cbn; lia].
      exists (done ++ [x]). split_and!; [by rewrite <- app_assoc|done|].
      by rewrite app_comm_cons.
Qed.

End reversing.

(** ** unique *)

Section uniq.
Context {T : Type} (eqb : T → T → bool).
Implicit Types (s : store T) (x y : loc) (xs ps : list loc).

Lemma unique_two_or_more s this h ps :
  is_list s this h ps → 1 < Z.of_nat (length ps) → ∃ a b r, ps = a :: b :: r.
Proof. intros _ H. destruct ps as [|a [|b r]]; cbn in H; try lia. eauto. Qed.

Lemma unique_spec fuel s this h ps vs :
  is_list s this h ps → values s ps vs → (length ps < fuel)%nat →
  returns (unique eqb fuel this)
    (λ _ s', ∃ ps', is_list s' this h ps' ∧
       values s' ps' (unique_list eqb vs) ∧
       ps' ⊆ ps ∧
       same_nodes_outside s s' (h :: ps) ∧
       same_lists_except s s' [this]) s.
Proof.
  intros Hl Hv Hfuel. pose proof Hl as (Hobj & Hnd & Hc & Hsz).
  unfold unique.
  apply returns_bind. eapply returns_get_sz; [exact Hobj|]. cbn [sz].
  destruct (Z.leb_spec (Z.of_nat (length ps)) 1) as [Hle|Hgt].
  { apply returns_ret. exists ps.
    assert (unique_list eqb vs = vs) as ->.
    { destruct ps as [|a [|b ps]]; cbn in Hle; try lia.
      - by apply Forall2_nil_inv_l in Hv as ->.
      - apply Forall2_cons_inv_l in Hv as (v & vs' & ? & Hv & ->).
        by apply Forall2_nil_inv_l in Hv as ->. }
    done. }
  apply returns_bind. eapply returns_get_head; [exact Hobj|]. cbn [head].
  apply returns_bind, returns_get_next; [eapply is_list_alive; [done|left]|].
  erewrite nxt_sentinel by done.
  destruct ps as [|c ps]; [cbn in Hgt; lia|]. simpl (default _ _).
  apply Forall2_cons_inv_l in Hv as (cv & vs' & Hcv & Hv & ->).
  cbn [unique_list].
  apply returns_bind.
  eapply (returns_loop
    (λ rest cur s1, ∃ kept cu kvs cuv rvs,
       cur = Some cu ∧
       is_list s1 this h (kept ++ cu :: rest) ∧
       values s1 kept kvs ∧ value_at s1 cu = Some cuv ∧ values s1 rest rvs ∧
       kvs ++ unique_from eqb cuv rvs = unique_from eqb cv vs' ∧
       kept ++ cu :: rest ⊆ c :: ps ∧
       same_nodes_outside s s1 (h :: c :: ps) ∧
       same_lists_except s s1 [this])
    length _ _ _ _ ps).
  - exists [], c, [], cv, vs'. split_and!; try done. constructor.
  - cbn in Hfuel. lia.
  - intros rest cur s1 (kept & cu & kvs & cuv & rvs & -> & Hl1 & Hkv & Hcuv & Hrv
                        & Hres & Hsub & Hout & Hls).
    pose proof Hl1 as (Hobj1 & Hnd1 & Hc1 & Hsz1).
    pose proof Hnd1 as Hnd1'. apply nodup_remove_mid in Hnd1' as [Hnd1' Hcu].
    assert (cu ≠ h) as Hcuh by (intros ->; apply Hcu; left).
    assert (chain s1 [default h (last kept); cu; default h (rest !! 0%nat)]) as Hm.
    { apply (cyc_middle s1 h kept [cu] rest). by rewrite <- app_assoc in Hc1. }
    apply chain_cons in Hm as (_ & _ & Hm). apply chain_cons in Hm as (Hcun & _).
    assert (alive s1 cu) as Acu by (by eapply nxt_alive).
    apply returns_bind. eapply returns_get_head; [exact Hobj1|]. cbn [head].
    rewrite bool_decide_eq_true_2 by congruence.
    apply returns_bind, returns_get_next; [done|]. rewrite Hcun.
    apply returns_bind. eapply returns_get_head; [exact Hobj1|]. cbn [head].
    apply returns_ret. split; [done|].
    destruct rest as [|y rest]; simpl (default _ _).
    + rewrite bool_decide_eq_false_2 by (by intros H; apply H).
      apply returns_ret. exists (kept ++ [cu]).
      apply Forall2_nil_inv_l in Hrv as ->. cbn [unique_from] in Hres.
      rewrite <- Hres. split_and!; try done.
      apply Forall2_app; [done|]. by repeat constructor.
    + assert (y ≠ h) as Hyh.
      { intros ->. apply NoDup_cons in Hnd1 as [Hh _]. apply Hh.
        apply elem_of_app. right. right. left. }
      rewrite bool_decide_eq_true_2 by congruence.
      apply Forall2_cons_inv_l in Hrv as (yv & rvs' & Hyv & Hrv & ->).
      apply returns_bind. eapply returns_deref_val; [exact Hcuv|].
      apply returns_bind, returns_get_next; [done|]. rewrite Hcun.
      simpl (default _ _).
      apply returns_bind. eapply returns_deref_val; [exact Hyv|].
      cbn [unique_from] in Hres.
      destruct (eqb cuv yv) eqn:E.
      * apply returns_bind, returns_get_next; [done|]. rewrite Hcun.
        simpl (default _ _).
        apply returns_bind.
        eapply returns_mono.
        { apply (erase_node_spec s1 this h (kept ++ [cu]) y rest).
          by rewrite <- app_assoc. }
        intros r s2 (-> & Hl2 & Hv2 & Ha2 & _ & _ & Hout2 & Hls2).
        apply returns_bind, returns_delete_node.
        { apply Ha2. by eapply value_alive. }
        apply returns_ret. exists rest. split; [|cbn; lia].
        set (s3 := Store _ _).
        assert (∀ z, z ≠ y → nodes s3 !! z = nodes s2 !! z) as Hs3.
        { intros z Hz. subst s3. cbn. by rewrite lookup_delete_ne. }
        assert (y ∉ h :: (kept ++ [cu]) ++ rest) as Hyout.
        { pose proof Hnd1 as Hndx.
          replace (kept ++ cu :: y :: rest) with ((kept ++ [cu]) ++ y :: rest) in Hndx
            by (by rewrite <- app_assoc).
          by apply nodup_remove_mid in Hndx as [_ ?]. }
        assert (∀ z, z ∈ kept ++ cu :: rest → value_at s3 z = value_at s1 z) as Hval.
        { intros z Hz. rewrite <- Hv2. apply value_eq_nodes, Hs3. intros ->.
          apply Hyout. right. rewrite <- app_assoc. done. }
        exists kept, cu, kvs, cuv, rvs'. split_and!; try done.
        -- rewrite <- app_assoc in Hl2. cbn [app] in Hl2.
           eapply is_list_frame; [done| |done]. intros z Hz. apply Hs3. intros ->.
           apply Hyout. by rewrite <- app_assoc.
        -- eapply values_frame; [done|]. intros z Hz. apply Hval.
           apply elem_of_app. by left.
        -- rewrite Hval; [done|]. apply elem_of_app. right. left.
        -- eapply values_frame; [done|]. intros z Hz. apply Hval.
           apply elem_of_app. right. by right.
        -- intros z Hz. apply Hsub. apply elem_of_app in Hz as [Hz|Hz].
           ++ apply elem_of_app. by left.
           ++ apply elem_of_app. right. apply elem_of_cons in Hz as [->|Hz]; [left|].
              right. by right.
        -- intros z Hz Az.
           assert (z ∉ h :: kept ++ cu :: y :: rest) as Hz1.
           { intros Hin. apply Hz. apply elem_of_cons in Hin as [->|Hin]; [left|].
             right. by apply Hsub. }
           assert (z ≠ y).
           { intros ->. apply Hz1. right. apply elem_of_app. right. right. left. }
           rewrite Hs3 by done. rewrite <- Hout by done. apply Hout2.
           ++ by rewrite <- app_assoc.
           ++ unfold alive. by rewrite Hout.
        -- intros l Hl'. cbn. rewrite Hls2 by done. by apply Hls.
      * apply returns_get_next; [done|]. rewrite Hcun. simpl (default _ _).
        exists rest. split; [|cbn; lia].
        exists (kept ++ [cu]), y, (kvs ++ [cuv]), yv, rvs'.
        rewrite <- !app_assoc. cbn [app]. split_and!; try done.
        apply Forall2_app; [done|]. by repeat constructor.
Qed.

End uniq.

(** ** merge *)

Section merge_pure.
Context {A : Type} (lt : A → A → bool).

Lemma merge_lists_nil_r xs : merge_lists lt xs [] = xs.
Proof. by destruct xs. Qed.

Lemma merge_lists_cons x xs y ys :
  merge_lists lt (x :: xs) (y :: ys)
  = if lt y x then y :: merge_lists lt (x :: xs) ys
    else x :: merge_lists lt xs (y :: ys).
Proof. done. Qed.

Lemma merge_lists_perm xs ys :
  merge_lists lt xs ys ≡ₚ xs ++ ys.
Proof.
  revert ys. induction xs as [|x xs IHx]; intros ys; [done|].
  induction ys as [|y ys IHy]; [by rewrite app_nil_r|].
  rewrite merge_lists_cons. destruct (lt y x).
  - rewrite IHy. apply Permutation_middle.
  - rewrite IHx. done.
Qed.

End merge_pure.

Section merging.
Context {T : Type} (ltb : T → T → bool).
Implicit Types (s : store T) (x y : loc) (xs ps : list loc).

Lemma nchain_cons s x y r :
  nchain s (x :: y :: r) ↔ nxt s x = Some y ∧ nchain s (y :: r).
Proof. done. Qed.

Lemma nchain_frame s s' xs :
  nchain s xs → (∀ z, z ∈ removelast xs → nxt s' z = nxt s z) → nchain s' xs.
Proof.
  induction xs as [|x xs IH]; [done|].
  destruct xs as [|y r]; [done|].
  rewrite !nchain_cons. intros (Hn & Hc) Hnxt. split.
  - rewrite Hnxt; [done|]. cbn. left.
  - apply IH; [done|]. intros z Hz. apply Hnxt. cbn [removelast]. by right.
Qed.

Lemma nchain_first s x r (e : loc) :
  nchain s (x :: r ++ [e]) → nxt s x = Some (default e (r !! 0%nat)) ∧ nchain s (r ++ [e]).
Proof. destruct r as [|y r]; cbn [app]; rewrite nchain_cons; naive_solver. Qed.

Lemma last_default_in (h : loc) out : default h (last out) ∈ h :: out.
Proof. apply snoc_default_in. Qed.

(** Appending [x] behind the tail of the chain built so far. *)
Lemma chain_push s (h : loc) out x :
  chain s (h :: out) → NoDup (h :: out) → x ∉ h :: out →
  alive s (default h (last out)) → alive s x →
  chain (with_next (default h (last out)) (Some x)
           (with_prev x (Some (default h (last out))) s)) (h :: out ++ [x]).
Proof.
  intros Hc Hnd Hx At Ax.
  destruct out as [|t out _] using rev_ind.
  - cbn [app last default] in *. rewrite chain_cons. split_and!.
    + rewrite nxt_with_next_eq; [done|]. by rewrite alive_with_prev.
    + rewrite prv_with_next, prv_with_prev_eq; done.
    + done.
  - rewrite last_snoc in *. cbn [default] in *.
    rewrite <- app_assoc. cbn [app]. rewrite app_comm_cons.
    rewrite app_comm_cons in Hnd, Hc, Hx.
    apply NoDup_app in Hnd as (_ & Hd & _).
    apply chain_snoc.
    + eapply chain_frame; [exact Hc| |].
      * intros z Hz. rewrite removelast_last in Hz.
        rewrite nxt_with_next_ne, nxt_with_prev; [done|].
        intros ->. apply (Hd t Hz). left.
      * intros z Hz. rewrite prv_with_next, prv_with_prev_ne; [done|].
        intros ->. apply Hx. by apply in_tail.
    + rewrite nxt_with_next_eq; [done|]. by rewrite alive_with_prev.
    + rewrite prv_with_next, prv_with_prev_eq; done.
Qed.

Lemma merge_take_a s0 h oh all out x ra rb b tail s1 {B} (f : pointer → B) :
  merge_shape s0 h oh all out (x :: ra) rb (Some x) b tail s1 →
  returns (na <- get_next (Some x);; splice tail (Some x);; ret (f na))
    (λ r s2, ∃ na, r = f na ∧
       merge_shape s0 h oh all (out ++ [x]) ra rb na b (Some x) s2) s1.
Proof.
  intros (_ & Hb & -> & Hnd & Hperm & Hc & Hna & Hnb & Hval & Hal & Hls & Hfr & Hin).
  set (t := default h (last out)).
  assert (∀ z, z ∈ out ++ (x :: ra) ++ rb → z ∈ h :: oh :: all) as Hall.
  { intros z Hz. right. right. by rewrite <- Hperm. }
  assert (t ∈ h :: out) as Ht by apply last_default_in.
  assert (alive s1 t) as At.
  { apply Hal, Hin. apply elem_of_cons in Ht as [->|Ht]; [left|].
    apply Hall, elem_of_app. by left. }
  assert (alive s1 x) as Ax.
  { apply Hal, Hin, Hall. apply elem_of_app. right. left. }
  pose proof Hnd as Hnd0.
  apply NoDup_cons in Hnd as [Hh Hnd]. apply NoDup_cons in Hnd as [Hoh Hnd].
  apply NoDup_app in Hnd as (Hndo & Hdis & Hndr).
  assert (x ∉ h :: out) as Hxo.
  { intros Hx. apply elem_of_cons in Hx as [->|Hx].
    - apply Hh. right. apply elem_of_app. right. left.
    - apply (Hdis x Hx). left. }
  assert (∀ z, z ∈ ra ++ rb → z ≠ t) as Hnt.
  { intros z Hz ->. apply elem_of_cons in Ht as [Ht|Ht].
    - apply Hh. rewrite <- Ht. right. apply elem_of_app. right. by right.
    - apply (Hdis t Ht). by right. }
  apply nchain_first in Hna as (Hxn & Hna).
  apply returns_bind, returns_get_next; [done|]. rewrite Hxn.
  unfold splice.
  apply returns_bind, returns_bind, returns_set_prev; [done|].
  apply returns_set_next; [by rewrite alive_with_prev|].
  apply returns_ret. eexists. split; [done|].
  fold t. split_and!; try done.
  - by rewrite last_snoc.
  - by rewrite <- app_assoc.
  - by rewrite <- app_assoc.
  - apply chain_push; try done. apply NoDup_cons. split; [|done].
    intros Hho. apply Hh. right. apply elem_of_app. by left.
  - eapply nchain_frame; [exact Hna|]. intros z Hz. rewrite removelast_last in Hz.
    rewrite nxt_with_next_ne, nxt_with_prev; [done|].
    apply Hnt. apply elem_of_app. by left.
  - eapply nchain_frame; [exact Hnb|]. intros z Hz. rewrite removelast_last in Hz.
    rewrite nxt_with_next_ne, nxt_with_prev; [done|].
    apply Hnt. apply elem_of_app. by right.
  - intros z. by rewrite value_with_next, value_with_prev.
  - intros z. by rewrite alive_with_next, alive_with_prev.
  - intros z Hz. rewrite nodes_with_next_ne, nodes_with_prev_ne; [by apply Hfr| |].
    + intros ->. apply Hz, Hall. apply elem_of_app. right. left.
    + intros ->. apply Hz. apply elem_of_cons in Ht as [->|Ht]; [left|].
      apply Hall. apply elem_of_app. by left.
Qed.

Lemma merge_take_b s0 h oh all out y ra rb a tail s1 {B} (f : pointer → B) :
  merge_shape s0 h oh all out ra (y :: rb) a (Some y) tail s1 →
  returns (nb <- get_next (Some y);; splice tail (Some y);; ret (f nb))
    (λ r s2, ∃ nb, r = f nb ∧
       merge_shape s0 h oh all (out ++ [y]) ra rb a nb (Some y) s2) s1.
Proof.
  intros (Ha & _ & -> & Hnd & Hperm & Hc & Hna & Hnb & Hval & Hal & Hls & Hfr & Hin).
  set (t := default h (last out)).
  assert (∀ z, z ∈ out ++ ra ++ y :: rb → z ∈ h :: oh :: all) as Hall.
  { intros z Hz. right. right. by rewrite <- Hperm. }
  assert (t ∈ h :: out) as Ht by apply last_default_in.
  assert (alive s1 t) as At.
  { apply Hal, Hin. apply elem_of_cons in Ht as [->|Ht]; [left|].
    apply Hall, elem_of_app. by left. }
  assert (alive s1 y) as Ay.
  { apply Hal, Hin, Hall. apply elem_of_app. right. apply elem_of_app. right. left. }
  assert (out ++ ra ++ y :: rb ≡ₚ (out ++ [y]) ++ ra ++ rb) as Hmove.
  { rewrite <- app_assoc. apply Permutation_app_head. cbn [app].
    symmetry. apply Permutation_middle. }
  assert (NoDup (h :: oh :: (out ++ [y]) ++ ra ++ rb)) as Hnd2.
  { by rewrite <- Hmove. }
  apply NoDup_cons in Hnd as [Hh Hnd]. apply NoDup_cons in Hnd as [Hoh Hnd].
  apply NoDup_app in Hnd as (Hndo & Hdis & Hndr).
  assert (y ∉ h :: out) as Hyo.
  { intros Hy. apply elem_of_cons in Hy as [->|Hy].
    - apply Hh. right. apply elem_of_app. right. apply elem_of_app. right. left.
    - apply (Hdis y Hy). apply elem_of_app. right. left. }
  assert (∀ z, z ∈ ra ++ rb → z ≠ t) as Hnt.
  { intros z Hz ->. apply elem_of_cons in Ht as [Ht|Ht].
    - apply Hh. rewrite <- Ht. right. apply elem_of_app. right.
      apply elem_of_app in Hz as [Hz|Hz]; apply elem_of_app; [by left|].
      right. by right.
    - apply (Hdis t Ht).
      apply elem_of_app in Hz as [Hz|Hz]; apply elem_of_app; [by left|].
      right. by right. }
  apply nchain_first in Hnb as (Hyn & Hnb).
  apply returns_bind, returns_get_next; [done|]. rewrite Hyn.
  unfold splice.
  apply returns_bind, returns_bind, returns_set_prev; [done|].
  apply returns_set_next; [by rewrite alive_with_prev|].
  apply returns_ret. eexists. split; [done|].
  fold t. split_and!; try done.
  - by rewrite last_snoc.
  - by rewrite <- Hmove.
  - apply chain_push; try done. apply NoDup_cons. split; [|done].
    intros Hho. apply Hh. right. apply elem_of_app. by left.
  - eapply nchain_frame; [exact Hna|]. intros z Hz. rewrite removelast_last in Hz.
    rewrite nxt_with_next_ne, nxt_with_prev; [done|].
    apply Hnt. apply elem_of_app. by left.
  - eapply nchain_frame; [exact Hnb|]. intros z Hz. rewrite removelast_last in Hz.
    rewrite nxt_with_next_ne, nxt_with_prev; [done|].
    apply Hnt. apply elem_of_app. by right.
  - intros z. by rewrite value_with_next, value_with_prev.
  - intros z. by rewrite alive_with_next, alive_with_prev.
  - intros z Hz. rewrite nodes_with_next_ne, nodes_with_prev_ne; [by apply Hfr| |].
    + intros ->. apply Hz, Hall. apply elem_of_app. right. apply elem_of_app. right. left.
    + intros ->. apply Hz. apply elem_of_cons in Ht as [->|Ht]; [left|].
      apply Hall. apply elem_of_app. by left.
Qed.

(** Closing the new chain onto the sentinel. *)
Lemma chain_close s (h : loc) out :
  chain s (h :: out) → NoDup (h :: out) →
  alive s (default h (last out)) → alive s h →
  chain (with_prev h (Some (default h (last out)))
           (with_next (default h (last out)) (Some h) s)) (h :: out ++ [h]).
Proof.
  intros Hc Hnd At Ah.
  destruct out as [|t out _] using rev_ind.
  - cbn [app last default] in *. rewrite chain_cons. split_and!.
    + by rewrite nxt_with_prev, nxt_with_next_eq.
    + rewrite prv_with_prev_eq; [done|]. by rewrite alive_with_next.
    + done.
  - rewrite last_snoc in *. cbn [default] in *.
    rewrite <- app_assoc. cbn [app]. rewrite app_comm_cons.
    rewrite app_comm_cons in Hnd, Hc.
    pose proof Hnd as Hnd'. apply NoDup_app in Hnd' as (_ & Hd & _).
    apply chain_snoc.
    + eapply chain_frame; [exact Hc| |].
      * intros z Hz. rewrite removelast_last in Hz.
        rewrite nxt_with_prev, nxt_with_next_ne; [done|].
        intros ->. apply (Hd t Hz). left.
      * intros z Hz. rewrite prv_with_prev_ne, prv_with_next; [done|].
        intros ->. cbn [app tail] in Hz.
        by apply NoDup_cons in Hnd as [? _].
    + by rewrite nxt_with_prev, nxt_with_next_eq.
    + rewrite prv_with_prev_eq; [done|]. by rewrite alive_with_next.
Qed.

Lemma values_zip s ps (vs : list T) :
  values s ps vs → Forall (λ p, value_at s p.1 = Some p.2) (zip ps vs).
Proof. induction 1; constructor; done. Qed.

Lemma zip_values s (l : list (loc * T)) :
  Forall (λ p, value_at s p.1 = Some p.2) l → values s l.*1 l.*2.
Proof. induction 1; constructor; done. Qed.

Lemma merge_close s this h na other oh nb all out a b tail s1 (n : Z) :
  lists s !! this = Some (ListObj (Some h) na) →
  lists s !! other = Some (ListObj (Some oh) nb) →
  this ≠ other →
  merge_shape s h oh all out [] [] a b tail s1 →
  n = Z.of_nat (length out) → n < 2 ^ 64 →
  returns (h <- get_head this;; set_next tail h;;
           h <- get_head this;; set_prev h tail;;
           oh <- get_head other;; set_prev oh oh;; set_next oh oh;;
           set_sz other 0;;
           set_sz this n)
    (λ _ s', is_list s' this h out ∧ is_list s' other oh [] ∧
       (∀ x, value_at s' x = value_at s x) ∧
       (∀ x, alive s' x ↔ alive s x) ∧
       same_nodes_outside s s' (h :: oh :: all) ∧
       same_lists_except s s' [this; other]) s1.
Proof.
  intros Hobja Hobjb Hne
    (_ & _ & -> & Hnd & Hperm & Hc & _ & _ & Hval & Hal & Hls & Hfr & Hin) -> Hn.
  rewrite !app_nil_r in *.
  set (t := default h (last out)).
  assert (t ∈ h :: out) as Ht by apply last_default_in.
  assert (∀ z, z ∈ h :: out → z ∈ h :: oh :: all) as Hall.
  { intros z Hz. apply elem_of_cons in Hz as [->|Hz]; [left|].
    right. right. by rewrite <- Hperm. }
  assert (alive s1 t) as At by (by apply Hal, Hin, Hall).
  assert (alive s1 h) as Ah by (apply Hal, Hin; left).
  assert (alive s1 oh) as Aoh by (apply Hal, Hin; right; left).
  pose proof Hnd as Hnd'.
  apply NoDup_cons in Hnd' as [Hh Hnd']. apply NoDup_cons in Hnd' as [Hoh Hndo].
  assert (h ≠ oh) as Hhoh by (intros ->; apply Hh; left).
  assert (NoDup (h :: out)) as Hndh.
  { apply NoDup_cons. split; [|done]. intros ?. apply Hh. by right. }
  assert (oh ∉ h :: out) as Hoho.
  { intros Hx. apply elem_of_cons in Hx as [?|?]; [by subst|done]. }
  apply returns_bind. eapply returns_get_head; [rewrite Hls; exact Hobja|]. cbn [head].
  apply returns_bind, returns_set_next; [done|].
  apply returns_bind. eapply returns_get_head; [cbn; rewrite Hls; exact Hobja|]. cbn [head].
  apply returns_bind, returns_set_prev; [by rewrite alive_with_next|].
  apply returns_bind. eapply returns_get_head; [cbn; rewrite Hls; exact Hobjb|]. cbn [head].
  apply returns_bind, returns_set_prev; [by rewrite alive_with_prev, alive_with_next|].
  apply returns_bind, returns_set_next.
  { by rewrite !alive_with_prev, alive_with_next. }
  apply returns_bind. eapply returns_set_sz; [cbn; rewrite Hls; exact Hobjb|].
  eapply returns_set_sz.
  { rewrite lists_with_sz_ne by done. cbn. rewrite Hls. exact Hobja. }
  set (s2 := with_prev h (Some t) (with_next t (Some h) s1)).
  set (s3 := with_next oh (Some oh) (with_prev oh (Some oh) s2)).
  assert (chain s2 (h :: out ++ [h])) as Hc2 by (by apply chain_close).
  assert (∀ z, z ≠ oh → nodes s3 !! z = nodes s2 !! z) as Hs3.
  { intros z Hz. subst s3. by rewrite nodes_with_next_ne, nodes_with_prev_ne. }
  split_and!.
  - split_and!.
    + rewrite (lists_with_sz_eq _ _ _ (ListObj (Some h) na)); [done|].
      rewrite lists_with_sz_ne by done. cbn. rewrite Hls. exact Hobja.
    + done.
    + eapply (chain_frame_nodes s2); [done|]. intros z Hz. apply Hs3. intros ->.
      apply Hoho. rewrite app_comm_cons in Hz. apply elem_of_app in Hz as [Hz|Hz]; [done|].
      apply list_elem_of_singleton in Hz. by subst.
    + done.
  - split_and!.
    + rewrite lists_with_sz_ne by done.
      rewrite (lists_with_sz_eq _ _ _ (ListObj (Some oh) nb)); [done|].
      cbn. rewrite Hls. exact Hobjb.
    + apply NoDup_singleton.
    + cbn [app]. rewrite chain_cons, !nxt_with_sz, !prv_with_sz. subst s3.
      rewrite prv_with_next.
      rewrite nxt_with_next_eq by (subst s2; by rewrite !alive_with_prev, alive_with_next).
      rewrite prv_with_prev_eq by (subst s2; by rewrite alive_with_prev, alive_with_next).
      done.
    + done.
  - intros z. rewrite !value_with_sz. subst s3 s2.
    by rewrite value_with_next, !value_with_prev, value_with_next.
  - intros z. rewrite !alive_with_sz. subst s3 s2.
    by rewrite alive_with_next, !alive_with_prev, alive_with_next.
  - intros z Hz _. unfold with_sz, upd_list. cbn [nodes].
    rewrite Hs3 by (intros ->; apply Hz; right; left).
    subst s2. rewrite nodes_with_prev_ne, nodes_with_next_ne.
    + by apply Hfr.
    + intros ->. by apply Hz, Hall.
    + intros ->. apply Hz. left.
  - intros l Hl. rewrite !not_elem_of_cons in Hl. destruct Hl as (? & ? & _).
    rewrite !lists_with_sz_ne by done. cbn. by rewrite Hls.
Qed.

Lemma merge_spec fuel s this h psa vsa other oh psb vsb :
  is_list s this h psa → values s psa vsa →
  is_list s other oh psb → values s psb vsb →
  apart (h :: psa) (oh :: psb) → this ≠ other → psb ≠ [] →
  Z.of_nat (length psa) + Z.of_nat (length psb) < 2 ^ 64 →
  (length psa + length psb < fuel)%nat →
  returns (merge ltb fuel this other)
    (λ _ s',
       let merged := merge_lists (λ p q, ltb p.2 q.2) (zip psa vsa) (zip psb vsb) in
       is_list s' this h merged.*1 ∧ values s' merged.*1 merged.*2 ∧
       is_list s' other oh [] ∧
       (∀ x, value_at s' x = value_at s x) ∧
       (∀ x, alive s' x ↔ alive s x) ∧
       same_nodes_outside s s' (h :: oh :: psa ++ psb) ∧
       same_lists_except s s' [this; other]) s.
Proof.
  intros Hla Hva Hlb Hvb Hap Hne Hnonempty Hsz Hfuel.
  pose proof Hla as (Hobja & Hnda & Hca & _).
  pose proof Hlb as (Hobjb & Hndb & Hcb & _).
  set (lt2 := λ p q : loc * T, ltb p.2 q.2).
  set (merged := merge_lists lt2 (zip psa vsa) (zip psb vsb)).
  pose proof (values_length _ _ _ Hva) as Hlena.
  pose proof (values_length _ _ _ Hvb) as Hlenb.
  assert ((zip psa vsa).*1 = psa) as Hfa by (apply fst_zip; lia).
  assert ((zip psb vsb).*1 = psb) as Hfb by (apply fst_zip; lia).
  assert (alive s h) as Ah by (eapply is_list_alive; [exact Hla|left]).
  assert (alive s oh) as Aoh by (eapply is_list_alive; [exact Hlb|left]).
  assert (h ≠ oh) as Hhoh.
  { intros ->. apply (Hap oh); left. }
  assert (NoDup (h :: oh :: psa ++ psb)) as Hndall.
  { apply NoDup_cons in Hnda as [Hha Hnda]. apply NoDup_cons in Hndb as [Hhb Hndb].
    apply NoDup_cons. split.
    { rewrite elem_of_cons, elem_of_app. intros [?|[?|?]]; try done.
      apply (Hap h); [left|by right]. }
    apply NoDup_cons. split.
    { rewrite elem_of_app. intros [?|?]; try done.
      apply (Hap oh); [by right|left]. }
    apply NoDup_app. split_and!; try done.
    intros z Hz Hz'. apply (Hap z); by right. }
  unfold merge.
  rewrite bool_decide_eq_false_2 by done.
  apply returns_bind, returns_bind. eapply returns_get_sz; [exact Hobjb|]. cbn [sz].
  apply returns_ret.
  destruct (Z.eqb_spec (Z.of_nat (length psb)) 0) as [E|_].
  { destruct psb; [done|]. cbn in E. lia. }
  apply returns_bind. eapply returns_get_head; [exact Hobja|]. cbn [head].
  apply returns_bind, returns_get_next; [done|]. erewrite nxt_sentinel by exact Hla.
  apply returns_bind. eapply returns_get_head; [exact Hobjb|]. cbn [head].
  apply returns_bind, returns_get_next; [done|]. erewrite nxt_sentinel by exact Hlb.
  apply returns_bind. eapply returns_get_head; [exact Hobja|]. cbn [head].
  apply returns_bind. eapply returns_get_head; [exact Hobja|]. cbn [head].
  apply returns_bind, returns_set_prev; [done|].
  apply returns_bind, returns_set_next; [by rewrite alive_with_prev|].
  set (s1 := with_next h (Some h) (with_prev h (Some h) s)).
  apply returns_bind. eapply returns_get_sz; [exact Hobja|]. cbn [sz].
  apply returns_bind. eapply returns_get_sz; [exact Hobjb|]. cbn [sz].
  assert (merge_shape s h oh (psa ++ psb) [] psa psb
            (Some (default h (psa !! 0%nat))) (Some (default oh (psb !! 0%nat)))
            (Some h) s1) as Hshape.
  { split_and!; try done.
    - apply chain_nchain in Hca. eapply nchain_frame.
      + by apply (nchain_first s h psa h) in Hca as [_ ?].
      + intros z Hz. rewrite removelast_last in Hz. subst s1.
        rewrite nxt_with_next_ne, nxt_with_prev; [done|]. intros ->.
        by apply NoDup_cons in Hnda as [? _].
    - apply chain_nchain in Hcb. eapply nchain_frame.
      + by apply (nchain_first s oh psb oh) in Hcb as [_ ?].
      + intros z Hz. rewrite removelast_last in Hz. subst s1.
        rewrite nxt_with_next_ne, nxt_with_prev; [done|]. intros ->.
        apply (Hap h); [left|by right].
    - intros z. subst s1. by rewrite value_with_next, value_with_prev.
    - intros z. subst s1. by rewrite alive_with_next, alive_with_prev.
    - intros z Hz. subst s1.
      rewrite nodes_with_next_ne, nodes_with_prev_ne; [done| |];
        intros ->; apply Hz; left.
    - intros z Hz. rewrite !elem_of_cons, elem_of_app in Hz.
      destruct Hz as [->|[->|[Hz|Hz]]]; try done.
      + eapply is_list_alive; [exact Hla|by right].
      + eapply is_list_alive; [exact Hlb|by right]. }
  assert (Forall (λ p, value_at s p.1 = Some p.2) (zip psa vsa ++ zip psb vsb)) as Hvals.
  { apply Forall_app; split; by apply values_zip. }
  assert (lists s1 = lists s) as Hls1 by done.
  clearbody s1.
  assert (length merged.*1 = (length psa + length psb)%nat) as Hlenm.
  { rewrite length_fmap. unfold merged. rewrite merge_lists_perm, length_app.
    rewrite !length_zip. lia. }
  assert (Forall (λ p, value_at s p.1 = Some p.2) merged) as Hvm.
  { unfold merged. by rewrite merge_lists_perm. }
  apply returns_bind.
  match goal with |- returns (while_ _ _ _ _) ?Q _ =>
    assert (∀ ra rb a b tail out s2,
      (ra = [] ∨ rb = []) →
      out ++ merge_lists lt2 ra rb = merged →
      merge_shape s h oh (psa ++ psb) out.*1 ra.*1 rb.*1 a b tail s2 →
      Forall (λ p, value_at s p.1 = Some p.2) (ra ++ rb) →
      Q (a, b, tail) s2) as Hrest
  end.
  { intros ra rb a b tail out s2 Hor Hm Hsh Hv. cbn beta iota.
    assert (∀ (out ra rb : list (loc * T)) a b tail sx,
              merge_shape s h oh (psa ++ psb) out.*1 ra.*1 rb.*1 a b tail sx →
              (length ra < fuel)%nat ∧ (length rb < fuel)%nat) as Hbound.
    { intros out' ra' rb' a' b' tail' s' (_ & _ & _ & _ & Hp & _).
      apply Permutation_length in Hp. rewrite !length_app, !length_fmap in Hp. lia. }
    apply returns_bind.
    eapply (returns_loop
      (λ (ra : list (loc * T)) (v : pointer * pointer) s3,
         ∃ out rb, (ra = [] ∨ rb = []) ∧
           out ++ merge_lists lt2 ra rb = merged ∧
           merge_shape s h oh (psa ++ psb) out.*1 ra.*1 rb.*1 v.1 b v.2 s3 ∧
           Forall (λ p, value_at s p.1 = Some p.2) (ra ++ rb))
      length _ _ _ _ ra).
    - by exists out, rb.
    - by destruct (Hbound _ _ _ _ _ _ _ Hsh).
    - clear dependent ra rb out s2 a tail.
      intros ra [a tail] s2 (out & rb & Hor & Hm & Hsh & Hv). cbn [fst snd] in *.
      pose proof Hsh as (-> & Hb & -> & Hnd & Hperm & Hc & Hna & Hnb & Hval & Hal
                         & Hls & Hfr & Hin).
      apply returns_bind. eapply returns_get_head; [rewrite Hls; exact Hobja|]. cbn [head].
      apply returns_ret. split; [done|].
      destruct ra as [|[x xv] ra]; cbn [fmap list_fmap fst] in *; simpl (default _ _).
      + rewrite (bool_decide_eq_false_2 (Some h ≠ Some h)) by (by intros H; apply H).
        apply returns_bind.
        eapply (returns_loop
          (λ (rb : list (loc * T)) (v : pointer * pointer) s3,
             ∃ out, out ++ rb = merged ∧
               merge_shape s h oh (psa ++ psb) out.*1 [] rb.*1 (Some h) v.1 v.2 s3 ∧
               Forall (λ p, value_at s p.1 = Some p.2) rb)
          length _ _ _ _ rb).
        * by exists out.
        * by destruct (Hbound out [] rb _ _ _ _ Hsh).
        * clear dependent rb out s2.
          intros rb [b' tail] s2 (out & Hm & Hsh & Hv). cbn [fst snd] in *.
          pose proof Hsh as (_ & -> & -> & Hnd3 & _ & _ & _ & _ & _ & _ & Hls3 & _ & _).
          apply returns_bind. eapply returns_get_head; [rewrite Hls3; exact Hobjb|].
          cbn [head]. apply returns_ret. split; [done|].
          destruct rb as [|[y yv] rb]; cbn [fmap list_fmap fst] in *; simpl (default _ _).
          -- rewrite (bool_decide_eq_false_2 (Some oh ≠ Some oh)) by (by intros H; apply H).
             cbn beta iota. rewrite app_nil_r in Hm. subst out.
             eapply returns_mono.
             { eapply (merge_close s this h _ other oh _ (psa ++ psb) merged.*1);
                 [exact Hobja|exact Hobjb|done|exact Hsh| |].
               - rewrite Hlenm, Nat2Z.inj_add. unfold wrap64. rewrite Z.mod_small; lia.
               - unfold wrap64. rewrite Z.mod_small; lia. }
             intros _ s' (Hl' & Hlo' & Hval' & Hal' & Hout' & Hls').
             split_and!; try done.
             eapply values_frame; [by apply zip_values|]. intros z _. apply Hval'.
          -- assert (y ≠ oh) as Hyoh.
             { intros ->. apply NoDup_cons in Hnd3 as [_ Hnd3].
               apply NoDup_cons in Hnd3 as [Hh _].
               apply Hh. apply elem_of_app. right. left. }
             rewrite (bool_decide_eq_true_2 (Some y ≠ Some oh)) by congruence.
             apply Forall_cons in Hv as [Hyv Hv].
             eapply returns_mono.
             { eapply (merge_take_b _ _ _ _ _ _ _ _ _ _ _ (λ nb, (nb, Some y))).
               exact Hsh. }
             intros r s3 (nb & -> & Hsh3).
             exists rb. split; [|cbn; lia].
             exists (out ++ [(y, yv)]). cbn [fst snd].
             rewrite fmap_app, <- app_assoc. cbn [fmap list_fmap fst app].
             done.
      + assert (x ≠ h) as Hxh.
        { intros ->. apply NoDup_cons in Hnd as [Hh _]. apply Hh. right.
          apply elem_of_app. right. left. }
        rewrite (bool_decide_eq_true_2 (Some x ≠ Some h)) by congruence.
        destruct Hor as [? | ->]; [done|].
        rewrite merge_lists_nil_r in Hm.
        rewrite app_nil_r in Hv. apply Forall_cons in Hv as [Hxv Hv].
        eapply returns_mono.
        { eapply (merge_take_a _ _ _ _ _ _ _ _ _ _ _ (λ na, (na, Some x))).
          exact Hsh. }
        intros r s3 (na & -> & Hsh3).
        exists ra. split; [|cbn; lia].
        exists (out ++ [(x, xv)]), []. cbn [fst snd].
        rewrite fmap_app, <- app_assoc, merge_lists_nil_r, app_nil_r.
        cbn [fmap list_fmap fst app].
        split_and!; try done. by right. }
  eapply (returns_loop
    (λ (g : list (loc * T) * list (loc * T)) (v : pointer * pointer * pointer) s2,
       ∃ out, out ++ merge_lists lt2 g.1 g.2 = merged ∧
         merge_shape s h oh (psa ++ psb) out.*1 g.1.*1 g.2.*1 v.1.1 v.1.2 v.2 s2 ∧
         Forall (λ p, value_at s p.1 = Some p.2) (g.1 ++ g.2))
    (λ g, (length g.1 + length g.2)%nat) _ _ _ _ (zip psa vsa, zip psb vsb)).
  - exists []. cbn [fst snd app fmap list_fmap]. rewrite Hfa, Hfb. done.
  - cbn [fst snd]. rewrite !length_zip. lia.
  - intros [ra rb] [[a b] tail] s2 (out & Hm & Hsh & Hv). cbn [fst snd] in *.
    pose proof Hsh as (-> & -> & -> & Hnd & Hperm & Hc & Hna & Hnb & Hval & Hal
                       & Hls & Hfr & Hin).
    apply returns_bind. eapply returns_get_head; [rewrite Hls; exact Hobja|]. cbn [head].
    apply returns_bind. eapply returns_get_head; [rewrite Hls; exact Hobjb|]. cbn [head].
    apply returns_ret. split; [done|].
    rewrite !(bool_decide_eq_true_2 (Some _ ≠ None)) by done. cbn [andb].
    destruct ra as [|[x xv] ra]; cbn [fmap list_fmap fst] in *; simpl (default _ _).
    { rewrite (bool_decide_eq_false_2 (Some h ≠ Some h)) by (by intros H; apply H).
      cbn [andb]. apply (Hrest [] rb _ _ _ out); try done. by left. }
    assert (x ≠ h) as Hxh.
    { intros ->. apply NoDup_cons in Hnd as [Hh _]. apply Hh. right.
      apply elem_of_app. right. left. }
    rewrite (bool_decide_eq_true_2 (Some x ≠ Some h)) by congruence. cbn [andb].
    destruct rb as [|[y yv] rb]; cbn [fmap list_fmap fst] in *; simpl (default _ _).
    { rewrite (bool_decide_eq_false_2 (Some oh ≠ Some oh)) by (by intros H; apply H).
      apply (Hrest ((x, xv) :: ra) [] _ _ _ out); try done. by right. }
    assert (y ≠ oh) as Hyoh.
    { intros ->. apply NoDup_cons in Hnd as [_ Hnd]. apply NoDup_cons in Hnd as [Hh _].
      apply Hh. apply elem_of_app. right. right. apply elem_of_app. right. left. }
    rewrite (bool_decide_eq_true_2 (Some y ≠ Some oh)) by congruence.
    pose proof Hv as Hv'.
    apply Forall_cons in Hv' as [Hxv Hv']. apply Forall_app in Hv' as [Hva' Hvb'].
    apply Forall_cons in Hvb' as [Hyv Hvb']. cbn [fst snd] in Hxv, Hyv.
    apply returns_bind. eapply returns_deref_val; [by rewrite Hval|].
    apply returns_bind. eapply returns_deref_val; [by rewrite Hval|].
    rewrite merge_lists_cons in Hm. unfold lt2 in Hm at 1. cbn [fst snd] in Hm.
    destruct (ltb yv xv) eqn:E.
    + eapply returns_mono.
      { eapply (merge_take_b _ _ _ _ _ _ _ _ _ _ _ (λ nb, (Some x, nb, Some y))).
        exact Hsh. }
      intros r s3 (nb & -> & Hsh3).
      exists ((x, xv) :: ra, rb). split; [|cbn; lia].
      exists (out ++ [(y, yv)]). cbn [fst snd fmap list_fmap].
      rewrite fmap_app, <- app_assoc. cbn [fmap list_fmap fst app].
      split_and!; try done.
      apply Forall_cons. split; [done|]. apply Forall_app. done.
    + eapply returns_mono.
      { eapply (merge_take_a _ _ _ _ _ _ _ _ _ _ _ (λ na, (na, Some y, Some x))).
        exact Hsh. }
      intros r s3 (na & -> & Hsh3).
      exists (ra, (y, yv) :: rb). split; [|cbn; lia].
      exists (out ++ [(x, xv)]). cbn [fst snd fmap list_fmap].
      rewrite fmap_app, <- app_assoc. cbn [fmap list_fmap fst app].
      split_and!; try done.
      apply Forall_app. split; [done|]. apply Forall_cons. done.
Qed.

End merging.

(** ** sort *)

Section order.
Context {A : Type} (lt : A → A → bool) (Hlt : strict_weak_order lt).

Lemma lt_asym x y : lt x y = true → lt y x = false.
Proof.
  intros H. destruct (lt y x) eqn:E; [|done].
  pose proof (swo_trans lt Hlt x y x H E) as H'.
  by rewrite (swo_irrefl lt Hlt) in H'.
Qed.

(** [x ≤ y ≤ z] gives [x ≤ z], with [x ≤ y] read as "not [y < x]". *)
Lemma le_trans x y z : lt y x = false → lt z y = false → lt z x = false.
Proof.
  intros Hxy Hyz. destruct (lt z x) eqn:Hzx; [|done].
  destruct (lt x y) eqn:Hxy'.
  { pose proof (swo_trans lt Hlt z x y Hzx Hxy'). congruence. }
  destruct (lt y z) eqn:Hyz'.
  { pose proof (swo_trans lt Hlt y z x Hyz' Hzx). congruence. }
  destruct (swo_incomp lt Hlt x y z Hxy' Hxy Hyz' Hyz). congruence.
Qed.

End order.

Section machine.

Lemma wrap32_small z : -2 ^ 31 ≤ z < 2 ^ 31 → wrap32 z = z.
Proof. intros H. unfold wrap32. rewrite Z.mod_small; lia. Qed.

Lemma wrap64_small z : 0 ≤ z < 2 ^ 64 → wrap64 z = z.
Proof. intros H. unfold wrap64. rewrite Z.mod_small; lia. Qed.

End machine.

Section scanning.
Context {T : Type} (ltb : T → T → bool).
Implicit Types (s : store T) (al : list (loc * T)).

Lemma ptrs_lookup al i x : al !! i = Some x → ptrs al !! i = Some (Some x.1).
Proof. intros H. unfold ptrs. by rewrite list_lookup_fmap, H. Qed.

Lemma keyed_lookup s al i x : keyed s al → al !! i = Some x → value_at s x.1 = Some x.2.
Proof. intros H Hi. by eapply (Forall_lookup_1 _ _ _ _ H Hi). Qed.

Lemma scan_up_spec fuel s al pv pvv i k xk :
  keyed s al → value_at s pv = Some pvv →
  0 ≤ i ≤ k → al !! Z.to_nat k = Some xk → ltb xk.2 pvv = false →
  Z.of_nat (length al) < 2 ^ 31 → (Z.to_nat (k - i) < fuel)%nat →
  returns (scan_up ltb fuel (ptrs al) (Some pv) i)
    (λ i' s', s' = s ∧ i ≤ i' ≤ k ∧
       (∀ q x, i ≤ q < i' → al !! Z.to_nat q = Some x → ltb x.2 pvv = true) ∧
       (∃ x, al !! Z.to_nat i' = Some x ∧ ltb x.2 pvv = false)) s.
Proof.
  intros Hk Hpv Hik Hxk Hsent Hlen Hfuel.
  pose proof (lookup_lt_Some _ _ _ Hxk) as Hklt.
  unfold scan_up.
  eapply (returns_while
    (λ i1 s1, s1 = s ∧ i ≤ i1 ≤ k ∧
       ∀ q x, i ≤ q < i1 → al !! Z.to_nat q = Some x → ltb x.2 pvv = true)
    (λ i1 _, Z.to_nat (k - i1))).
  - split_and!; try done; try lia.
  - done.
  - intros i1 s1 (-> & Hi1 & Hbelow).
    destruct (lookup_lt_is_Some_2 al (Z.to_nat i1)) as [x Hx]; [lia|].
    apply returns_bind. eapply returns_arr_get; [lia|by apply ptrs_lookup|].
    apply returns_bind. eapply returns_deref_val; [by eapply keyed_lookup|].
    apply returns_bind. eapply returns_deref_val; [done|].
    apply returns_ret. split; [done|].
    destruct (ltb x.2 pvv) eqn:E.
    + assert (i1 ≠ k) as Hne.
      { intros ->. rewrite Hxk in Hx. injection Hx as <-. congruence. }
      apply returns_ret. rewrite wrap32_small by lia.
      split_and!; try done; try lia.
      intros q y Hq Hy. destruct (decide (q = i1)) as [->|].
      * rewrite Hx in Hy. by injection Hy as <-.
      * apply (Hbelow q); [lia|done].
    + split_and!; try done; try lia. by exists x.
Qed.

Lemma scan_down_spec fuel s al pv pvv j k xk :
  keyed s al → value_at s pv = Some pvv →
  0 ≤ k ≤ j → j < Z.of_nat (length al) →
  al !! Z.to_nat k = Some xk → ltb pvv xk.2 = false →
  Z.of_nat (length al) < 2 ^ 31 → (Z.to_nat (j - k) < fuel)%nat →
  returns (scan_down ltb fuel (ptrs al) (Some pv) j)
    (λ j' s', s' = s ∧ k ≤ j' ≤ j ∧
       (∀ q x, j' < q ≤ j → al !! Z.to_nat q = Some x → ltb pvv x.2 = true) ∧
       (∃ x, al !! Z.to_nat j' = Some x ∧ ltb pvv x.2 = false)) s.
Proof.
  intros Hk Hpv Hkj Hjlt Hxk Hsent Hlen Hfuel.
  unfold scan_down.
  eapply (returns_while
    (λ j1 s1, s1 = s ∧ k ≤ j1 ≤ j ∧
       ∀ q x, j1 < q ≤ j → al !! Z.to_nat q = Some x → ltb pvv x.2 = true)
    (λ j1 _, Z.to_nat (j1 - k))).
  - split_and!; try done; try lia.
  - done.
  - intros j1 s1 (-> & Hj1 & Habove).
    destruct (lookup_lt_is_Some_2 al (Z.to_nat j1)) as [x Hx]; [lia|].
    apply returns_bind. eapply returns_deref_val; [done|].
    apply returns_bind. eapply returns_arr_get; [lia|by apply ptrs_lookup|].
    apply returns_bind. eapply returns_deref_val; [by eapply keyed_lookup|].
    apply returns_ret. split; [done|].
    destruct (ltb pvv x.2) eqn:E.
    + assert (j1 ≠ k) as Hne.
      { intros ->. rewrite Hxk in Hx. injection Hx as <-. congruence. }
      apply returns_ret. rewrite wrap32_small by lia.
      split_and!; try done; try lia.
      intros q y Hq Hy. destruct (decide (q = j1)) as [->|].
      * rewrite Hx in Hy. by injection Hy as <-.
      * apply (Habove q); [lia|done].
    + split_and!; try done; try lia. by exists x.
Qed.

End scanning.

(** *** One partition *)

Section partitioning.
Context {T : Type} (ltb : T → T → bool) (Hlt : strict_weak_order ltb).
Implicit Types (s : store T) (al : list (loc * T)).

Lemma lookup_swap {A} (l : list A) I J x y q :
  l !! I = Some x → l !! J = Some y →
  <[J:=x]> (<[I:=y]> l) !! q
  = if decide (q = J) then Some x else if decide (q = I) then Some y else l !! q.
Proof.
  intros HI HJ.
  pose proof (lookup_lt_Some _ _ _ HI). pose proof (lookup_lt_Some _ _ _ HJ).
  destruct (decide (q = J)) as [->|].
  - rewrite list_lookup_insert_eq; [done|]. by rewrite length_insert.
  - rewrite list_lookup_insert_ne by done.
    destruct (decide (q = I)) as [->|].
    + by rewrite list_lookup_insert_eq.
    + by rewrite list_lookup_insert_ne.
Qed.

Lemma ptrs_insert al i x : <[i := Some x.1]> (ptrs al) = ptrs (<[i := x]> al).
Proof. unfold ptrs. by rewrite list_fmap_insert. Qed.

Lemma ptrs_length al : length (ptrs al) = length al.
Proof. unfold ptrs. by rewrite length_fmap. Qed.

Lemma keyed_perm s al al' : al' ≡ₚ al → keyed s al → keyed s al'.
Proof. unfold keyed. by intros ->. Qed.

Lemma partition_spec fuel s al pv pvv l r m xm :
  keyed s al → value_at s pv = Some pvv →
  0 ≤ l → l < r → r < Z.of_nat (length al) →
  l ≤ m ≤ r → al !! Z.to_nat m = Some xm →
  ltb xm.2 pvv = false → ltb pvv xm.2 = false →
  Z.of_nat (length al) ≤ 2 ^ 30 + 1 → (length al + 1 < fuel)%nat →
  returns (partition ltb fuel (ptrs al) (Some pv) l r)
    (λ res s', s' = s ∧ ∃ al' i j, res = (ptrs al', i, j) ∧
       length al' = length al ∧ al' ≡ₚ al ∧
       (∀ q, 0 ≤ q → q < l ∨ r < q → al' !! Z.to_nat q = al !! Z.to_nat q) ∧
       (∀ q, l ≤ q ≤ r → ∃ q', l ≤ q' ≤ r ∧ al' !! Z.to_nat q = al !! Z.to_nat q') ∧
       l < i ≤ r + 1 ∧ l - 1 ≤ j < r ∧ j < i ∧
       (∀ q x, l ≤ q < i → al' !! Z.to_nat q = Some x → ltb pvv x.2 = false) ∧
       (∀ q x, j < q ≤ r → al' !! Z.to_nat q = Some x → ltb x.2 pvv = false)) s.
Proof.
  intros Hk Hpv Hl Hlr Hr Hm Hxm Hm1 Hm2 Hlen Hfuel.
  unfold partition.
  eapply (returns_while
    (λ v s1, s1 = s ∧ ∃ al1 i j, v = (ptrs al1, i, j) ∧
       length al1 = length al ∧ al1 ≡ₚ al ∧
       (∀ q, 0 ≤ q → q < l ∨ r < q → al1 !! Z.to_nat q = al !! Z.to_nat q) ∧
       (∀ q, l ≤ q ≤ r → ∃ q', l ≤ q' ≤ r ∧ al1 !! Z.to_nat q = al !! Z.to_nat q') ∧
       l ≤ i ≤ r + 1 ∧ l - 1 ≤ j ≤ r ∧
       (∀ q x, l ≤ q < i → al1 !! Z.to_nat q = Some x → ltb pvv x.2 = false) ∧
       (∀ q x, j < q ≤ r → al1 !! Z.to_nat q = Some x → ltb x.2 pvv = false) ∧
       ((i = l ∧ j = r ∧ ∃ m x, l ≤ m ≤ r ∧ al1 !! Z.to_nat m = Some x ∧
            ltb x.2 pvv = false ∧ ltb pvv x.2 = false) ∨
        (l < i ∧ j < r ∧
           (i ≤ j →
              (∃ k x, i ≤ k ≤ r ∧ al1 !! Z.to_nat k = Some x ∧ ltb x.2 pvv = false) ∧
              (∃ k x, l ≤ k ≤ j ∧ al1 !! Z.to_nat k = Some x ∧ ltb pvv x.2 = false)))))
    (λ v _, Z.to_nat (v.2 - v.1.2 + 1))).
  - split; [done|]. exists al, l, r. split_and!; try done; try lia.
    + intros q Hq. by exists q.
    + left. split_and!; try done. by exists m, xm.
  - cbn [fst snd]. lia.
  - intros v s1 (-> & al1 & i & j & -> & Hlen1 & Hperm & Hout & Hin & Hi & Hj
                 & Hbelow & Habove & Hprog).
    cbn beta iota. apply returns_ret. split; [done|].
    destruct (Z.leb_spec i j) as [Hij|Hij].
    2:{ split; [done|]. exists al1, i, j. split_and!; try done; try lia. }
    assert (keyed s al1) as Hk1 by (by eapply keyed_perm).
    assert (∃ ku xu kd xd,
              (i ≤ ku ≤ r ∧ al1 !! Z.to_nat ku = Some xu ∧ ltb xu.2 pvv = false) ∧
              (l ≤ kd ≤ j ∧ al1 !! Z.to_nat kd = Some xd ∧ ltb pvv xd.2 = false) ∧
              ((l < i ∧ j < r) ∨ ku ≤ kd))
      as (ku & xu & kd & xd & (Hku & Hxu & Hsu) & (Hkd & Hxd & Hsd) & Hfirst).
    { destruct Hprog as [(-> & -> & k & x & ? & ? & ? & ?)|(? & ? & H)].
      - exists k, x, k, x. split_and!; try done; lia.
      - destruct (H Hij) as [(ku & xu & ? & ? & ?) (kd & xd & ? & ? & ?)].
        exists ku, xu, kd, xd. split_and!; try done; lia. }
    apply returns_bind. eapply returns_mono.
    { eapply (scan_up_spec ltb fuel s al1 pv pvv i ku xu); try done; lia. }
    intros i1 s' (-> & Hi1 & Hup & xi & Hxi & Hxi').
    apply returns_bind. eapply returns_mono.
    { eapply (scan_down_spec ltb fuel s al1 pv pvv j kd xd); try done; lia. }
    intros j1 s' (-> & Hj1 & Hdn & xj & Hxj & Hxj').
    assert (∀ q x, l ≤ q < i1 → al1 !! Z.to_nat q = Some x → ltb pvv x.2 = false)
      as Hbelow1.
    { intros q x Hq Hx. destruct (decide (q < i)).
      - apply (Hbelow q); [lia|done].
      - apply (lt_asym ltb Hlt). apply (Hup q); [lia|done]. }
    assert (∀ q x, j1 < q ≤ r → al1 !! Z.to_nat q = Some x → ltb x.2 pvv = false)
      as Habove1.
    { intros q x Hq Hx. destruct (decide (j < q)).
      - apply (Habove q); [lia|done].
      - apply (lt_asym ltb Hlt). apply (Hdn q); [lia|done]. }
    destruct (Z.leb_spec i1 j1) as [Hij1|Hij1].
    + apply returns_bind. eapply returns_arr_get; [lia|by apply ptrs_lookup|].
      apply returns_bind. eapply returns_arr_get; [lia|by apply ptrs_lookup|].
      pose proof (lookup_lt_Some _ _ _ Hxi) as Hli.
      pose proof (lookup_lt_Some _ _ _ Hxj) as Hlj.
      apply returns_bind, returns_arr_set; [rewrite ptrs_length; lia|].
      rewrite ptrs_insert.
      apply returns_bind, returns_arr_set; [rewrite ptrs_length, length_insert; lia|].
      rewrite ptrs_insert.
      apply returns_ret. rewrite !wrap32_small by lia.
      set (al2 := <[Z.to_nat j1:=xi]> (<[Z.to_nat i1:=xj]> al1)).
      assert (∀ q, al2 !! q = if decide (q = Z.to_nat j1) then Some xi
                else if decide (q = Z.to_nat i1) then Some xj else al1 !! q) as Hal2.
      { intros q. by apply lookup_swap. }
      split.
      * split; [done|]. exists al2, (i1 + 1), (j1 - 1).
        split_and!; try done; try lia.
        -- subst al2. by rewrite !length_insert.
        -- subst al2. rewrite <- Hperm. by apply Permutation_insert_swap.
        -- intros q Hq0 Hq. rewrite Hal2.
           rewrite !decide_False by lia. by apply Hout.
        -- intros q Hq. rewrite Hal2.
           destruct (decide (Z.to_nat q = Z.to_nat j1)).
           { rewrite <- Hxi. apply Hin. lia. }
           destruct (decide (Z.to_nat q = Z.to_nat i1)).
           { rewrite <- Hxj. apply Hin. lia. }
           by apply Hin.
        -- intros q x Hq. rewrite Hal2.
           destruct (decide (Z.to_nat q = Z.to_nat j1)).
           { intros [= <-]. assert (i1 = j1) as -> by lia.
             rewrite Hxi in Hxj. by injection Hxj as ->. }
           destruct (decide (Z.to_nat q = Z.to_nat i1)); [by intros [= <-]|].
           apply Hbelow1. lia.
        -- intros q x Hq. rewrite Hal2.
           destruct (decide (Z.to_nat q = Z.to_nat j1)); [by intros [= <-]|].
           destruct (decide (Z.to_nat q = Z.to_nat i1)).
           { intros [= <-]. assert (i1 = j1) as -> by lia.
             rewrite Hxi in Hxj. by injection Hxj as ->. }
           apply Habove1. lia.
        -- right. split_and!; try lia. intros Hle. split.
           ++ exists j1, xi. split_and!; try done; try lia.
              rewrite Hal2. by rewrite decide_True.
           ++ exists i1, xj. split_and!; try done; try lia.
              rewrite Hal2. rewrite decide_False by lia. by rewrite decide_True.
      * cbn [fst snd]. lia.
    + apply returns_ret. split.
      * split; [done|]. exists al1, i1, j1. split_and!; try done; try lia.
      * cbn [fst snd]. lia.
Qed.

End partitioning.

(** *** The explicit stack *)

Section stack.

Lemma ranges_ok_snoc n stk l r :
  ranges_ok n (stk ++ [(l, r)]) ↔
  ranges_ok n stk ∧ (0 ≤ l ∧ l < r ∧ r < n) ∧
  Forall (λ lr, lr.2 < l ∨ r < lr.1) stk.
Proof.
  induction stk as [|[l' r'] stk IH]; cbn [app ranges_ok].
  - rewrite !Forall_nil. tauto.
  - rewrite IH, Forall_app, Forall_singleton, Forall_cons. cbn [fst snd]. tauto.
Qed.

Lemma span_snoc stk l r : span (stk ++ [(l, r)]) = span stk + (r - l).
Proof.
  unfold span. induction stk as [|[l' r'] stk IH]; cbn [app foldr fst snd] in *; lia.
Qed.

Lemma span_length n stk : ranges_ok n stk → Z.of_nat (length stk) ≤ span stk.
Proof.
  unfold span. induction stk as [|[l r] stk IH]; cbn [ranges_ok foldr length fst snd].
  - lia.
  - intros (? & ? & ? & _ & Hok). apply IH in Hok. lia.
Qed.

Lemma stack_holds_pop L R top stk l r :
  stack_holds L R top (stk ++ [(l, r)]) →
  top = Z.of_nat (length stk) ∧
  L !! Z.to_nat top = Some l ∧ R !! Z.to_nat top = Some r ∧
  stack_holds L R (top - 1) stk.
Proof.
  intros [Htop Hk]. rewrite length_app in Htop. cbn [length] in Htop.
  assert (top = Z.of_nat (length stk)) as Htop' by lia.
  destruct (Hk (length stk) l r) as [HL HR].
  { rewrite lookup_app_r by lia. by rewrite Nat.sub_diag. }
  split_and!; try done.
  - by rewrite Htop', Nat2Z.id.
  - by rewrite Htop', Nat2Z.id.
  - split; [lia|]. intros k l' r' Hl'. apply Hk.
    rewrite lookup_app_l; [done|]. by eapply lookup_lt_Some.
Qed.

Lemma stack_holds_push L R top stk lo hi :
  stack_holds L R top stk →
  Z.of_nat (length stk) < Z.of_nat (length L) →
  Z.of_nat (length stk) < Z.of_nat (length R) →
  stack_holds (<[Z.to_nat (top + 1) := lo]> L) (<[Z.to_nat (top + 1) := hi]> R)
    (top + 1) (stk ++ [(lo, hi)]).
Proof.
  intros [Htop Hk] HL HR.
  assert (Z.to_nat (top + 1) = length stk) as -> by lia.
  split.
  - rewrite length_app. cbn [length]. lia.
  - intros k l r Hlr. apply lookup_app_Some in Hlr as [Hlr|[Hge Hlr]].
    + pose proof (lookup_lt_Some _ _ _ Hlr).
      rewrite !list_lookup_insert_ne by lia. by apply Hk.
    + destruct (k - length stk)%nat eqn:E; [|by destruct n].
      injection Hlr as <- <-. assert (k = length stk) as -> by lia.
      rewrite !list_lookup_insert_eq by lia. done.
Qed.

End stack.

Section rounds.
Context {T : Type} (ltb : T → T → bool) (Hlt : strict_weak_order ltb).
Implicit Types (s : store T) (al : list (loc * T)).

Lemma returns_push s (L R : list Z) top stk lo hi (Q : _ → store T → Prop) :
  stack_holds L R top stk →
  Z.of_nat (length stk) < Z.of_nat (length L) →
  length R = length L →
  Z.of_nat (length L) ≤ 2 ^ 30 + 1 →
  (∀ L' R', length L' = length L → length R' = length R →
     stack_holds L' R' (top + 1) (stk ++ [(lo, hi)]) →
     Q (L', R', top + 1) s) →
  returns (push (L, R, top) lo hi) Q s.
Proof.
  intros Hst HL HR Hn HQ. pose proof Hst as [Htop _].
  unfold push. rewrite wrap32_small by lia.
  apply returns_bind, returns_arr_set; [lia|].
  apply returns_bind, returns_arr_set; [lia|].
  apply returns_ret. apply HQ.
  - by rewrite length_insert.
  - by rewrite length_insert.
  - apply stack_holds_push; [done|lia|lia].
Qed.

Lemma half_between l r : l ≤ r → l ≤ Z.shiftr (l + r) 1 ≤ r.
Proof.
  intros H. rewrite Z.shiftr_div_pow2 by lia. change (2 ^ 1) with 2.
  pose proof (Z.div_mod (l + r) 2 ltac:(lia)).
  pose proof (Z.mod_pos_bound (l + r) 2 ltac:(lia)). lia.
Qed.

(** The subranges that one round leaves pending: those with two cells or
    more, the left one below the right one. *)
Lemma round_stack_facts n al al' stk l r i j pvv :
  ranges_ok n (stk ++ [(l, r)]) →
  span (stk ++ [(l, r)]) + Z.of_nat (length (stk ++ [(l, r)])) ≤ n →
  sorted_outside ltb al (stk ++ [(l, r)]) →
  length al' = length al → Z.of_nat (length al) = n →
  (∀ q, 0 ≤ q → q < l ∨ r < q → al' !! Z.to_nat q = al !! Z.to_nat q) →
  (∀ q, l ≤ q ≤ r → ∃ q', l ≤ q' ≤ r ∧ al' !! Z.to_nat q = al !! Z.to_nat q') →
  l < i ≤ r + 1 → l - 1 ≤ j < r → j < i →
  (∀ q x, l ≤ q < i → al' !! Z.to_nat q = Some x → ltb pvv x.2 = false) →
  (∀ q x, j < q ≤ r → al' !! Z.to_nat q = Some x → ltb x.2 pvv = false) →
  let stk' := stk ++ (if bool_decide (l < j) then [(l, j)] else [])
                  ++ (if bool_decide (i < r) then [(i, r)] else []) in
  ranges_ok n stk' ∧
  span stk' + Z.of_nat (length stk') ≤ n ∧
  span stk' < span (stk ++ [(l, r)]) ∧
  sorted_outside ltb al' stk'.
Proof.
  intros Hok Hspan Hsorted Hlen Hn Hout Hin Hi Hj Hji Hbelow Habove stk'.
  apply ranges_ok_snoc in Hok as (Hok & Hlr & Hdis).
  rewrite span_snoc, length_app in Hspan. cbn [length] in Hspan.
  rewrite span_snoc.
  assert (Forall (λ lr : Z * Z, lr.2 < l ∨ j < lr.1) stk) as Hdisl.
  { eapply Forall_impl; [exact Hdis|]. intros lr ?. cbn beta in *. lia. }
  assert (Forall (λ lr : Z * Z, lr.2 < i ∨ r < lr.1) stk) as Hdisr.
  { eapply Forall_impl; [exact Hdis|]. intros lr ?. cbn beta in *. lia. }
  split_and!.
  - subst stk'. repeat case_bool_decide; rewrite ?app_nil_l, ?app_nil_r; try done.
    + rewrite app_assoc. apply ranges_ok_snoc. split_and!; try lia.
      * apply ranges_ok_snoc. split_and!; try done; lia.
      * apply Forall_app. split; [done|]. apply Forall_singleton. cbn. lia.
    + apply ranges_ok_snoc. split_and!; try done; lia.
    + apply ranges_ok_snoc. split_and!; try done; lia.
  - subst stk'. repeat case_bool_decide; rewrite ?app_nil_l, ?app_nil_r.
    + rewrite app_assoc, !span_snoc, !length_app. cbn [length]. lia.
    + rewrite !span_snoc, !length_app. cbn [length]. lia.
    + rewrite !span_snoc, !length_app. cbn [length]. lia.
    + lia.
  - subst stk'. repeat case_bool_decide; rewrite ?app_nil_l, ?app_nil_r.
    + rewrite app_assoc, !span_snoc. lia.
    + rewrite !span_snoc. lia.
    + rewrite !span_snoc. lia.
    + lia.
  - intros p q x y Hp Hpq Hx Hy Hnot.
    assert (Forall (λ lr : Z * Z, ¬ (lr.1 ≤ p ∧ q ≤ lr.2)) stk) as Hnot_stk.
    { subst stk'. by apply Forall_app in Hnot as [? _]. }
    assert (l < j → ¬ (l ≤ p ∧ q ≤ j)) as Hnot_l.
    { intros Hlj. subst stk'. apply Forall_app in Hnot as [_ Hnot].
      rewrite bool_decide_eq_true_2 in Hnot by done.
      apply Forall_app in Hnot as [Hnot _]. rewrite Forall_singleton in Hnot.
      exact Hnot. }
    assert (i < r → ¬ (i ≤ p ∧ q ≤ r)) as Hnot_r.
    { intros Hir. subst stk'. apply Forall_app in Hnot as [_ Hnot].
      apply Forall_app in Hnot as [_ Hnot].
      rewrite bool_decide_eq_true_2 in Hnot by done.
      rewrite Forall_singleton in Hnot. exact Hnot. }
    assert (∀ q', l ≤ q' ≤ r → Forall (λ lr : Z * Z, ¬ (lr.1 ≤ q' ∧ q' ≤ lr.2)) stk)
      as Hfree.
    { intros q' Hq'. eapply Forall_impl; [exact Hdis|]. intros lr ?. cbn beta in *. lia. }
    destruct (decide (l ≤ p ≤ r)) as [Hpin|Hpout];
      destruct (decide (l ≤ q ≤ r)) as [Hqin|Hqout].
    + assert (p < i) by lia. assert (j < q) by lia.
      eapply (le_trans ltb Hlt x.2 pvv y.2).
      * apply (Hbelow p); [lia|done].
      * apply (Habove q); [lia|done].
    + destruct (Hin p Hpin) as (p' & Hp' & Hpp'). rewrite Hpp' in Hx.
      rewrite Hout in Hy by lia.
      apply (Hsorted p' q x y); try done; try lia.
      apply Forall_app. split.
      * eapply Forall_impl; [exact (Hfree p' Hp')|]. intros lr ?. cbn beta in *. lia.
      * apply Forall_singleton. cbn. lia.
    + destruct (Hin q Hqin) as (q' & Hq' & Hqq'). rewrite Hqq' in Hy.
      rewrite Hout in Hx by lia.
      apply (Hsorted p q' x y); try done; try lia.
      apply Forall_app. split.
      * eapply Forall_impl; [exact (Hfree q' Hq')|]. intros lr ?. cbn beta in *. lia.
      * apply Forall_singleton. cbn. lia.
    + rewrite Hout in Hx by lia. rewrite Hout in Hy by lia.
      apply (Hsorted p q x y); try done.
      apply Forall_app. split; [done|]. apply Forall_singleton. cbn. lia.
Qed.

(** One round of the loop: the top subrange is taken off the stack and
    partitioned; then the left part is pushed if it holds two cells or
    more, and after it the right part if it holds two cells or more. *)
Lemma qsort_round_shape fuel s al0 al L R top stk l r :
  keyed s al0 → Z.of_nat (length al0) ≤ 2 ^ 30 + 1 → (length al0 + 1 < fuel)%nat →
  al ≡ₚ al0 → length L = length al0 → length R = length al0 →
  stack_holds L R top (stk ++ [(l, r)]) →
  ranges_ok (Z.of_nat (length al0)) (stk ++ [(l, r)]) →
  span (stk ++ [(l, r)]) + Z.of_nat (length (stk ++ [(l, r)])) ≤ Z.of_nat (length al0) →
  sorted_outside ltb al (stk ++ [(l, r)]) →
  returns (qsort_round ltb fuel (ptrs al, L, R, top))
    (λ st' s', s' = s ∧ ∃ pivot al' i j L' R' top' stk',
       st' = (ptrs al', L', R', top') ∧
       ptrs al !! Z.to_nat (Z.shiftr (l + r) 1) = Some pivot ∧
       partition ltb fuel (ptrs al) pivot l r s = Ret (ptrs al', i, j) s ∧
       stk' = stk ++ (if bool_decide (l < j) then [(l, j)] else [])
                  ++ (if bool_decide (i < r) then [(i, r)] else []) ∧
       al' ≡ₚ al0 ∧
       length L' = length al0 ∧ length R' = length al0 ∧
       stack_holds L' R' top' stk' ∧
       ranges_ok (Z.of_nat (length al0)) stk' ∧
       span stk' + Z.of_nat (length stk') ≤ Z.of_nat (length al0) ∧
       sorted_outside ltb al' stk' ∧
       span stk' < span (stk ++ [(l, r)])) s.
Proof.
  intros Hk Hn Hfuel Hperm HL HR Hst Hok Hspan Hsorted.
  pose proof (Permutation_length Hperm) as Hlen.
  assert (keyed s al) as Hkal by (by eapply keyed_perm).
  apply stack_holds_pop in Hst as (Htop & HLt & HRt & Hst).
  pose proof Hok as Hok'. apply ranges_ok_snoc in Hok' as (Hok' & Hlr & Hdis).
  pose proof (span_length _ _ Hok') as Hcount0.
  pose proof Hspan as Hspan0. rewrite span_snoc, length_app in Hspan0.
  cbn [length] in Hspan0.
  unfold qsort_round.
  apply returns_bind. eapply returns_arr_get; [lia|exact HLt|].
  apply returns_bind. eapply returns_arr_get; [lia|exact HRt|].
  rewrite !wrap32_small by lia.
  pose proof (half_between l r ltac:(lia)) as Hm.
  set (m := Z.shiftr (l + r) 1) in *.
  destruct (lookup_lt_is_Some_2 al (Z.to_nat m)) as [xm Hxm]; [lia|].
  pose proof (ptrs_lookup al _ _ Hxm) as Hpivot.
  apply returns_bind. eapply returns_arr_get; [lia|exact Hpivot|].
  assert (returns (partition ltb fuel (ptrs al) (Some xm.1) l r)
    (λ res s', s' = s ∧ ∃ al' i j, res = (ptrs al', i, j) ∧
       length al' = length al ∧ al' ≡ₚ al ∧
       (∀ q, 0 ≤ q → q < l ∨ r < q → al' !! Z.to_nat q = al !! Z.to_nat q) ∧
       (∀ q, l ≤ q ≤ r → ∃ q', l ≤ q' ≤ r ∧ al' !! Z.to_nat q = al !! Z.to_nat q') ∧
       l < i ≤ r + 1 ∧ l - 1 ≤ j < r ∧ j < i ∧
       (∀ q x, l ≤ q < i → al' !! Z.to_nat q = Some x → ltb xm.2 x.2 = false) ∧
       (∀ q x, j < q ≤ r → al' !! Z.to_nat q = Some x → ltb x.2 xm.2 = false)) s)
    as Hpart.
  { eapply (partition_spec ltb Hlt fuel s al xm.1 xm.2 l r m xm); try done; try lia.
    - by eapply keyed_lookup.
    - apply (swo_irrefl ltb Hlt).
    - apply (swo_irrefl ltb Hlt). }
  apply returns_eq in Hpart
    as (res & s' & Hpart & -> & al' & i & j & -> & Hlen' & Hperm' & Hout & Hin & Hi & Hj
        & Hji & Hbelow & Habove).
  apply returns_bind. eapply returns_of_eq; [exact Hpart|].
  destruct (round_stack_facts (Z.of_nat (length al0)) al al' stk l r i j xm.2)
    as (Hok2 & Hspan2 & Hdecr & Hsorted2); try done; try lia.
  pose proof (span_length _ _ Hok2) as Hcount.
  cbn beta iota.
  assert (∀ (L1 R1 : list Z) top1 stk1 lo hi (Q : _ → store T → Prop),
            stack_holds L1 R1 top1 stk1 →
            length L1 = length al0 → length R1 = length al0 →
            Z.of_nat (length stk1) < Z.of_nat (length al0) →
            (∀ L' R', length L' = length al0 → length R' = length al0 →
               stack_holds L' R' (top1 + 1) (stk1 ++ [(lo, hi)]) →
               Q (L', R', top1 + 1) s) →
            returns (push (L1, R1, top1) lo hi) Q s) as Hpush.
  { intros L1 R1 top1 stk1 lo hi Q H1 H2 H3 H4 H5.
    eapply returns_push; try done; try lia.
    intros L' R' ? ? ?. apply H5; congruence. }
  revert Hok2 Hspan2 Hdecr Hsorted2 Hcount.
  destruct (Z.ltb_spec l j) as [Hlj|Hlj];
    [rewrite (bool_decide_eq_true_2 (l < j)) by done
    |rewrite (bool_decide_eq_false_2 (l < j)) by lia];
  (destruct (Z.ltb_spec i r) as [Hir|Hir];
    [rewrite (bool_decide_eq_true_2 (i < r)) by done
    |rewrite (bool_decide_eq_false_2 (i < r)) by lia]);
  rewrite ?app_nil_l, ?app_nil_r; intros Hok2 Hspan2 Hdecr Hsorted2 Hcount.
  - rewrite app_assoc in *. rewrite !length_app in Hcount, Hspan2. cbn [length] in *.
    apply returns_bind. eapply (Hpush L R (top - 1) stk); try done; try lia.
    intros L1 R1 HL1 HR1 Hst1.
    apply returns_bind. eapply (Hpush L1 R1 (top - 1 + 1) (stk ++ [(l, j)])); try done.
    { rewrite length_app. cbn [length]. lia. }
    intros L2 R2 HL2 HR2 Hst2. apply returns_ret. split; [done|].
    exists (Some xm.1), al', i, j, L2, R2, (top - 1 + 1 + 1),
      ((stk ++ [(l, j)]) ++ [(i, r)]).
    split_and!; try done.
    + rewrite (bool_decide_eq_true_2 (l < j)), (bool_decide_eq_true_2 (i < r)) by done.
      by rewrite <- app_assoc.
    + by rewrite Hperm'.
    + rewrite !length_app. cbn [length]. lia.
  - rewrite !length_app in Hcount, Hspan2. cbn [length] in *.
    apply returns_bind. eapply (Hpush L R (top - 1) stk); try done; try lia.
    intros L1 R1 HL1 HR1 Hst1.
    apply returns_bind, returns_ret, returns_ret. split; [done|].
    exists (Some xm.1), al', i, j, L1, R1, (top - 1 + 1), (stk ++ [(l, j)]).
    split_and!; try done.
    + rewrite (bool_decide_eq_true_2 (l < j)) by done.
      rewrite (bool_decide_eq_false_2 (i < r)) by lia. by rewrite app_nil_r.
    + by rewrite Hperm'.
    + rewrite !length_app. cbn [length]. lia.
  - rewrite !length_app in Hcount, Hspan2. cbn [length] in *.
    apply returns_bind, returns_ret.
    apply returns_bind. eapply (Hpush L R (top - 1) stk); try done; try lia.
    intros L1 R1 HL1 HR1 Hst1. apply returns_ret. split; [done|].
    exists (Some xm.1), al', i, j, L1, R1, (top - 1 + 1), (stk ++ [(i, r)]).
    split_and!; try done.
    + rewrite (bool_decide_eq_false_2 (l < j)) by lia.
      by rewrite (bool_decide_eq_true_2 (i < r)) by done.
    + by rewrite Hperm'.
    + rewrite !length_app. cbn [length]. lia.
  - apply returns_bind, returns_ret, returns_bind, returns_ret, returns_ret.
    split; [done|].
    exists (Some xm.1), al', i, j, L, R, (top - 1), stk. split_and!; try done.
    + rewrite (bool_decide_eq_false_2 (l < j)) by lia.
      rewrite (bool_decide_eq_false_2 (i < r)) by lia. by rewrite app_nil_r.
    + by rewrite Hperm'.
Qed.

Lemma qsort_round_spec fuel s al0 al L R top stk l r :
  keyed s al0 → Z.of_nat (length al0) ≤ 2 ^ 30 + 1 → (length al0 + 1 < fuel)%nat →
  al ≡ₚ al0 → length L = length al0 → length R = length al0 →
  stack_holds L R top (stk ++ [(l, r)]) →
  ranges_ok (Z.of_nat (length al0)) (stk ++ [(l, r)]) →
  span (stk ++ [(l, r)]) + Z.of_nat (length (stk ++ [(l, r)])) ≤ Z.of_nat (length al0) →
  sorted_outside ltb al (stk ++ [(l, r)]) →
  returns (qsort_round ltb fuel (ptrs al, L, R, top))
    (λ st' s', s' = s ∧ ∃ al' L' R' top' stk',
       st' = (ptrs al', L', R', top') ∧ al' ≡ₚ al0 ∧
       length L' = length al0 ∧ length R' = length al0 ∧
       stack_holds L' R' top' stk' ∧
       ranges_ok (Z.of_nat (length al0)) stk' ∧
       span stk' + Z.of_nat (length stk') ≤ Z.of_nat (length al0) ∧
       sorted_outside ltb al' stk' ∧
       span stk' < span (stk ++ [(l, r)])) s.
Proof.
  intros Hk Hn Hfuel Hperm HL HR Hst Hok Hspan Hsorted.
  eapply returns_mono; [by apply (qsort_round_shape fuel s al0 al L R top stk l r)|].
  intros st' s' (-> & pivot & al' & i & j & L' & R' & top' & stk' & -> & _ & _ & _ & H).
  split; [done|]. by exists al', L', R', top', stk'.
Qed.

End rounds.

(** *** The three phases of sort *)

Section phases.
Context {T : Type} (ltb : T → T → bool) (Hlt : strict_weak_order ltb).
Implicit Types (s : store T) (al : list (loc * T)).

Lemma qsort_loop_spec fuel s al0 (L R : list Z) :
  keyed s al0 →
  2 ≤ Z.of_nat (length al0) → Z.of_nat (length al0) ≤ 2 ^ 30 + 1 →
  (length al0 + 1 < fuel)%nat →
  length L = length al0 → length R = length al0 →
  L !! 0%nat = Some 0 → R !! 0%nat = Some (Z.of_nat (length al0) - 1) →
  returns (qsort_loop ltb fuel (ptrs al0, L, R, 0))
    (λ st s', s' = s ∧ ∃ al, st.1.1.1 = ptrs al ∧ al ≡ₚ al0 ∧
       ∀ p q (u v : loc * T), (p < q)%nat →
         al !! p = Some u → al !! q = Some v → ltb v.2 u.2 = false) s.
Proof.
  intros Hk Hn2 Hn Hfuel HL HR HL0 HR0. unfold qsort_loop.
  eapply (returns_loop
    (λ stk st s1, s1 = s ∧ ∃ al L R top,
       st = (ptrs al, L, R, top) ∧ al ≡ₚ al0 ∧
       length L = length al0 ∧ length R = length al0 ∧
       stack_holds L R top stk ∧
       ranges_ok (Z.of_nat (length al0)) stk ∧
       span stk + Z.of_nat (length stk) ≤ Z.of_nat (length al0) ∧
       sorted_outside ltb al stk)
    (λ stk, Z.to_nat (span stk)) _ _ _ _ [(0, Z.of_nat (length al0) - 1)]).
  - split; [done|]. exists al0, L, R, 0. split_and!; try done.
    + split; [done|]. intros k l r Hlr. destruct k; [|done].
      by injection Hlr as <- <-.
    + cbn. split_and!; try done; lia.
    + cbn. lia.
    + intros p q u v Hp Hpq Hu Hv Hnot. rewrite Forall_singleton in Hnot.
      cbn in Hnot. apply lookup_lt_Some in Hv. lia.
  - cbn. lia.
  - intros stk st s1 (-> & al & L1 & R1 & top & -> & Hperm & HL1 & HR1 & Hst & Hok
                      & Hspan & Hsorted).
    cbn beta iota. apply returns_ret. split; [done|].
    destruct stk as [|[l r] stk _] using rev_ind.
    + destruct Hst as [-> _]. cbn. split; [done|]. exists al. split_and!; try done.
      intros p q u v Hpq Hu Hv.
      apply (Hsorted (Z.of_nat p) (Z.of_nat q) u v); try lia.
      * by rewrite Nat2Z.id.
      * by rewrite Nat2Z.id.
      * constructor.
    + pose proof Hst as [Htop _]. rewrite length_app in Htop. cbn [length] in Htop.
      destruct (Z.leb_spec 0 top) as [_|?]; [|lia].
      eapply returns_mono.
      { by eapply (qsort_round_spec ltb Hlt fuel s al0 al L1 R1 top stk l r). }
      intros st' s' (-> & al' & L' & R' & top' & stk' & -> & ? & ? & ? & ? & Hok' & ?
                     & ? & Hdecr).
      exists stk'. split.
      * split; [done|]. by exists al', L', R', top'.
      * pose proof (span_length _ _ Hok'). lia.
Qed.

Lemma collect_spec fuel s this h ps :
  is_list s this h ps → (length ps < fuel)%nat →
  Z.of_nat (length ps) < 2 ^ 64 →
  returns (collect fuel this (replicate (length ps) None))
    (λ a s', s' = s ∧ a = Some <$> ps) s.
Proof.
  intros Hl Hfuel Hsz. pose proof Hl as (Hobj & Hnd & Hc & _).
  unfold collect.
  apply returns_bind. eapply returns_get_head; [exact Hobj|]. cbn [head].
  apply returns_bind, returns_get_next; [eapply is_list_alive; [done|left]|].
  erewrite nxt_sentinel by done.
  apply returns_bind.
  eapply (returns_loop
    (λ rest st s1, s1 = s ∧ ∃ done, ps = done ++ rest ∧
       st = (Some (default h (rest !! 0%nat)), Z.of_nat (length done),
             (Some <$> done) ++ replicate (length rest) None))
    length _ _ _ _ ps).
  - split; [done|]. by exists [].
  - done.
  - intros rest st s1 (-> & done & -> & ->). cbn beta iota.
    apply returns_bind. eapply returns_get_head; [exact Hobj|]. cbn [head].
    apply returns_ret. split; [done|].
    destruct rest as [|x rest]; simpl (default _ _).
    + rewrite bool_decide_eq_false_2 by (by intros H; apply H).
      apply returns_ret. cbn [snd replicate length]. by rewrite !app_nil_r.
    + pose proof Hnd as Hnd'. apply nodup_remove_mid in Hnd' as [Hnd' Hx].
      rewrite bool_decide_eq_true_2.
      2:{ intros [= ->]. apply Hx. left. }
      assert (chain s [default h (last done); x; default h (rest !! 0%nat)]) as Hm.
      { apply (cyc_middle s h done [x] rest). by rewrite <- app_assoc in Hc. }
      apply chain_cons in Hm as (_ & _ & Hm). apply chain_cons in Hm as (Hxn & _).
      apply returns_bind, returns_arr_set.
      { rewrite length_app, length_fmap, length_replicate. cbn [length]. lia. }
      apply returns_bind, returns_get_next; [by eapply nxt_alive|]. rewrite Hxn.
      apply returns_ret. exists rest. split; [|cbn; lia].
      split; [done|]. exists (done ++ [x]). split; [by rewrite <- app_assoc|].
      rewrite length_app, length_cons in Hsz.
      rewrite wrap64_small by lia.
      f_equal; [f_equal|].
      * rewrite length_app. cbn [length]. lia.
      * rewrite Nat2Z.id. cbn [replicate length].
        rewrite insert_app_r_alt by (rewrite length_fmap; lia).
        rewrite length_fmap, Nat.sub_diag. cbn.
        rewrite fmap_app, <- app_assoc. done.
Qed.

Lemma with_prev_next_comm s x t (p q : pointer) :
  with_prev x p (with_next t q s) = with_next t q (with_prev x p s).
Proof.
  unfold with_prev, with_next, upd_node. cbn [nodes lists]. f_equal.
  destruct (decide (x = t)) as [->|Hne].
  - rewrite !alter_alter_eq. by apply alter_ext.
  - by apply alter_alter_ne.
Qed.

Lemma last_take {A} (l : list A) k :
  (1 ≤ k ≤ length l)%nat → last (take k l) = l !! (k - 1)%nat.
Proof.
  intros Hk. rewrite last_lookup, length_take, Nat.min_l by lia.
  rewrite lookup_take_lt by lia. f_equal. lia.
Qed.

Lemma in_take {A} (l : list A) k x : x ∈ take k l → x ∈ l.
Proof.
  intros H. apply elem_of_take in H as (i & Hi & _). by eapply list_elem_of_lookup_2.
Qed.

Lemma relink_spec fuel s this h ps ps' :
  is_list s this h ps → ps' ≡ₚ ps → ps ≠ [] → (length ps < fuel)%nat →
  returns (relink fuel this (Some <$> ps'))
    (λ _ s', is_list s' this h ps' ∧
       (∀ x, value_at s' x = value_at s x) ∧
       (∀ x, alive s' x ↔ alive s x) ∧
       same_nodes_outside s s' (h :: ps) ∧
       lists s' = lists s) s.
Proof.
  intros Hl Hperm Hne Hfuel. pose proof Hl as (Hobj & Hnd & Hc & Hsz).
  pose proof (Permutation_length Hperm) as Hlen.
  assert (NoDup (h :: ps')) as Hnd'.
  { apply NoDup_cons in Hnd as [Hh Hnd]. apply NoDup_cons. by rewrite Hperm. }
  assert (∀ x, x ∈ h :: ps' → alive s x) as Hal.
  { intros x Hx. eapply is_list_alive; [exact Hl|].
    apply elem_of_cons in Hx as [->|Hx]; [left|]. right. by rewrite <- Hperm. }
  assert (∀ k x, ps' !! k = Some x → (Some <$> ps') !! k = Some (Some x)) as Hget.
  { intros k x Hk. by rewrite list_lookup_fmap, Hk. }
  destruct ps' as [|a0 ps'0] eqn:Eps'.
  { destruct ps; [done|]. cbn in Hlen. lia. }
  rewrite <- Eps' in *.
  assert (ps' !! 0%nat = Some a0) as Ha0 by (by rewrite Eps').
  assert (∀ s1 k x, (∀ z, alive s1 z ↔ alive s z) →
            chain s1 (h :: take k ps') → ps' !! k = Some x →
            chain (with_prev x (Some (default h (last (take k ps'))))
                     (with_next (default h (last (take k ps'))) (Some x) s1))
                  (h :: take (S k) ps')) as Hstep.
  { intros s1 k x Hal1 Hc1 Hx. rewrite with_prev_next_comm.
    erewrite take_S_r by done.
    assert (NoDup (h :: take (S k) ps')) as Hndk.
    { apply NoDup_cons in Hnd' as [Hh Hnd']. apply NoDup_cons. split.
      - intros Hin. apply Hh. by eapply in_take.
      - rewrite <- (take_drop (S k) ps') in Hnd'. by apply NoDup_app in Hnd' as [? _]. }
    erewrite take_S_r in Hndk by done. rewrite app_comm_cons in Hndk.
    apply NoDup_app in Hndk as (Hndk & Hdis & _).
    apply chain_push; try done.
    - intros Hin. apply (Hdis x Hin). left.
    - apply Hal1, Hal. pose proof (snoc_default_in h (take k ps')) as Hin.
      apply elem_of_cons in Hin as [->|Hin]; [left|]. right. by eapply in_take.
    - apply Hal1, Hal. right. by eapply list_elem_of_lookup_2. }
  unfold relink.
  apply returns_bind. eapply returns_get_head; [exact Hobj|]. cbn [head].
  apply returns_bind. eapply returns_arr_get; [lia|by apply Hget|].
  apply returns_bind, returns_set_next; [apply Hal; left|].
  apply returns_bind. eapply returns_arr_get; [lia|by apply Hget|].
  apply returns_bind. eapply returns_get_head; [exact Hobj|]. cbn [head].
  apply returns_bind, returns_set_prev.
  { rewrite alive_with_next. apply Hal. right. by eapply list_elem_of_lookup_2. }
  apply returns_bind.
  eapply (returns_loop
    (λ (g : nat) (k : Z) s1, k = Z.of_nat (length ps') - Z.of_nat g ∧
       (1 ≤ k ≤ Z.of_nat (length ps')) ∧
       chain s1 (h :: take (Z.to_nat k) ps') ∧
       (∀ x, value_at s1 x = value_at s x) ∧
       (∀ x, alive s1 x ↔ alive s x) ∧
       (∀ x, x ∉ h :: ps' → nodes s1 !! x = nodes s !! x) ∧
       lists s1 = lists s)
    (λ g, g) _ _ _ _ (length ps' - 1)%nat).
  - assert (1 ≤ length ps')%nat by (apply lookup_lt_Some in Ha0; lia).
    split_and!; try lia.
    + replace (Z.to_nat (Z.of_nat (length ps') - Z.of_nat (length ps' - 1))) with 1%nat
        by lia.
      specialize (Hstep s 0%nat a0). rewrite take_0 in Hstep. cbn [last default] in Hstep.
      by apply Hstep.
    + intros x. by rewrite value_with_prev, value_with_next.
    + intros x. by rewrite alive_with_prev, alive_with_next.
    + intros x Hx. rewrite not_elem_of_cons in Hx. destruct Hx as [? Hx].
      rewrite nodes_with_prev_ne, nodes_with_next_ne; [done|done|].
      intros ->. apply Hx. by eapply list_elem_of_lookup_2.
    + done.
  - lia.
  - intros g k s1 (-> & Hk & Hc1 & Hv1 & Hal1 & Hfr1 & Hls1).
    apply returns_bind. eapply returns_get_sz; [rewrite Hls1; exact Hobj|]. cbn [sz].
    apply returns_ret. split; [done|].
    set (k := Z.of_nat (length ps') - Z.of_nat g) in *.
    rewrite <- Hlen.
    destruct (Z.ltb_spec k (Z.of_nat (length ps'))) as [Hlt'|Hge].
    + destruct (lookup_lt_is_Some_2 ps' (Z.to_nat k)) as [x Hx]; [lia|].
      destruct (lookup_lt_is_Some_2 ps' (Z.to_nat (k - 1))) as [t Ht]; [lia|].
      assert (default h (last (take (Z.to_nat k) ps')) = t) as Hlast.
      { rewrite last_take by lia.
        replace (Z.to_nat k - 1)%nat with (Z.to_nat (k - 1)) by lia. by rewrite Ht. }
      rewrite <- Hlen in Hsz.
      rewrite !wrap64_small by lia.
      apply returns_bind. eapply returns_arr_get; [lia|by apply Hget|].
      apply returns_bind. eapply returns_arr_get; [lia|by apply Hget|].
      apply returns_bind, returns_set_next.
      { apply Hal1, Hal. right. by eapply list_elem_of_lookup_2. }
      apply returns_bind. eapply returns_arr_get; [lia|by apply Hget|].
      apply returns_bind. eapply returns_arr_get; [lia|by apply Hget|].
      apply returns_bind, returns_set_prev.
      { rewrite alive_with_next. apply Hal1, Hal. right. by eapply list_elem_of_lookup_2. }
      apply returns_ret. exists (g - 1)%nat. split; [|lia].
      split_and!; try lia.
      * replace (Z.to_nat (k + 1)) with (S (Z.to_nat k)) by lia.
        specialize (Hstep s1 (Z.to_nat k) x Hal1 Hc1 Hx). by rewrite Hlast in Hstep.
      * intros z. by rewrite value_with_prev, value_with_next.
      * intros z. by rewrite alive_with_prev, alive_with_next.
      * intros z Hz. rewrite not_elem_of_cons in Hz. destruct Hz as [? Hz].
        rewrite nodes_with_prev_ne, nodes_with_next_ne; [by apply Hfr1; apply not_elem_of_cons| |].
        -- intros ->. apply Hz. by eapply list_elem_of_lookup_2.
        -- intros ->. apply Hz. by eapply list_elem_of_lookup_2.
      * done.
    + assert (k = Z.of_nat (length ps')) as Hk' by lia.
      rewrite Hk', Nat2Z.id, firstn_all in Hc1.
      destruct (lookup_lt_is_Some_2 ps' (length ps' - 1)) as [z Hz]; [lia|].
      assert (default h (last ps') = z) as Hlast.
      { rewrite last_lookup. replace (Init.Nat.pred (length ps')) with (length ps' - 1)%nat by lia.
        by rewrite Hz. }
      rewrite <- Hlen in Hsz.
      apply returns_bind. eapply returns_get_sz; [rewrite Hls1; exact Hobj|]. cbn [sz].
      rewrite <- Hlen, !wrap64_small by lia.
      replace (Z.to_nat (Z.of_nat (length ps') - 1)) with (length ps' - 1)%nat by lia.
      apply returns_bind. eapply returns_arr_get; [lia| |].
      { replace (Z.to_nat (Z.of_nat (length ps') - 1)) with (length ps' - 1)%nat by lia.
        by apply Hget. }
      apply returns_bind. eapply returns_get_head; [rewrite Hls1; exact Hobj|]. cbn [head].
      apply returns_bind, returns_set_next.
      { apply Hal1, Hal. right. by eapply list_elem_of_lookup_2. }
      apply returns_bind. eapply returns_get_head; [cbn; rewrite Hls1; exact Hobj|].
      cbn [head].
      apply returns_bind. eapply returns_get_sz; [cbn; rewrite Hls1; exact Hobj|]. cbn [sz].
      rewrite <- Hlen, !wrap64_small by lia.
      apply returns_bind. eapply returns_arr_get; [lia| |].
      { replace (Z.to_nat (Z.of_nat (length ps') - 1)) with (length ps' - 1)%nat by lia.
        by apply Hget. }
      apply returns_set_prev; [rewrite alive_with_next; apply Hal1, Hal; left|].
      split_and!.
      * split_and!; try done.
        -- cbn. rewrite Hls1, Hobj. by rewrite Hlen.
        -- rewrite <- Hlast. apply chain_close; try done.
           ++ rewrite Hlast. apply Hal1, Hal. right. by eapply list_elem_of_lookup_2.
           ++ apply Hal1, Hal. left.
      * intros x. by rewrite value_with_prev, value_with_next.
      * intros x. by rewrite alive_with_prev, alive_with_next.
      * intros x Hx _. rewrite not_elem_of_cons in Hx. destruct Hx as [? Hx].
        rewrite nodes_with_prev_ne, nodes_with_next_ne; [| |done].
        -- apply Hfr1. apply not_elem_of_cons. by rewrite Hperm.
        -- intros ->. apply Hx. rewrite <- Hperm. by eapply list_elem_of_lookup_2.
      * done.
Qed.

Lemma ptrs_fst al : ptrs al = Some <$> al.*1.
Proof. unfold ptrs. by rewrite <- list_fmap_compose. Qed.

Lemma sort_spec fuel s this h ps vs :
  is_list s this h ps → values s ps vs →
  Z.of_nat (length ps) ≤ 2 ^ 30 + 1 → (length ps + 1 < fuel)%nat →
  returns (sort ltb fuel this)
    (λ _ s', ∃ al, al ≡ₚ zip ps vs ∧
       is_list s' this h al.*1 ∧ values s' al.*1 al.*2 ∧
       (∀ p q u v, (p < q)%nat →
          al.*2 !! p = Some u → al.*2 !! q = Some v → ltb v u = false) ∧
       (∀ x, value_at s' x = value_at s x) ∧
       (∀ x, alive s' x ↔ alive s x) ∧
       same_nodes_outside s s' (h :: ps) ∧
       lists s' = lists s) s.
Proof.
  intros Hl Hv Hn Hfuel. pose proof Hl as (Hobj & Hnd & Hc & Hsz).
  pose proof (values_length _ _ _ Hv) as Hlen.
  assert ((zip ps vs).*1 = ps) as Hfst by (apply fst_zip; lia).
  assert ((zip ps vs).*2 = vs) as Hsnd by (apply snd_zip; lia).
  assert (length (zip ps vs) = length ps) as Hlz by (rewrite length_zip; lia).
  assert (keyed s (zip ps vs)) as Hk by (by apply values_zip).
  unfold sort.
  apply returns_bind. eapply returns_get_sz; [exact Hobj|]. cbn [sz].
  destruct (Z.leb_spec (Z.of_nat (length ps)) 1) as [Hle|Hgt].
  { apply returns_ret. exists (zip ps vs). rewrite Hfst, Hsnd.
    split_and!; try done.
    intros p q u v Hpq Hu Hv'. apply lookup_lt_Some in Hv'. lia. }
  rewrite Nat2Z.id.
  apply returns_bind. eapply returns_mono; [apply (collect_spec fuel s this h ps); try done; lia|].
  intros a s' (-> & ->).
  apply returns_bind. eapply returns_get_sz; [exact Hobj|]. cbn [sz].
  rewrite Nat2Z.id.
  apply returns_bind, returns_arr_set; [rewrite length_replicate; lia|].
  apply returns_bind, returns_arr_set; [rewrite length_replicate; lia|].
  rewrite (wrap32_small (Z.of_nat (length ps))) by lia.
  rewrite wrap32_small by lia.
  apply returns_bind.
  rewrite <- Hfst at 1. rewrite <- ptrs_fst.
  eapply returns_mono.
  { eapply (qsort_loop_spec fuel s (zip ps vs)); try done; try lia.
    - by rewrite length_insert, length_replicate.
    - by rewrite length_insert, length_replicate.
    - rewrite list_lookup_insert_eq; [done|]. rewrite length_replicate. lia.
    - rewrite list_lookup_insert_eq; [by rewrite Hlz|]. rewrite length_replicate. lia. }
  intros [[[a' L'] R'] top'] s' (-> & al & Ha' & Hperm & Hsorted).
  cbn [fst snd] in Ha'. subst a'.
  assert (al.*1 ≡ₚ ps) as Hperm1 by (by rewrite Hperm, Hfst).
  rewrite ptrs_fst.
  eapply returns_mono.
  { apply (relink_spec fuel s this h ps al.*1); try done; try lia.
    intros ->. cbn in Hgt. lia. }
  intros _ s' (Hl' & Hval & Hal & Hout & Hls).
  exists al. split_and!; try done.
  - eapply values_frame; [apply zip_values; by eapply keyed_perm|].
    intros x _. apply Hval.
  - intros p q u v Hpq Hu Hv'. rewrite list_lookup_fmap in Hu, Hv'.
    destruct (al !! p) as [x|] eqn:Ex; [|done].
    destruct (al !! q) as [y|] eqn:Ey; [|done].
    cbn in Hu, Hv'. injection Hu as <-. injection Hv' as <-.
    by eapply Hsorted.
Qed.

End phases.

(** ** Facts about the pure counterparts *)

Section pure_facts.
Context {A : Type} (lt : A → A → bool).

Lemma ascending_nil : ascending lt [].
Proof. by intros i x y ?. Qed.

Lemma ascending_singleton x : ascending lt [x].
Proof. intros i a b Ha Hb. by destruct i. Qed.

Lemma ascending_cons x y l :
  ascending lt (x :: y :: l) ↔ lt y x = false ∧ ascending lt (y :: l).
Proof.
  split.
  - intros H. split.
    + by apply (H 0%nat).
    + intros i a b Ha Hb. by apply (H (S i)).
  - intros [Hxy H] i a b Ha Hb. destruct i as [|i].
    + cbn in Ha, Hb. by injection Ha as <-; injection Hb as <-.
    + by apply (H i).
Qed.

Lemma ascending_tail x l : ascending lt (x :: l) → ascending lt l.
Proof. intros H i a b Ha Hb. by apply (H (S i)). Qed.

Lemma ascending_push x l :
  (∀ h, l !! 0%nat = Some h → lt h x = false) → ascending lt l →
  ascending lt (x :: l).
Proof.
  intros Hx Hl. destruct l as [|y l]; [apply ascending_singleton|].
  apply ascending_cons. split; [by apply Hx|done].
Qed.

Lemma merge_lists_head xs ys h :
  merge_lists lt xs ys !! 0%nat = Some h →
  xs !! 0%nat = Some h ∨ ys !! 0%nat = Some h.
Proof.
  destruct xs as [|x xs]; [by right|].
  destruct ys as [|y ys]; [by left|].
  rewrite merge_lists_cons. destruct (lt y x); cbn; auto.
Qed.

Context (Hlt : strict_weak_order lt).

Lemma ascending_head_least x l y : ascending lt (x :: l) → y ∈ l → lt y x = false.
Proof.
  revert x. induction l as [|z l IH]; intros x Hasc Hy.
  - by apply elem_of_nil in Hy.
  - apply ascending_cons in Hasc as [Hzx Hasc].
    apply elem_of_cons in Hy as [->|Hy]; [done|].
    eapply (le_trans lt Hlt x z y); [done|]. by apply IH.
Qed.

Lemma merge_lists_ascending xs ys :
  ascending lt xs → ascending lt ys → ascending lt (merge_lists lt xs ys).
Proof.
  revert ys. induction xs as [|x xs IHx]; intros ys Hxs Hys; [done|].
  induction ys as [|y ys IHy]; [done|].
  rewrite merge_lists_cons. destruct (lt y x) eqn:E.
  - apply ascending_push.
    + intros h Hh. apply merge_lists_head in Hh as [Hh|Hh].
      * cbn in Hh. injection Hh as <-. by apply (lt_asym lt Hlt).
      * apply (ascending_head_least y ys); [done|]. by eapply list_elem_of_lookup_2.
    + apply IHy. by eapply ascending_tail.
  - apply ascending_push.
    + intros h Hh. apply merge_lists_head in Hh as [Hh|Hh].
      * apply (ascending_head_least x xs); [done|]. by eapply list_elem_of_lookup_2.
      * cbn in Hh. by injection Hh as <-.
    + apply IHx; [by eapply ascending_tail|done].
Qed.

Lemma precedes_cons (a b z : A) l : precedes a b l → precedes a b (z :: l).
Proof. intros (l1 & l2 & l3 & ->). by exists (z :: l1), l2, l3. Qed.

Lemma precedes_head (a b : A) l : b ∈ l → precedes a b (a :: l).
Proof.
  intros Hb. apply list_elem_of_split in Hb as (l2 & l3 & ->).
  by exists [], l2, l3.
Qed.

(** In the merge of two ascending sequences, an element of the receiver
    comes before every element of the argument that is not strictly less
    than it. *)
Lemma merge_lists_precedes xs ys a b :
  ascending lt xs → ascending lt ys →
  a ∈ xs → b ∈ ys → lt b a = false →
  precedes a b (merge_lists lt xs ys).
Proof.
  revert ys. induction xs as [|x xs IHx]; intros ys Hxs Hys Ha Hb Hba.
  { by apply elem_of_nil in Ha. }
  induction ys as [|y ys IHy]; [by apply elem_of_nil in Hb|].
  rewrite merge_lists_cons. destruct (lt y x) eqn:E.
  - apply precedes_cons. apply elem_of_cons in Hb as [->|Hb].
    + exfalso. apply elem_of_cons in Ha as [->|Ha]; [congruence|].
      pose proof (ascending_head_least x xs a Hxs Ha) as Hxa.
      destruct (lt y a) eqn:Hya; [congruence|].
      pose proof (le_trans lt Hlt x a y Hxa Hya). congruence.
    + apply IHy; [by eapply ascending_tail|done].
  - apply elem_of_cons in Ha as [->|Ha].
    + apply precedes_head. rewrite merge_lists_perm. apply elem_of_app. by right.
    + apply precedes_cons. apply IHx; [by eapply ascending_tail|done..].
Qed.

Lemma merge_lists_sublist_l xs ys : xs `sublist_of` merge_lists lt xs ys.
Proof.
  revert ys. induction xs as [|x xs IHx]; intros ys; [apply sublist_nil_l|].
  induction ys as [|y ys IHy]; [done|].
  rewrite merge_lists_cons. destruct (lt y x).
  - by apply sublist_cons.
  - apply sublist_skip, IHx.
Qed.

Lemma merge_lists_sublist_r xs ys : ys `sublist_of` merge_lists lt xs ys.
Proof.
  revert ys. induction xs as [|x xs IHx]; intros ys; [done|].
  induction ys as [|y ys IHy]; [apply sublist_nil_l|].
  rewrite merge_lists_cons. destruct (lt y x).
  - by apply sublist_skip.
  - apply sublist_cons, IHx.
Qed.

End pure_facts.

Section pure_maps.
Context {A B : Type} (f : A → B) (lt : B → B → bool).

(** Merging keyed elements and then reading the keys is merging the keys. *)
Lemma merge_lists_fmap xs ys :
  f <$> merge_lists (λ p q, lt (f p) (f q)) xs ys
  = merge_lists lt (f <$> xs) (f <$> ys).
Proof.
  revert ys. induction xs as [|x xs IHx]; intros ys; [done|].
  induction ys as [|y ys IHy]; [done|].
  cbn [fmap list_fmap] in *. rewrite !merge_lists_cons.
  destruct (lt (f y) (f x)); cbn [fmap list_fmap]; f_equal.
  - apply IHy.
  - apply (IHx (y :: ys)).
Qed.

Lemma precedes_fmap (a b : A) l : precedes a b l → precedes (f a) (f b) (f <$> l).
Proof.
  intros (l1 & l2 & l3 & ->). exists (f <$> l1), (f <$> l2), (f <$> l3).
  by rewrite fmap_app, fmap_cons, fmap_app, fmap_cons.
Qed.

End pure_maps.

Section unique_facts.
Context {A : Type} (eq : A → A → bool) (Heq : equivalence_test eq).

Lemma drop_equal_congr x y l :
  eq x y = true →
  drop_equal_to_predecessor eq x l = drop_equal_to_predecessor eq y l.
Proof.
  intros Hxy. destruct l as [|z l]; [done|]. cbn.
  assert (eq x z = eq y z) as ->; [|done].
  destruct (eq y z) eqn:E.
  - by apply (eqt_trans eq Heq x y z).
  - destruct (eq x z) eqn:E'; [|done].
    pose proof (eqt_trans eq Heq y x z (eqt_sym eq Heq x y Hxy) E'). congruence.
Qed.

Lemma unique_from_runs x l :
  unique_from eq x l = x :: drop_equal_to_predecessor eq x l.
Proof.
  revert x. induction l as [|y l IH]; intros x; [done|].
  cbn. destruct (eq x y) eqn:E.
  - rewrite IH. f_equal. by apply drop_equal_congr.
  - by rewrite IH.
Qed.

(** When [==] is an equivalence, what the loop of unique keeps is what the
    spec describes. *)
Lemma unique_list_runs l : unique_list eq l = first_of_each_run eq l.
Proof. destruct l as [|x l]; [done|]. apply unique_from_runs. Qed.

End unique_facts.

(** ** From the operations to the abstract lists *)

Section abstraction.
Context {T : Type}.
Implicit Types (s : store T) (ps : list loc) (vs : list T).


Lemma values_rev s ps vs : values s ps vs → values s (rev ps) (rev vs).
Proof.
  unfold values. induction 1 as [|p v ps vs Hp Hv IH]; [constructor|].
  cbn [rev]. apply Forall2_app; [done|]. by repeat constructor.
Qed.

Lemma values_lookup s ps vs i p :
  values s ps vs → ps !! i = Some p → ∃ v, vs !! i = Some v ∧ value_at s p = Some v.
Proof.
  intros Hv Hp. destruct (Forall2_lookup_l _ _ _ _ _ Hv Hp) as (v & ? & ?). eauto.
Qed.

Lemma values_last s ps vs p :
  values s ps vs → last ps = Some p → ∃ v, last vs = Some v ∧ value_at s p = Some v.
Proof.
  intros Hv Hp. pose proof (values_length _ _ _ Hv) as Hlen.
  rewrite last_lookup in Hp. destruct (values_lookup _ _ _ _ _ Hv Hp) as (v & Hi & ?).
  exists v. by rewrite last_lookup, <- Hlen.
Qed.

(** A list whose nodes and list object an operation leaves alone is the
    list it was. *)
Lemma list_untouched s s' l h ps vs fp ls :
  is_list s l h ps → values s ps vs →
  same_nodes_outside s s' fp → same_lists_except s s' ls →
  apart (h :: ps) fp → l ∉ ls →
  is_list s' l h ps ∧ values s' ps vs.
Proof.
  intros Hl Hv Hn Ho Hap Hls.
  assert (∀ x, x ∈ h :: ps → nodes s' !! x = nodes s !! x) as Hsame.
  { intros x Hx. apply Hn; [by apply Hap|]. by eapply is_list_alive. }
  split.
  - eapply is_list_frame; [done|done|]. by apply Ho.
  - eapply values_frame; [done|]. intros x Hx. unfold value_at.
    rewrite Hsame; [done|]. by right.
Qed.

Lemma valid_position_cases this h ps (pos : iterator) :
  valid_position this h ps pos →
  (owner pos ≠ Some this ∨ ptr pos = None) ∨
  pos = Iterator (Some this) (Some h) ∨
  ∃ ps1 p ps2, ps = ps1 ++ p :: ps2 ∧ pos = Iterator (Some this) (Some p).
Proof.
  intros Hvalid. destruct pos as [o [x|]]; cbn in *; [|by left; right].
  destruct (decide (o = Some this)) as [->|?]; [|by left; left].
  right. specialize (Hvalid eq_refl x eq_refl).
  apply elem_of_cons in Hvalid as [->|Hx]; [by left|].
  right. apply list_elem_of_split in Hx as (ps1 & ps2 & ->). by exists ps1, x, ps2.
Qed.

End abstraction.

Section merge_edges.
Context {T : Type} (ltb : T → T → bool).
Implicit Types (s : store T).

Lemma merge_self fuel s this : merge ltb fuel this this s = Ret tt s.
Proof. unfold merge, bind. by rewrite bool_decide_eq_true_2. Qed.

Lemma merge_empty_argument fuel s this other (h : pointer) :
  lists s !! other = Some (ListObj h 0) → merge ltb fuel this other s = Ret tt s.
Proof.
  intros Hobj. unfold merge, bind. destruct (bool_decide (this = other)); [done|].
  unfold get_sz, bind, load_list. by rewrite Hobj.
Qed.

End merge_edges.

Section keys.
Context {A B : Type} (f : A → B) (lt : B → B → bool).

Lemma ascending_fmap l :
  ascending lt (f <$> l) ↔ ascending (λ p q, lt (f p) (f q)) l.
Proof.
  split.
  - intros H i x y Hx Hy. apply (H i); rewrite list_lookup_fmap.
    + by rewrite Hx.
    + by rewrite Hy.
  - intros H i x y Hx Hy. rewrite list_lookup_fmap in Hx, Hy.
    destruct (l !! i) as [a|] eqn:Ea; [|done].
    destruct (l !! S i) as [b|] eqn:Eb; [|done].
    cbn in Hx, Hy. injection Hx as <-. injection Hy as <-. by apply (H i).
Qed.

Lemma strict_weak_order_fmap :
  strict_weak_order lt → strict_weak_order (λ p q, lt (f p) (f q)).
Proof.
  intros [Hi Ht Hc]. split.
  - intros x. apply Hi.
  - intros x y z. apply Ht.
  - intros x y z. apply Hc.
Qed.

End keys.

Section prefixes.
Context {T : Type} (ltb : T → T → bool) (Hlt : strict_weak_order ltb).
Implicit Types (s : store T) (al : list (loc * T)).

(** However many rounds of [while (top >= 0)] have been run, the loop has
    not failed and its invariant holds. *)
Lemma qsort_prefix_spec k fuel s al0 al (L R : list Z) top stk :
  keyed s al0 → Z.of_nat (length al0) ≤ 2 ^ 30 + 1 → (length al0 + 1 < fuel)%nat →
  al ≡ₚ al0 → length L = length al0 → length R = length al0 →
  stack_holds L R top stk →
  ranges_ok (Z.of_nat (length al0)) stk →
  span stk + Z.of_nat (length stk) ≤ Z.of_nat (length al0) →
  sorted_outside ltb al stk →
  returns (loop_prefix k (λ '(_, _, _, top), ret (0 <=? top)) (qsort_round ltb fuel)
             (ptrs al, L, R, top))
    (λ st' s', s' = s ∧ ∃ al' L' R' top' stk',
       st' = (ptrs al', L', R', top') ∧ al' ≡ₚ al0 ∧
       length L' = length al0 ∧ length R' = length al0 ∧
       stack_holds L' R' top' stk' ∧
       ranges_ok (Z.of_nat (length al0)) stk' ∧
       span stk' + Z.of_nat (length stk') ≤ Z.of_nat (length al0) ∧
       sorted_outside ltb al' stk') s.
Proof.
  intros Hk Hn Hfuel. revert al L R top stk.
  induction k as [|k IH]; intros al L R top stk Hperm HL HR Hst Hok Hspan Hsorted.
  - cbn. split; [done|]. by exists al, L, R, top, stk.
  - cbn [loop_prefix]. apply returns_bind, returns_ret.
    destruct stk as [|[l r] stk _] using rev_ind.
    + destruct Hst as [-> Hst]. cbn. split; [done|].
      exists al, L, R, (-1), []. split_and!; try done.
    + pose proof Hst as [Htop _]. rewrite length_app in Htop. cbn [length] in Htop.
      destruct (Z.leb_spec 0 top) as [_|?]; [|lia].
      apply returns_bind. eapply returns_mono.
      { by eapply (qsort_round_spec ltb Hlt fuel s al0 al L R top stk l r). }
      intros st' s' (-> & al' & L' & R' & top' & stk' & -> & Hperm' & HL' & HR'
                     & Hst' & Hok' & Hspan' & Hsorted' & _).
      by eapply IH.
Qed.

End prefixes.

(** ** Order of occurrence *)

Section occurrence.
Context {A : Type}.

Lemma precedes_lookup (x y : A) l :
  precedes x y l → ∃ i j, (i < j)%nat ∧ l !! i = Some x ∧ l !! j = Some y.
Proof.
  intros (l1 & l2 & l3 & ->). exists (length l1), (length l1 + S (length l2))%nat.
  split_and!; [lia| |].
  - by apply list_lookup_middle.
  - rewrite lookup_app_r by lia.
    replace (length l1 + S (length l2) - length l1)%nat with (S (length l2)) by lia.
    cbn. by apply list_lookup_middle.
Qed.

Lemma precedes_once (x y : A) l : NoDup l → precedes x y l → ¬ precedes y x l.
Proof.
  intros Hnd (i & j & Hij & Hi & Hj)%precedes_lookup (i' & j' & Hij' & Hi' & Hj')%precedes_lookup.
  pose proof (NoDup_lookup _ _ _ _ Hnd Hi Hj').
  pose proof (NoDup_lookup _ _ _ _ Hnd Hj Hi'). lia.
Qed.

End occurrence.

(** * The claims of the specification *)


(** C2. merge: with a strict weak order and two ascending lists, merge
    returns and the receiver holds the stable merge of the two value
    sequences, in ascending order, in the nodes of both lists. A node of the
    receiver comes before every node of the argument that is not strictly
    less than it, so among equal elements the receiver's come first; a node
    of the argument comes before a node of the receiver only when its
    value is strictly less. *)
Theorem merge_is_stable {T} (ltb : T → T → bool) fuel (s : store T)
    this h psa vsa other oh psb vsb :
  strict_weak_order ltb →
  is_list s this h psa → values s psa vsa →
  is_list s other oh psb → values s psb vsb →
  this ≠ other → apart (h :: psa) (oh :: psb) →
  ascending ltb vsa → ascending ltb vsb →
  Z.of_nat (length psa) + Z.of_nat (length psb) < 2 ^ 64 →
  (length psa + length psb < fuel)%nat →
  ∃ s' ps',
    merge ltb fuel this other s = Ret tt s' ∧
    is_list s' this h ps' ∧
    values s' ps' (merge_lists ltb vsa vsb) ∧
    ascending ltb (merge_lists ltb vsa vsb) ∧
    ps' ≡ₚ psa ++ psb ∧
    (∀ x, value_at s' x = value_at s x) ∧
    (∀ x y vx vy, x ∈ psa → y ∈ psb →
       value_at s x = Some vx → value_at s y = Some vy →
       (ltb vy vx = false → precedes x y ps') ∧
       (precedes y x ps' → ltb vy vx = true)).
Proof.
  intros Hlt Hla Hva Hlb Hvb Hne Hap Hasca Hascb Hsz Hfuel.
  pose proof (values_length _ _ _ Hva) as Hlena.
  pose proof (values_length _ _ _ Hvb) as Hlenb.
  destruct (decide (psb = [])) as [->|Hnil].
  { destruct vsb; [|done]. exists s, psa. rewrite merge_lists_nil_r, app_nil_r.
    split_and!; try done.
    - eapply merge_empty_argument. exact (is_list_lookup _ _ _ _ Hlb).
    - intros x y vx vy _ Hy. by apply elem_of_nil in Hy. }
  destruct (proj1 (returns_eq _ _ _)
              (merge_spec ltb fuel s this h psa vsa other oh psb vsb
                 Hla Hva Hlb Hvb Hap Hne Hnil Hsz Hfuel))
    as ([] & s' & Heq & Hl' & Hv' & _ & Hval & _).
  set (lt2 := λ p q : loc * T, ltb p.2 q.2) in *.
  set (merged := merge_lists lt2 (zip psa vsa) (zip psb vsb)) in *.
  assert (merged.*2 = merge_lists ltb vsa vsb) as Hsnd.
  { unfold merged, lt2. rewrite (merge_lists_fmap snd ltb).
    by rewrite !snd_zip by lia. }
  assert (merged.*1 ≡ₚ psa ++ psb) as Hfst.
  { unfold merged. rewrite merge_lists_perm, fmap_app. by rewrite !fst_zip by lia. }
  assert (ascending lt2 (zip psa vsa)) as Hza.
  { apply (ascending_fmap snd ltb). by rewrite snd_zip by lia. }
  assert (ascending lt2 (zip psb vsb)) as Hzb.
  { apply (ascending_fmap snd ltb). by rewrite snd_zip by lia. }
  assert (∀ x y vx vy, x ∈ psa → y ∈ psb →
            value_at s x = Some vx → value_at s y = Some vy →
            ltb vy vx = false → precedes x y merged.*1) as Hprec.
  { intros x y vx vy Hx Hy Hvx Hvy Hle.
    apply list_elem_of_lookup in Hx as [i Hi]. apply list_elem_of_lookup in Hy as [j Hj].
    destruct (values_lookup _ _ _ _ _ Hva Hi) as (vx' & Hi' & Hvx').
    destruct (values_lookup _ _ _ _ _ Hvb Hj) as (vy' & Hj' & Hvy').
    assert (vx' = vx) as -> by congruence. assert (vy' = vy) as -> by congruence.
    apply (precedes_fmap fst (x, vx) (y, vy)).
    apply (merge_lists_precedes lt2 (strict_weak_order_fmap snd ltb Hlt)); try done.
    - apply list_elem_of_lookup. exists i. rewrite lookup_zip_with, Hi. cbn. by rewrite Hi'.
    - apply list_elem_of_lookup. exists j. rewrite lookup_zip_with, Hj. cbn. by rewrite Hj'. }
  exists s', merged.*1. split_and!; try done.
  - by rewrite <- Hsnd.
  - by apply merge_lists_ascending.
  - intros x y vx vy Hx Hy Hvx Hvy. split; [by eapply Hprec|].
    intros Hyx. destruct (ltb vy vx) eqn:E; [done|]. exfalso.
    eapply (precedes_once x y merged.*1).
    + destruct Hl' as (_ & Hnd & _). by apply NoDup_cons in Hnd as [_ ?].
    + by eapply Hprec.
    + done.
Qed.

(** C3, as the code has it, on a list of [n] elements with [n] at most
    2^30 + 1. After any number of rounds of the loop of sort no round has
    failed, so every read and every write of the two arrays was within
    their bounds, and both arrays still have length [n]. The entries up to
    [top] are the pending subranges [stk]: they lie within the buffer, hold
    two cells or more each and are pairwise disjoint, so [2 * (top + 1) ≤ n]
    and [top < n]. When the stack is not empty, the next round takes the top
    subrange [(l, r)] off, partitions it into [i] and [j], and puts back
    first the left part [(l, j)] if [l < j] and then, above it, the right
    part [(i, r)] if [i < r]: both parts when both hold two cells or more,
    with no comparison of their sizes. *)
Theorem sort_stack_within_bounds {T} (ltb : T → T → bool) fuel (s : store T)
    this ps vs k :
  strict_weak_order ltb →
  repr s this ps vs →
  2 ≤ Z.of_nat (length ps) → Z.of_nat (length ps) ≤ 2 ^ 30 + 1 →
  (length ps + 1 < fuel)%nat →
  let n := Z.of_nat (length ps) in
  ∃ a L R top stk,
    loop_prefix k (λ '(_, _, _, top), ret (0 <=? top)) (qsort_round ltb fuel)
      (Some <$> ps, <[0%nat := 0]> (replicate (length ps) 0),
       <[0%nat := n - 1]> (replicate (length ps) 0), 0) s
    = Ret (a, L, R, top) s ∧
    Z.of_nat (length L) = n ∧ Z.of_nat (length R) = n ∧
    stack_holds L R top stk ∧ ranges_ok n stk ∧
    -1 ≤ top ∧ 2 * (top + 1) ≤ n ∧ top < n ∧
    (∀ stk0 l r, stk = stk0 ++ [(l, r)] →
       ∃ pivot a' i j L' R' top',
         a !! Z.to_nat (Z.shiftr (l + r) 1) = Some pivot ∧
         partition ltb fuel a pivot l r s = Ret (a', i, j) s ∧
         qsort_round ltb fuel (a, L, R, top) s = Ret (a', L', R', top') s ∧
         Z.of_nat (length L') = n ∧ Z.of_nat (length R') = n ∧
         stack_holds L' R' top'
           (stk0 ++ (if bool_decide (l < j) then [(l, j)] else [])
                 ++ (if bool_decide (i < r) then [(i, r)] else []))).
Proof.
  intros Hlt (h & Hl & Hv) Hn2 Hn Hfuel n.
  pose proof (values_length _ _ _ Hv) as Hlen.
  assert (length (zip ps vs) = length ps) as Hzl by (rewrite length_zip; lia).
  assert (keyed s (zip ps vs)) as Hk by (by apply values_zip).
  assert (Some <$> ps = ptrs (zip ps vs)) as ->.
  { rewrite ptrs_fst. by rewrite fst_zip by lia. }
  destruct (proj1 (returns_eq _ _ _)
    (qsort_prefix_spec ltb Hlt k fuel s (zip ps vs) (zip ps vs)
       (<[0%nat := 0]> (replicate (length ps) 0))
       (<[0%nat := n - 1]> (replicate (length ps) 0)) 0 [(0, n - 1)]
       Hk ltac:(lia) ltac:(lia) ltac:(done)
       ltac:(by rewrite length_insert, length_replicate)
       ltac:(by rewrite length_insert, length_replicate)
       ltac:(split; [done|]; intros [|i] l r Hlr; [|done]; injection Hlr as <- <-;
             destruct ps; [cbn in Hn2; lia|done])
       ltac:(cbn; split_and!; try done; lia)
       ltac:(cbn; lia)
       ltac:(intros p q u v Hp Hpq Hu Hv' Hnot; rewrite Forall_singleton in Hnot;
             cbn in Hnot; apply lookup_lt_Some in Hv'; lia)))
    as (st & s' & Heq & -> & al' & L' & R' & top' & stk' & -> & Hperm & HL' & HR'
        & Hst & Hok & Hspan & Hsorted).
  pose proof (span_length _ _ Hok) as Hcount.
  pose proof Hst as [Htop _].
  exists (ptrs al'), L', R', top', stk'.
  split_and!; [done|lia|lia| | |lia|lia|lia|].
  - done.
  - by rewrite Hzl in Hok.
  - intros stk0 l r ->.
    destruct (proj1 (returns_eq _ _ _)
                (qsort_round_shape ltb Hlt fuel s (zip ps vs) al' L' R' top' stk0 l r
                   Hk ltac:(lia) ltac:(lia) Hperm HL' HR' Hst Hok Hspan Hsorted))
      as (st2 & s2 & Heq2 & -> & pivot & al2 & i & j & L2 & R2 & top2 & stk2 & ->
          & Hpivot & Hpart & -> & _ & HL2 & HR2 & Hst2 & _).
    exists pivot, (ptrs al2), i, j, L2, R2, top2.
    split_and!; try done; lia.
Qed.


(** C5. Whenever front, back, insert, erase, pop_front, pop_back, an
    iterator step or an iterator dereference leaves by an exception, the
    state at the throw is the state the operation was started in: neither
    the store nor, for the iterator operators, the iterator has changed. *)
Theorem failed_operations_change_nothing {T} :
  (∀ this, throws_unchanged (front (T := T) this)) ∧
  (∀ this, throws_unchanged (back (T := T) this)) ∧
  (∀ this pos (v : T), throws_unchanged (insert this pos v)) ∧
  (∀ this pos, throws_unchanged (erase (T := T) this pos)) ∧
  (∀ this, throws_unchanged (pop_front (T := T) this)) ∧
  (∀ this, throws_unchanged (pop_back (T := T) this)) ∧
  throws_unchanged (pre_incr (T := T)) ∧
  throws_unchanged (post_incr (T := T)) ∧
  throws_unchanged (pre_decr (T := T)) ∧
  throws_unchanged (post_decr (T := T)) ∧
  throws_unchanged (deref (T := T)) ∧
  throws_unchanged (arrow (T := T)).
Proof.
  split_and!.
  - apply throws_unchanged_front.
  - apply throws_unchanged_back.
  - apply throws_unchanged_insert.
  - apply throws_unchanged_erase.
  - apply throws_unchanged_pop_front.
  - apply throws_unchanged_pop_back.
  - apply throws_unchanged_pre_incr.
  - apply throws_unchanged_post_incr.
  - apply throws_unchanged_pre_decr.
  - apply throws_unchanged_post_decr.
  - apply throws_unchanged_deref.
  - apply throws_unchanged_arrow.
Qed.

(** ** The operations on the abstract lists *)

Section on_sequences.
Context {T : Type}.
Implicit Types (s : store T) (ps : list loc) (vs : list T).

Lemma insert_repr s this h ps1 ps2 vs1 vs2 (v : T) :
  is_list s this h (ps1 ++ ps2) → values s ps1 vs1 → values s ps2 vs2 →
  Z.of_nat (length (ps1 ++ ps2)) + 1 < 2 ^ 64 →
  returns (insert this (Iterator (Some this) (Some (default h (ps2 !! 0%nat)))) v)
    (λ it s', ∃ cur, ¬ alive s cur ∧
       it = Iterator (Some this) (Some cur) ∧
       is_list s' this h (ps1 ++ cur :: ps2) ∧
       values s' (ps1 ++ cur :: ps2) (vs1 ++ v :: vs2) ∧
       same_nodes_outside s s' (h :: ps1 ++ ps2) ∧
       same_lists_except s s' [this]) s.
Proof.
  intros Hl Hv1 Hv2 Hsz. eapply returns_mono; [by apply insert_spec|].
  intros it s' (cur & Hfresh & -> & Hl' & Hcur & Hval & Hn & Ho).
  exists cur. split_and!; try done.
  apply values_app.
  - eapply values_frame; [exact Hv1|]. intros x Hx. apply Hval. exact (values_alive _ _ _ _ Hv1 Hx).
  - apply Forall2_cons; split; [done|].
    eapply values_frame; [exact Hv2|]. intros x Hx. apply Hval. exact (values_alive _ _ _ _ Hv2 Hx).
Qed.

Lemma erase_repr s this h ps1 p ps2 vs1 v vs2 :
  is_list s this h (ps1 ++ p :: ps2) →
  values s ps1 vs1 → values s (p :: ps2) (v :: vs2) →
  returns (erase this (Iterator (Some this) (Some p)))
    (λ it s',
       it = Iterator (Some this) (Some (default h (ps2 !! 0%nat))) ∧
       is_list s' this h (ps1 ++ ps2) ∧
       values s' (ps1 ++ ps2) (vs1 ++ vs2) ∧
       ¬ alive s' p ∧
       same_nodes_outside s s' (h :: ps1 ++ p :: ps2) ∧
       same_lists_except s s' [this]) s.
Proof.
  intros Hl Hv1 Hv2. eapply returns_mono; [by apply erase_spec|].
  intros it s' (-> & Hl' & Hdead & Hval & Hn & Ho). split_and!; try done.
  apply Forall2_cons_1 in Hv2 as [_ Hv2].
  destruct Hl as (_ & Hnd & _). apply NoDup_cons in Hnd as [_ Hnd].
  apply NoDup_app in Hnd as (_ & Hdis & Hnd2). apply NoDup_cons in Hnd2 as [Hp2 _].
  apply values_app.
  - eapply values_frame; [exact Hv1|]. intros x Hx. apply Hval.
    intros ->. eapply Hdis; [done|left].
  - eapply values_frame; [exact Hv2|]. intros x Hx. apply Hval. by intros ->.
Qed.

Lemma push_back_repr s this h ps vs (v : T) :
  is_list s this h ps → values s ps vs →
  Z.of_nat (length ps) + 1 < 2 ^ 64 →
  returns (push_back this v)
    (λ _ s', ∃ cur, ¬ alive s cur ∧
       is_list s' this h (ps ++ [cur]) ∧ values s' (ps ++ [cur]) (vs ++ [v]) ∧
       same_nodes_outside s s' (h :: ps) ∧
       same_lists_except s s' [this]) s.
Proof.
  intros Hl Hv Hsz. eapply returns_mono; [by apply push_back_spec|].
  intros _ s' (cur & Hfresh & Hl' & Hcur & Hval & Hn & Ho).
  exists cur. split_and!; try done.
  apply values_app.
  - eapply values_frame; [exact Hv|]. intros x Hx. apply Hval. exact (values_alive _ _ _ _ Hv Hx).
  - by repeat constructor.
Qed.

Lemma push_front_repr s this h ps vs (v : T) :
  is_list s this h ps → values s ps vs →
  Z.of_nat (length ps) + 1 < 2 ^ 64 →
  returns (push_front this v)
    (λ _ s', ∃ cur, ¬ alive s cur ∧
       is_list s' this h (cur :: ps) ∧ values s' (cur :: ps) (v :: vs) ∧
       same_nodes_outside s s' (h :: ps) ∧
       same_lists_except s s' [this]) s.
Proof.
  intros Hl Hv Hsz. eapply returns_mono; [by apply push_front_spec|].
  intros _ s' (cur & Hfresh & Hl' & Hcur & Hval & Hn & Ho).
  exists cur. split_and!; try done.
  apply Forall2_cons; split; [done|].
  eapply values_frame; [exact Hv|]. intros x Hx. apply Hval. exact (values_alive _ _ _ _ Hv Hx).
Qed.

Lemma pop_front_repr s this h p ps v vs :
  is_list s this h (p :: ps) → values s (p :: ps) (v :: vs) →
  returns (pop_front this)
    (λ _ s', is_list s' this h ps ∧ values s' ps vs ∧ ¬ alive s' p ∧
       same_nodes_outside s s' (h :: p :: ps) ∧
       same_lists_except s s' [this]) s.
Proof.
  intros Hl Hv. eapply returns_mono; [by apply pop_front_spec|].
  intros _ s' (Hl' & Hdead & Hval & Hn & Ho). split_and!; try done.
  apply Forall2_cons_1 in Hv as [_ Hv].
  destruct Hl as (_ & Hnd & _). apply NoDup_cons in Hnd as [_ Hnd].
  apply NoDup_cons in Hnd as [Hp _].
  eapply values_frame; [exact Hv|]. intros x Hx. apply Hval. by intros ->.
Qed.

Lemma pop_back_repr s this h p ps v vs :
  is_list s this h (ps ++ [p]) → values s ps vs → value_at s p = Some v →
  returns (pop_back this)
    (λ _ s', is_list s' this h ps ∧ values s' ps vs ∧ ¬ alive s' p ∧
       same_nodes_outside s s' (h :: ps ++ [p]) ∧
       same_lists_except s s' [this]) s.
Proof.
  intros Hl Hv Hp. eapply returns_mono; [by apply pop_back_spec|].
  intros _ s' (Hl' & Hdead & Hval & Hn & Ho). split_and!; try done.
  destruct Hl as (_ & Hnd & _). apply NoDup_cons in Hnd as [_ Hnd].
  apply NoDup_app in Hnd as (_ & Hdis & _).
  eapply values_frame; [exact Hv|]. intros x Hx. apply Hval.
  intros ->. eapply Hdis; [done|left].
Qed.

Lemma values_snoc_inv s ps p vs :
  values s (ps ++ [p]) vs →
  ∃ vs' v, vs = vs' ++ [v] ∧ values s ps vs' ∧ value_at s p = Some v.
Proof.
  intros (vs1 & vs2 & -> & Hv1 & Hv2)%values_app_inv.
  apply Forall2_cons_inv_l in Hv2 as (v & vs3 & Hv & Hnil & ->).
  apply Forall2_nil_inv_l in Hnil as ->. by exists vs1, v.
Qed.

Lemma reverse_repr fuel s this h ps vs :
  is_list s this h ps → values s ps vs → (length ps < fuel)%nat →
  returns (reverse fuel this)
    (λ _ s', is_list s' this h (rev ps) ∧ values s' (rev ps) (rev vs) ∧
       (∀ x, value_at s' x = value_at s x) ∧
       (∀ x, alive s' x ↔ alive s x) ∧
       same_nodes_outside s s' (h :: ps) ∧
       lists s' = lists s) s.
Proof.
  intros Hl Hv Hfuel. eapply returns_mono; [by apply reverse_spec|].
  intros _ s' (Hl' & Hval & Hal & Hn & Ho). split_and!; try done.
  apply values_rev. eapply values_frame; [exact Hv|]. intros x _. apply Hval.
Qed.

End on_sequences.


(** C7. reverse returns with the elements in the opposite order; a second
    reverse returns with the elements in the original order, in the
    original nodes. *)
Theorem reverse_involution {T} fuel (s : store T) this ps vs :
  repr s this ps vs → (length ps < fuel)%nat →
  ∃ s1, reverse fuel this s = Ret tt s1 ∧ repr s1 this (rev ps) (rev vs) ∧
  ∃ s2, reverse fuel this s1 = Ret tt s2 ∧ repr s2 this ps vs.
Proof.
  intros (h & Hl & Hv) Hfuel.
  destruct (proj1 (returns_eq _ _ _) (reverse_repr fuel s this h ps vs Hl Hv Hfuel))
    as ([] & s1 & Heq1 & Hl1 & Hv1 & _).
  exists s1. split_and!; [done|by exists h|].
  destruct (proj1 (returns_eq _ _ _)
              (reverse_repr fuel s1 this h (rev ps) (rev vs) Hl1 Hv1
                 ltac:(by rewrite length_rev)))
    as ([] & s2 & Heq2 & Hl2 & Hv2 & _).
  rewrite !rev_involutive in *. exists s2. split; [done|by exists h].
Qed.

(** C8. unique: when [operator==] is an equivalence, unique returns and
    leaves exactly the elements that do not compare equal to their
    immediate predecessor, that is the first element of each run of equal
    elements; the nodes left are nodes the list had. *)
Theorem unique_keeps_first_of_each_run {T} (eqb : T → T → bool) fuel
    (s : store T) this ps vs :
  equivalence_test eqb →
  repr s this ps vs → (length ps < fuel)%nat →
  ∃ s' ps', unique eqb fuel this s = Ret tt s' ∧
            repr s' this ps' (first_of_each_run eqb vs) ∧
            ps' ⊆ ps.
Proof.
  intros Heq (h & Hl & Hv) Hfuel.
  destruct (proj1 (returns_eq _ _ _) (unique_spec eqb fuel s this h ps vs Hl Hv Hfuel))
    as ([] & s' & Hrun & ps' & Hl' & Hv' & Hsub & _).
  exists s', ps'. split_and!; try done.
  exists h. split; [done|]. by rewrite <- unique_list_runs.
Qed.

(** C9. merge does nothing when the argument is the receiver or is empty.
    Otherwise it returns, the argument is empty afterwards, with its
    sentinel linked to itself in both directions and its size 0, and the
    size of the receiver is the sum of the two sizes. *)
Theorem merge_empties_argument {T} (ltb : T → T → bool) fuel (s : store T)
    this h psa vsa other oh psb vsb :
  is_list s this h psa → values s psa vsa →
  is_list s other oh psb → values s psb vsb →
  (this ≠ other → apart (h :: psa) (oh :: psb)) →
  Z.of_nat (length psa) + Z.of_nat (length psb) < 2 ^ 64 →
  (length psa + length psb < fuel)%nat →
  merge ltb fuel this this s = Ret tt s ∧
  (psb = [] → merge ltb fuel this other s = Ret tt s) ∧
  (this ≠ other → psb ≠ [] →
     ∃ s', merge ltb fuel this other s = Ret tt s' ∧
           nxt s' oh = Some oh ∧ prv s' oh = Some oh ∧
           size other s' = Ret 0 s' ∧ empty other s' = Ret true s' ∧
           size this s' = Ret (Z.of_nat (length psa) + Z.of_nat (length psb)) s').
Proof.
  intros Hla Hva Hlb Hvb Hap Hsz Hfuel. split_and!.
  - apply merge_self.
  - intros ->. eapply merge_empty_argument. exact (is_list_lookup _ _ _ _ Hlb).
  - intros Hne Hnil.
    pose proof (values_length _ _ _ Hva) as Hlena.
    pose proof (values_length _ _ _ Hvb) as Hlenb.
    destruct (proj1 (returns_eq _ _ _)
                (merge_spec ltb fuel s this h psa vsa other oh psb vsb
                   Hla Hva Hlb Hvb (Hap Hne) Hne Hnil Hsz Hfuel))
      as ([] & s' & Heq & Hl' & _ & Hlo & _).
    exists s'. split_and!; try done.
    + by rewrite (nxt_sentinel _ _ _ _ Hlo).
    + by rewrite (prv_sentinel _ _ _ _ Hlo).
    + by rewrite (size_spec _ _ _ _ Hlo).
    + by rewrite (empty_spec _ _ _ _ Hlo).
    + rewrite (size_spec _ _ _ _ Hl'). do 2 f_equal.
      rewrite length_fmap, (Permutation_length (merge_lists_perm _ _ _)), length_app.
      rewrite !length_zip. lia.
Qed.

(** C10. On a list that is not empty, decrementing the iterator returned
    by end(), in prefix or in postfix form, succeeds and leaves it on the
    last element, which it then dereferences to; cend() is the same
    operation. The sentinel position itself can be neither dereferenced
    nor stepped forward from. *)
Theorem decrement_from_end {T} (s : store T) this ps vs :
  repr s this ps vs → ps ≠ [] →
  ∃ h p v,
    let e := Iterator (Some this) (Some h) in
    let l := Iterator (Some this) (Some p) in
    end_ this s = Ret e s ∧ cend this s = Ret e s ∧
    last ps = Some p ∧ last vs = Some v ∧
    pre_decr (e, s) = Ret tt (l, s) ∧
    post_decr (e, s) = Ret e (l, s) ∧
    deref (l, s) = Ret v (l, s) ∧
    back this s = Ret v s ∧
    deref (e, s) = Throw invalid_iterator (e, s) ∧
    pre_incr (e, s) = Throw invalid_iterator (e, s) ∧
    post_incr (e, s) = Throw invalid_iterator (e, s).
Proof.
  intros (h & Hl & Hv) Hne.
  destruct ps as [|p ps' _] using rev_ind; [done|].
  apply values_snoc_inv in Hv as (vs' & v & -> & Hv1 & Hp).
  destruct (decr_from_end s this h (ps' ++ [p]) Hl Hne) as [Hpre Hpost].
  rewrite last_snoc in Hpre, Hpost. cbn [default] in Hpre, Hpost.
  destruct (incr_at_end s this (Some h) _ (is_list_lookup _ _ _ _ Hl))
    as (Hi1 & Hi2 & Hd & _).
  exists h, p, v. cbn zeta. split_and!; try done.
  - by eapply end_spec.
  - by eapply end_spec.
  - apply last_snoc.
  - apply last_snoc.
  - eapply deref_spec; [done| |done]. apply elem_of_app. right. left.
  - by eapply back_spec.
Qed.

(** ** Concrete lists *)

Lemma apart_Forall (xs ys : list loc) : Forall (λ x, x ∉ ys) xs → apart xs ys.
Proof. intros H x Hx. by eapply (proj1 (Forall_forall _ _) H). Qed.

(** Goals about a store that is given in full are settled by running the
    definitions. *)
Ltac by_computation := apply (bool_decide_unpack _); vm_compute; exact I.
Ltac concrete_links := cbv [chain nchain app]; split_and!; vm_compute; reflexivity.
Ltac concrete_list :=
  split_and!; [vm_compute; reflexivity|by_computation|concrete_links|vm_compute; reflexivity].
Ltac concrete_values :=
  repeat (apply Forall2_cons; split; [vm_compute; reflexivity|]); apply Forall2_nil_2.
Ltac concrete_repr h := exists h; split; [concrete_list|concrete_values].
Ltac concrete_apart := apply apart_Forall; by_computation.
Ltac concrete_ascending :=
  repeat (apply ascending_cons; split; [reflexivity|]);
  first [apply ascending_singleton|apply ascending_nil].

Lemma Z_ltb_strict_weak_order : strict_weak_order Z.ltb.
Proof. split; intros; rewrite ?Z.ltb_lt, ?Z.ltb_ge in *; lia. Qed.

Lemma Z_eqb_equivalence_test : equivalence_test Z.eqb.
Proof. split; intros; rewrite ?Z.eqb_eq in *; lia. Qed.

Lemma reverse_involution_witness :
  ∃ s1, reverse 5 1%positive (examples.two_lists [1; 2; 3] []) = Ret tt s1 ∧
        repr s1 1%positive [5; 4; 3]%positive [3; 2; 1] ∧
  ∃ s2, reverse 5 1%positive s1 = Ret tt s2 ∧
        repr s2 1%positive [3; 4; 5]%positive [1; 2; 3].
Proof.
  apply (reverse_involution 5 (examples.two_lists [1; 2; 3] []) 1%positive
           [3; 4; 5]%positive [1; 2; 3]).
  - concrete_repr 1%positive.
  - cbn; lia.
Defined.


Lemma merge_is_stable_witness :
  ∃ s' ps',
    merge Z.ltb 8 1%positive 2%positive (examples.two_lists [1; 3; 3; 5] [2; 3; 4])
      = Ret tt s' ∧
    values s' ps' [1; 2; 3; 3; 3; 4; 5] ∧
    precedes 4%positive 8%positive ps' ∧ precedes 5%positive 8%positive ps'.
Proof.
  destruct (merge_is_stable Z.ltb 8 (examples.two_lists [1; 3; 3; 5] [2; 3; 4])
              1%positive 1%positive [3; 4; 5; 6]%positive [1; 3; 3; 5]
              2%positive 2%positive [7; 8; 9]%positive [2; 3; 4])
    as (s' & ps' & Heq & _ & Hv & _ & _ & _ & Hprec).
  - apply Z_ltb_strict_weak_order.
  - concrete_list.
  - concrete_values.
  - concrete_list.
  - concrete_values.
  - discriminate.
  - concrete_apart.
  - concrete_ascending.
  - concrete_ascending.
  - cbn; lia.
  - cbn; lia.
  - exists s', ps'. split_and!; [exact Heq|exact Hv| |].
    + apply (Hprec 4%positive 8%positive 3 3);
        [by_computation|by_computation|vm_compute; reflexivity..].
    + apply (Hprec 5%positive 8%positive 3 3);
        [by_computation|by_computation|vm_compute; reflexivity..].
Defined.

Lemma sort_stack_within_bounds_witness :
  ∃ a L R top stk,
    loop_prefix 1 (λ '(_, _, _, top), ret (0 <=? top)) (qsort_round Z.ltb 10)
      (Some <$> [3; 4; 5; 6; 7; 8]%positive,
       <[0%nat := 0]> (replicate 6 0), <[0%nat := 5]> (replicate 6 0), 0)
      (examples.two_lists [1; 2; 3; 4; 5; 6] [])
    = Ret (a, L, R, top) (examples.two_lists [1; 2; 3; 4; 5; 6] []) ∧
    Z.of_nat (length L) = 6 ∧ Z.of_nat (length R) = 6 ∧
    stack_holds L R top stk ∧ ranges_ok 6 stk ∧
    -1 ≤ top ∧ 2 * (top + 1) ≤ 6 ∧ top < 6.
Proof.
  destruct (sort_stack_within_bounds Z.ltb 10 (examples.two_lists [1; 2; 3; 4; 5; 6] [])
              1%positive [3; 4; 5; 6; 7; 8]%positive [1; 2; 3; 4; 5; 6] 1)
    as (a & L & R & top & stk & Heq & HL & HR & Hst & Hok & H1 & H2 & H3 & _).
  - apply Z_ltb_strict_weak_order.
  - concrete_repr 1%positive.
  - cbn; lia.
  - cbn; lia.
  - cbn; lia.
  - exists a, L, R, top, stk. split_and!; [exact Heq|exact HL|exact HR|exact Hst
      |exact Hok|exact H1|exact H2|exact H3].
Defined.

(** The claim C3 as the spec words it fails: sort does not choose the
    larger of the two remaining subranges. On the six values 1 to 6 the
    first round splits the cells 0 to 5 into the cells 0 to 1 and the
    cells 3 to 5, and both are on the stack afterwards, the smaller at
    index 0 and the larger at index 1. *)
Lemma sort_pushes_both_subranges :
  loop_prefix 1 (λ '(_, _, _, top), ret (0 <=? top)) (qsort_round Z.ltb 10)
    (Some <$> [3; 4; 5; 6; 7; 8]%positive,
     <[0%nat := 0]> (replicate 6 0), <[0%nat := 5]> (replicate 6 0), 0)
    (examples.two_lists [1; 2; 3; 4; 5; 6] [])
  = Ret (Some <$> [3; 4; 5; 6; 7; 8]%positive,
         [0; 3; 0; 0; 0; 0], [1; 5; 0; 0; 0; 0], 1)
        (examples.two_lists [1; 2; 3; 4; 5; 6] []).
Proof. vm_compute. reflexivity. Qed.



Lemma unique_keeps_first_of_each_run_witness :
  ∃ s' ps',
    unique Z.eqb 8 1%positive (examples.two_lists [1; 1; 2; 2; 2; 3; 1] []) = Ret tt s' ∧
    repr s' 1%positive ps' [1; 2; 3; 1] ∧
    ps' ⊆ [3; 4; 5; 6; 7; 8; 9]%positive.
Proof.
  apply (unique_keeps_first_of_each_run Z.eqb 8
           (examples.two_lists [1; 1; 2; 2; 2; 3; 1] []) 1%positive
           [3; 4; 5; 6; 7; 8; 9]%positive [1; 1; 2; 2; 2; 3; 1]).
  - apply Z_eqb_equivalence_test.
  - concrete_repr 1%positive.
  - cbn; lia.
Defined.

Lemma merge_empties_argument_witness :
  ∃ s',
    merge Z.ltb 8 1%positive 2%positive (examples.two_lists [1; 3; 3; 5] [2; 3; 4])
      = Ret tt s' ∧
    nxt s' 2%positive = Some 2%positive ∧ prv s' 2%positive = Some 2%positive ∧
    size 2%positive s' = Ret 0 s' ∧ empty 2%positive s' = Ret true s' ∧
    size 1%positive s' = Ret 7 s'.
Proof.
  destruct (merge_empties_argument Z.ltb 8 (examples.two_lists [1; 3; 3; 5] [2; 3; 4])
              1%positive 1%positive [3; 4; 5; 6]%positive [1; 3; 3; 5]
              2%positive 2%positive [7; 8; 9]%positive [2; 3; 4])
    as (_ & _ & Hmerge).
  - concrete_list.
  - concrete_values.
  - concrete_list.
  - concrete_values.
  - intros _. concrete_apart.
  - cbn; lia.
  - cbn; lia.
  - apply Hmerge; discriminate.
Defined.

Lemma decrement_from_end_witness :
  ∃ h p v,
    let e := Iterator (Some 1%positive) (Some h) in
    let l := Iterator (Some 1%positive) (Some p) in
    let s := examples.two_lists [1; 2; 3] [] in
    end_ 1%positive s = Ret e s ∧ cend 1%positive s = Ret e s ∧
    last [3; 4; 5]%positive = Some p ∧ last [1; 2; 3] = Some v ∧
    pre_decr (e, s) = Ret tt (l, s) ∧
    post_decr (e, s) = Ret e (l, s) ∧
    deref (l, s) = Ret v (l, s) ∧
    back 1%positive s = Ret v s ∧
    deref (e, s) = Throw invalid_iterator (e, s) ∧
    pre_incr (e, s) = Throw invalid_iterator (e, s) ∧
    post_incr (e, s) = Throw invalid_iterator (e, s).
Proof.
  apply (decrement_from_end (examples.two_lists [1; 2; 3] []) 1%positive
           [3; 4; 5]%positive [1; 2; 3]).
  - concrete_repr 1%positive.
  - discriminate.
Defined.

(** ** Where the [int] indexes of sort overflow *)

Section equations.
Context {St : Type}.








End equations.

Section sorted_input.
Context {T : Type} (ltb : T → T → bool) (Hlt : strict_weak_order ltb).
Implicit Types (s : store T) (al : list (loc * T)).







End sorted_input.

(** ** A list that is too long for sort *)

Section filling.
Implicit Types (s : store Z).








End filling.



(** * Further properties of the code *)

Section lookups.
Context {T : Type}.
Implicit Types (s : store T) (ps : list loc) (vs : list T).

Lemma repr_nil s this h : is_list s this h [] → repr s this [] [].
Proof. intros Hl. exists h. split; [done|constructor]. Qed.

Lemma repr_other_list s s' l this ps vs fp :
  repr s l ps vs → lists s !! this = None →
  same_nodes_outside s s' fp → same_lists_except s s' [this] → fp = [] →
  repr s' l ps vs.
Proof.
  intros (h & Hl & Hv) Hnew Hn Ho ->.
  destruct (list_untouched s s' l h ps vs [] [this]) as [? ?]; try done.
  - intros x _ Hx. by apply elem_of_nil in Hx.
  - intros ->%list_elem_of_singleton. pose proof (is_list_lookup _ _ _ _ Hl). congruence.
  - by exists h.
Qed.

Lemma split_at {A} (l : list A) i x :
  l !! i = Some x → l = take i l ++ x :: drop (S i) l.
Proof. intros H. by rewrite take_drop_middle. Qed.

End lookups.

(** X1. The default constructor returns a new list object that is empty:
    size 0, empty, begin() equal to end(); the lists that existed are as
    they were. *)
Theorem constructed_list_is_empty {T} (s : store T) :
  ∃ l s', list_ctor s = Ret l s' ∧ lists s !! l = None ∧
    repr s' l [] [] ∧
    size l s' = Ret 0 s' ∧ empty l s' = Ret true s' ∧
    (∃ it, begin_ l s' = Ret it s' ∧ end_ l s' = Ret it s') ∧
    (∀ l0 ps vs, repr s l0 ps vs → repr s' l0 ps vs).
Proof.
  destruct (proj1 (returns_eq _ _ _) (list_ctor_spec s))
    as (l & s' & Heq & Hnew & h & Hfresh & Hl & Hn & Ho).
  exists l, s'. split_and!; try done.
  - by apply (repr_nil _ _ h).
  - by rewrite (size_spec _ _ _ _ Hl).
  - by rewrite (empty_spec _ _ _ _ Hl).
  - exists (Iterator (Some l) (Some h)). split.
    + by rewrite (begin_spec _ _ _ _ Hl).
    + by rewrite (end_spec _ _ _ _ Hl).
  - intros l0 ps vs Hr. by eapply repr_other_list.
Qed.

(** X2. push_back returns and appends the value, in a node that was not
    in use; the value is then the last one and the size is one more. *)
Theorem push_back_appends {T} (s : store T) this ps vs v :
  repr s this ps vs → Z.of_nat (length ps) + 1 < 2 ^ 64 →
  ∃ s' cur, push_back this v s = Ret tt s' ∧ ¬ alive s cur ∧
    repr s' this (ps ++ [cur]) (vs ++ [v]) ∧
    back this s' = Ret v s' ∧
    size this s' = Ret (Z.of_nat (length ps) + 1) s'.
Proof.
  intros (h & Hl & Hv) Hsz.
  destruct (proj1 (returns_eq _ _ _) (push_back_repr s this h ps vs v Hl Hv Hsz))
    as ([] & s' & Heq & cur & Hfresh & Hl' & Hv' & _).
  exists s', cur. split_and!; try done.
  - by exists h.
  - eapply back_spec; [exact Hl'|].
    apply values_snoc_inv in Hv' as (vs' & v' & Hvs & _ & Hcur).
    apply app_inj_tail in Hvs as [_ ->]. done.
  - rewrite (size_spec _ _ _ _ Hl'). do 2 f_equal. rewrite length_app. cbn. lia.
Qed.

(** X3. push_front returns and puts the value first, in a node that was
    not in use; the size is one more. *)
Theorem push_front_prepends {T} (s : store T) this ps vs v :
  repr s this ps vs → Z.of_nat (length ps) + 1 < 2 ^ 64 →
  ∃ s' cur, push_front this v s = Ret tt s' ∧ ¬ alive s cur ∧
    repr s' this (cur :: ps) (v :: vs) ∧
    front this s' = Ret v s' ∧
    size this s' = Ret (Z.of_nat (length ps) + 1) s'.
Proof.
  intros (h & Hl & Hv) Hsz.
  destruct (proj1 (returns_eq _ _ _) (push_front_repr s this h ps vs v Hl Hv Hsz))
    as ([] & s' & Heq & cur & Hfresh & Hl' & Hv' & _).
  exists s', cur. split_and!; try done.
  - by exists h.
  - eapply front_spec; [exact Hl'|]. by apply Forall2_cons_1 in Hv' as [? _].
  - rewrite (size_spec _ _ _ _ Hl'). do 2 f_equal. cbn [length]. lia.
Qed.

(** X4. insert puts the value in a new node immediately before the
    position it is given, which may be end(): the iterator it returns
    dereferences to the value, and one step forward from it is the
    position. *)
Theorem insert_places_before {T} (s : store T) this h ps1 ps2 vs1 vs2 v :
  is_list s this h (ps1 ++ ps2) → values s ps1 vs1 → values s ps2 vs2 →
  Z.of_nat (length (ps1 ++ ps2)) + 1 < 2 ^ 64 →
  let pos := Iterator (Some this) (Some (default h (ps2 !! 0%nat))) in
  ∃ cur s',
    let it := Iterator (Some this) (Some cur) in
    insert this pos v s = Ret it s' ∧ ¬ alive s cur ∧
    is_list s' this h (ps1 ++ cur :: ps2) ∧
    values s' (ps1 ++ cur :: ps2) (vs1 ++ v :: vs2) ∧
    deref (it, s') = Ret v (it, s') ∧
    pre_incr (it, s') = Ret tt (pos, s') ∧
    size this s' = Ret (Z.of_nat (length (ps1 ++ ps2)) + 1) s'.
Proof.
  intros Hl Hv1 Hv2 Hsz pos.
  destruct (proj1 (returns_eq _ _ _) (insert_repr s this h ps1 ps2 vs1 vs2 v Hl Hv1 Hv2 Hsz))
    as (it & s' & Heq & cur & Hfresh & -> & Hl' & Hv' & _).
  exists cur, s'. cbn zeta. split_and!; try done.
  - eapply deref_spec; [exact Hl'| |].
    + apply elem_of_app. right. left.
    + pose proof (values_length _ _ _ Hv1) as Hlen.
      destruct (values_lookup _ _ _ (length ps1) cur Hv') as (v' & Hi & Hcur).
      { by apply list_lookup_middle. }
      rewrite list_lookup_middle in Hi by done. by injection Hi as <-.
  - by rewrite (pre_incr_spec _ _ _ _ _ _ Hl').
  - rewrite (size_spec _ _ _ _ Hl'). do 2 f_equal. rewrite !length_app. cbn [length]. lia.
Qed.

(** X5. insert throws exactly when the iterator belongs to another list or
    is null, and then it throws invalid_iterator and changes nothing; the
    sentinel position is accepted. *)
Theorem insert_throws_iff {T} (s : store T) this h ps vs pos v :
  is_list s this h ps → values s ps vs → valid_position this h ps pos →
  Z.of_nat (length ps) + 1 < 2 ^ 64 →
  ((∃ e s', insert this pos v s = Throw e s') ↔
     owner pos ≠ Some this ∨ ptr pos = None) ∧
  (owner pos ≠ Some this ∨ ptr pos = None →
     insert this pos v s = Throw invalid_iterator s).
Proof.
  intros Hl Hv Hvalid Hsz. split; [|apply insert_throws].
  split; [|intros Hc; exists invalid_iterator, s; by apply insert_throws].
  intros (e & s' & Heq).
  destruct (valid_position_cases _ _ _ _ Hvalid) as [Hc|[->|(ps1 & p & ps2 & -> & ->)]];
    [done| |]; exfalso.
  - destruct (proj1 (returns_eq _ _ _)
                (insert_spec s this h ps [] v ltac:(by rewrite app_nil_r)
                   ltac:(by rewrite app_nil_r))) as (it & s1 & Heq1 & _).
    cbn in Heq1. congruence.
  - destruct (proj1 (returns_eq _ _ _) (insert_spec s this h ps1 (p :: ps2) v Hl Hsz))
      as (it & s1 & Heq1 & _).
    cbn in Heq1. congruence.
Qed.

(** X6. pop_front on a list that is not empty returns, removes the first
    element and frees its node. *)
Theorem pop_front_removes_first {T} (s : store T) this p ps v vs :
  repr s this (p :: ps) (v :: vs) →
  ∃ s', pop_front this s = Ret tt s' ∧ repr s' this ps vs ∧ ¬ alive s' p ∧
        size this s' = Ret (Z.of_nat (length ps)) s'.
Proof.
  intros (h & Hl & Hv).
  destruct (proj1 (returns_eq _ _ _) (pop_front_repr s this h p ps v vs Hl Hv))
    as ([] & s' & Heq & Hl' & Hv' & Hdead & _).
  exists s'. split_and!; try done; [by exists h|by eapply size_spec].
Qed.

(** X7. pop_back on a list that is not empty returns, removes the last
    element and frees its node. *)
Theorem pop_back_removes_last {T} (s : store T) this p ps v vs :
  repr s this (ps ++ [p]) (vs ++ [v]) →
  ∃ s', pop_back this s = Ret tt s' ∧ repr s' this ps vs ∧ ¬ alive s' p ∧
        size this s' = Ret (Z.of_nat (length ps)) s'.
Proof.
  intros (h & Hl & Hv).
  apply values_snoc_inv in Hv as (vs' & v' & Hvs & Hv & Hp).
  apply app_inj_tail in Hvs as [-> ->].
  destruct (proj1 (returns_eq _ _ _) (pop_back_repr s this h p ps v' vs' Hl Hv Hp))
    as ([] & s' & Heq & Hl' & Hv' & Hdead & _).
  exists s'. split_and!; try done; [by exists h|by eapply size_spec].
Qed.

(** X8. front and back return the first and the last value and change
    nothing; on an empty list both throw container_is_empty. *)
Theorem front_and_back {T} (s : store T) this ps vs :
  repr s this ps vs →
  front this s = match vs with
                 | [] => Throw container_is_empty s
                 | v :: _ => Ret v s
                 end ∧
  back this s = match last vs with
                | None => Throw container_is_empty s
                | Some v => Ret v s
                end.
Proof.
  intros (h & Hl & Hv). split.
  - destruct ps as [|p ps]; inversion Hv; subst.
    + eapply front_empty. exact (is_list_lookup _ _ _ _ Hl).
    + by eapply front_spec.
  - destruct ps as [|p ps _] using rev_ind.
    + inversion Hv; subst. eapply back_empty. exact (is_list_lookup _ _ _ _ Hl).
    + apply values_snoc_inv in Hv as (vs' & v & -> & _ & Hp).
      rewrite last_snoc. by eapply back_spec.
Qed.

(** X9. pop_front and pop_back on an empty list throw container_is_empty
    and change nothing. *)
Theorem pops_on_empty_throw {T} (s : store T) this :
  repr s this [] [] →
  pop_front this s = Throw container_is_empty s ∧
  pop_back this s = Throw container_is_empty s.
Proof.
  intros (h & Hl & _). pose proof (is_list_lookup _ _ _ _ Hl) as Hobj. split.
  - by eapply pop_front_empty.
  - by eapply pop_back_empty.
Qed.

(** X10. clear returns and leaves the list empty, with every node it held
    freed and its sentinel kept. *)
Theorem clear_empties {T} fuel (s : store T) this h ps :
  is_list s this h ps → (length ps < fuel)%nat →
  ∃ s', clear fuel this s = Ret tt s' ∧
    is_list s' this h [] ∧ repr s' this [] [] ∧
    (∀ x, x ∈ ps → ¬ alive s' x) ∧ alive s' h ∧
    size this s' = Ret 0 s' ∧ empty this s' = Ret true s'.
Proof.
  intros Hl Hfuel.
  destruct (proj1 (returns_eq _ _ _) (clear_spec fuel s this h ps Hl Hfuel))
    as ([] & s' & Heq & Hl' & Hdead & _).
  exists s'. split_and!; try done.
  - by apply (repr_nil _ _ h).
  - eapply is_list_alive; [done|left].
  - by rewrite (size_spec _ _ _ _ Hl').
  - by rewrite (empty_spec _ _ _ _ Hl').
Qed.

(** X11. The destructor returns and frees every node of the list, the
    sentinel too, and sets the head pointer to null; nodes of other lists
    and other list objects are not touched. *)
Theorem destructor_frees_every_node {T} fuel (s : store T) this h ps :
  is_list s this h ps → (length ps < fuel)%nat →
  ∃ s', list_dtor fuel this s = Ret tt s' ∧
    (∀ x, x ∈ h :: ps → ¬ alive s' x) ∧
    lists s' !! this = Some (ListObj None 0) ∧
    same_nodes_outside s s' (h :: ps) ∧
    same_lists_except s s' [this].
Proof.
  intros Hl Hfuel.
  cut (returns (list_dtor fuel this)
         (λ _ s', (∀ x, x ∈ h :: ps → ¬ alive s' x) ∧
            lists s' !! this = Some (ListObj None 0) ∧
            same_nodes_outside s s' (h :: ps) ∧
            same_lists_except s s' [this]) s).
  { intros ([] & s' & Heq & ?)%returns_eq. by exists s'. }
  unfold list_dtor.
  apply returns_bind. eapply returns_mono; [by apply clear_spec|].
  intros _ s1 (Hl1 & Hdead & Hn & Ho).
  pose proof (is_list_lookup _ _ _ _ Hl1) as Hobj.
  apply returns_bind. eapply returns_get_head; [exact Hobj|]. cbn [head].
  apply returns_bind. apply returns_delete_node; [eapply is_list_alive; [done|left]|].
  unfold set_head, store_list, returns. cbn [lists]. rewrite Hobj.
  unfold upd_list. cbn [nodes lists sz]. split_and!.
  - intros x Hx [nd Hnd]. cbn in Hnd. apply elem_of_cons in Hx as [->|Hx].
    + by rewrite lookup_delete_eq in Hnd.
    + destruct (decide (x = h)) as [->|Hne]; [by rewrite lookup_delete_eq in Hnd|].
      rewrite lookup_delete_ne in Hnd by done. by apply (Hdead x Hx); exists nd.
  - by rewrite lookup_alter_eq, Hobj.
  - intros x Hx Hal. cbn. rewrite lookup_delete_ne.
    + by apply Hn.
    + intros ->. apply Hx. left.
  - intros l Hl0. cbn. rewrite lookup_alter_ne.
    + by apply Ho.
    + intros ->. apply Hl0. left.
Qed.

(** X12. The copy constructor returns a list object that did not exist
    before, holding the values of its argument; its sentinel and all its
    nodes were not in use before, so the two lists share no node, sentinels
    included; the argument is as it was. *)
Theorem copy_constructor_copies {T} fuel (s : store T) other oh pso vso :
  is_list s other oh pso → values s pso vso → (length pso < fuel)%nat →
  ∃ this s' h new, list_copy_ctor fuel other s = Ret this s' ∧
    lists s !! this = None ∧ this ≠ other ∧
    is_list s' this h new ∧ values s' new vso ∧
    is_list s' other oh pso ∧ values s' pso vso ∧
    (∀ x, x ∈ h :: new → ¬ alive s x) ∧
    apart (h :: new) (oh :: pso).
Proof.
  intros Hl Hv Hfuel.
  destruct (proj1 (returns_eq _ _ _) (list_copy_ctor_spec fuel s other oh pso vso Hl Hv Hfuel))
    as (this & s' & Heq & Hnew & h & new & Hl' & Hv' & Hlo & Hvo & Hfresh & _).
  exists this, s', h, new. split_and!; try done.
  - intros ->. pose proof (is_list_lookup _ _ _ _ Hl). congruence.
  - intros x Hx Hx'. apply (Hfresh x Hx).
    eapply is_list_alive; [exact Hl|exact Hx'].
Qed.

(** X13. Assignment from the list itself changes nothing; assignment from
    another list returns with the values of that list in the receiver and
    leaves the other list as it was. *)
Theorem assignment_copies {T} fuel (s : store T) this h ps other oh pso vso :
  is_list s this h ps →
  is_list s other oh pso → values s pso vso →
  (this ≠ other → apart (h :: ps) (oh :: pso)) →
  (length ps < fuel)%nat → (length pso < fuel)%nat →
  assign fuel this this s = Ret tt s ∧
  (this ≠ other →
   ∃ s' new, assign fuel this other s = Ret tt s' ∧
     repr s' this new vso ∧ repr s' other pso vso ∧
     size this s' = Ret (Z.of_nat (length vso)) s').
Proof.
  intros Hl Hlo Hvo Hap Hf1 Hf2. split; [apply assign_self|].
  intros Hne.
  destruct (proj1 (returns_eq _ _ _)
              (assign_spec fuel s this h ps other oh pso vso Hl Hlo Hvo (Hap Hne) Hne Hf1 Hf2))
    as ([] & s' & Heq & new & Hl' & Hv' & Hlo' & Hvo' & _).
  exists s', new. split_and!; try done.
  - by exists h.
  - by exists oh.
  - rewrite (size_spec _ _ _ _ Hl'). do 2 f_equal. by eapply values_length.
Qed.

(** X14. A step forward from the element at index [i] leaves the iterator
    on the element at index [i + 1], or on end() after the last element;
    the postfix form returns the iterator as it was. Nothing else
    changes. *)
Theorem increment_moves_forward {T} (s : store T) this h ps i p :
  is_list s this h ps → ps !! i = Some p →
  let it := Iterator (Some this) (Some p) in
  let nx := Iterator (Some this) (Some (default h (ps !! S i))) in
  pre_incr (it, s) = Ret tt (nx, s) ∧ post_incr (it, s) = Ret it (nx, s).
Proof.
  intros Hl Hp. cbn zeta. pose proof Hl as Hl'.
  rewrite (split_at ps i p Hp) in Hl'.
  assert (drop (S i) ps !! 0%nat = ps !! S i) as Hnx.
  { rewrite lookup_drop. f_equal. lia. }
  split.
  - rewrite (pre_incr_spec _ _ _ _ _ _ Hl'). by rewrite Hnx.
  - rewrite (post_incr_spec _ _ _ _ _ _ Hl'). by rewrite Hnx.
Qed.

(** X15. A step backward from the element at index [i + 1] leaves the
    iterator on the element at index [i]; from the first element, and
    from any iterator of an empty list, it throws invalid_iterator and
    nothing changes. *)
Theorem decrement_moves_backward {T} (s : store T) this h ps :
  is_list s this h ps →
  (∀ i q p, ps !! i = Some q → ps !! S i = Some p →
     let it := Iterator (Some this) (Some p) in
     let pv := Iterator (Some this) (Some q) in
     pre_decr (it, s) = Ret tt (pv, s) ∧ post_decr (it, s) = Ret it (pv, s)) ∧
  (∀ p, ps !! 0%nat = Some p →
     let it := Iterator (Some this) (Some p) in
     pre_decr (it, s) = Throw invalid_iterator (it, s) ∧
     post_decr (it, s) = Throw invalid_iterator (it, s)) ∧
  (ps = [] → ∀ it, owner it = Some this →
     pre_decr (it, s) = Throw invalid_iterator (it, s) ∧
     post_decr (it, s) = Throw invalid_iterator (it, s)).
Proof.
  intros Hl. split_and!.
  - intros i q p Hq Hp. cbn zeta. pose proof Hl as Hl'.
    rewrite (split_at ps (S i) p Hp) in Hl'.
    pose proof (lookup_lt_Some _ _ _ Hp) as Hlt.
    assert (take (S i) ps ≠ []) as Hne.
    { intros Hnil. apply (f_equal length) in Hnil. rewrite length_take in Hnil.
      cbn [length] in Hnil. lia. }
    destruct (decr_spec _ _ _ _ _ _ Hl' Hne) as [Hpre Hpost].
    rewrite last_take in Hpre, Hpost by lia.
    replace (S i - 1)%nat with i in Hpre, Hpost by lia.
    rewrite Hq in Hpre, Hpost. done.
  - intros p Hp. cbn zeta. destruct ps as [|p' ps']; [done|]. cbn in Hp. injection Hp as ->.
    by eapply decr_at_begin.
  - intros -> it Hit. eapply decr_on_empty; [|done]. exact (is_list_lookup _ _ _ _ Hl).
Qed.

(** X16. An iterator without a list or without a node, such as a
    default-constructed one, can be neither moved nor dereferenced: every
    operator throws invalid_iterator and nothing changes. *)
Theorem null_iterator_throws {T} (s : store T) it :
  owner it = None ∨ ptr it = None →
  pre_incr (it, s) = Throw invalid_iterator (it, s) ∧
  post_incr (it, s) = Throw invalid_iterator (it, s) ∧
  pre_decr (it, s) = Throw invalid_iterator (it, s) ∧
  post_decr (it, s) = Throw invalid_iterator (it, s) ∧
  deref (it, s) = Throw invalid_iterator (it, s) ∧
  arrow (it, s) = Throw invalid_iterator (it, s).
Proof.
  destruct it as [[o|] [p|]]; cbn [owner ptr]; intros [?|?]; try done;
    repeat split; reflexivity.
Qed.

(** X17. begin() equals end() exactly when the list is empty, which is
    also what empty() answers; [!=] is the negation of [==]. *)
Theorem begin_is_end_iff_empty {T} (s : store T) this ps vs :
  repr s this ps vs →
  ∃ b e, begin_ this s = Ret b s ∧ end_ this s = Ret e s ∧
    cbegin this s = Ret b s ∧ cend this s = Ret e s ∧
    (iter_eq b e = true ↔ vs = []) ∧
    iter_ne b e = negb (iter_eq b e) ∧
    empty this s = Ret (iter_eq b e) s.
Proof.
  intros (h & Hl & Hv). pose proof (values_length _ _ _ Hv) as Hlen.
  exists (Iterator (Some this) (Some (default h (ps !! 0%nat)))), (Iterator (Some this) (Some h)).
  assert (iter_eq (Iterator (Some this) (Some (default h (ps !! 0%nat))))
            (Iterator (Some this) (Some h)) = bool_decide (ps = [])) as Heq.
  { unfold iter_eq. cbn [owner ptr]. rewrite bool_decide_eq_true_2 by done. cbn [andb].
    apply bool_decide_ext. split.
    - intros [= Hd]. destruct Hl as (_ & Hnd & _).
      by apply (first_not_sentinel h [] ps).
    - by intros ->. }
  split_and!.
  - by eapply begin_spec.
  - by eapply end_spec.
  - by eapply begin_spec.
  - by eapply end_spec.
  - rewrite Heq, bool_decide_eq_true. split; intros ->; [by destruct vs|by destruct ps].
  - done.
  - rewrite Heq. by eapply empty_spec.
Qed.

(** X18. Dereferencing an iterator on the element at index [i] returns
    the value at index [i], and [operator->] the address of the same
    value; neither changes anything. *)
Theorem dereference_reads_value {T} (s : store T) this ps vs i p v :
  repr s this ps vs → ps !! i = Some p → vs !! i = Some v →
  let it := Iterator (Some this) (Some p) in
  deref (it, s) = Ret v (it, s) ∧ arrow (it, s) = Ret (Some v) (it, s).
Proof.
  intros (h & Hl & Hv) Hp Hvi. cbn zeta.
  destruct (values_lookup _ _ _ _ _ Hv Hp) as (v' & Hv' & Hval).
  assert (v' = v) as -> by congruence.
  pose proof (list_elem_of_lookup_2 _ _ _ Hp) as Hin. split.
  - by eapply deref_spec.
  - by eapply arrow_spec.
Qed.

(** X19. merge and reverse, and sort on a list of at most 2^30 + 1
    elements, only relink: every node keeps its value, no node is allocated
    and none is freed. *)
Theorem relinking_moves_no_value {T} (ltb : T → T → bool) fuel (s : store T)
    this h ps vs :
  is_list s this h ps → values s ps vs → (length ps + 1 < fuel)%nat →
  let same := λ s' : store T,
    (∀ x, value_at s' x = value_at s x) ∧ (∀ x, alive s' x ↔ alive s x) in
  (strict_weak_order ltb → Z.of_nat (length ps) ≤ 2 ^ 30 + 1 →
     returns (sort ltb fuel this) (λ _ s', same s') s) ∧
  returns (reverse fuel this) (λ _ s', same s') s ∧
  (∀ other oh pso vso,
     is_list s other oh pso → values s pso vso → this ≠ other →
     apart (h :: ps) (oh :: pso) →
     Z.of_nat (length ps) + Z.of_nat (length pso) < 2 ^ 64 →
     (length ps + length pso < fuel)%nat →
     returns (merge ltb fuel this other) (λ _ s', same s') s).
Proof.
  intros Hl Hv Hfuel. cbn zeta. split_and!.
  - intros Hlt Hn. eapply returns_mono; [by apply (sort_spec ltb Hlt fuel s this h ps vs)|].
    intros _ s' (al & _ & _ & _ & _ & Hval & Hal & _). done.
  - eapply returns_mono; [apply (reverse_spec fuel s this h ps); [done|lia]|].
    intros _ s' (_ & Hval & Hal & _). done.
  - intros other oh pso vso Hlo Hvo Hne Hap Hsum Hfo.
    destruct (decide (pso = [])) as [->|Hnil].
    + eapply returns_of_eq.
      * eapply merge_empty_argument. exact (is_list_lookup _ _ _ _ Hlo).
      * done.
    + eapply returns_mono; [by apply (merge_spec ltb fuel s this h ps vs other oh pso vso)|].
      intros _ s' (_ & _ & _ & Hval & Hal & _). done.
Qed.

(** X20. merge keeps the order that each of the two lists had: the nodes
    of the receiver and the nodes of the argument are both subsequences of
    the merged list. No order is asked of the two lists for this. *)
Theorem merge_keeps_own_order {T} (ltb : T → T → bool) fuel (s : store T)
    this h psa vsa other oh psb vsb :
  is_list s this h psa → values s psa vsa →
  is_list s other oh psb → values s psb vsb →
  this ≠ other → apart (h :: psa) (oh :: psb) →
  Z.of_nat (length psa) + Z.of_nat (length psb) < 2 ^ 64 →
  (length psa + length psb < fuel)%nat →
  ∃ s' ps', merge ltb fuel this other s = Ret tt s' ∧
    is_list s' this h ps' ∧
    psa `sublist_of` ps' ∧ psb `sublist_of` ps' ∧
    length ps' = (length psa + length psb)%nat.
Proof.
  intros Hla Hva Hlb Hvb Hne Hap Hsz Hfuel.
  pose proof (values_length _ _ _ Hva) as Hlena.
  pose proof (values_length _ _ _ Hvb) as Hlenb.
  destruct (decide (psb = [])) as [->|Hnil].
  { exists s, psa.
    split_and!; [|done|done|apply sublist_nil_l|cbn [length]; lia].
    eapply merge_empty_argument. exact (is_list_lookup _ _ _ _ Hlb). }
  destruct (proj1 (returns_eq _ _ _)
              (merge_spec ltb fuel s this h psa vsa other oh psb vsb
                 Hla Hva Hlb Hvb Hap Hne Hnil Hsz Hfuel))
    as ([] & s' & Heq & Hl' & _).
  set (lt2 := λ p q : loc * T, ltb p.2 q.2) in *.
  exists s', (merge_lists lt2 (zip psa vsa) (zip psb vsb)).*1. split_and!; try done.
  - rewrite <- (fst_zip psa vsa) at 1 by lia.
    apply fmap_sublist, merge_lists_sublist_l.
  - rewrite <- (fst_zip psb vsb) at 1 by lia.
    apply fmap_sublist, merge_lists_sublist_r.
  - rewrite length_fmap, (Permutation_length (merge_lists_perm _ _ _)), length_app.
    rewrite !length_zip. lia.
Qed.

Section unique_pure.
Context {A : Type} (eq : A → A → bool).

Lemma unique_from_sublist x l : unique_from eq x l `sublist_of` x :: l.
Proof.
  revert x. induction l as [|y l IH]; intros x; [done|]. cbn.
  destruct (eq x y).
  - etrans; [apply IH|]. apply sublist_skip. by apply sublist_cons.
  - apply sublist_skip, IH.
Qed.

Lemma unique_list_sublist l : unique_list eq l `sublist_of` l.
Proof. destruct l; [done|]. apply unique_from_sublist. Qed.

End unique_pure.

(** X21. unique, whatever [operator==] is: it returns, each element is
    compared with the element last kept and removed when equal to it, the
    values left are a subsequence of the old ones in nodes the list had,
    and the size is their number. *)
Theorem unique_compares_with_kept {T} (eqb : T → T → bool) fuel (s : store T)
    this ps vs :
  repr s this ps vs → (length ps < fuel)%nat →
  ∃ s' ps', unique eqb fuel this s = Ret tt s' ∧
    repr s' this ps' (unique_list eqb vs) ∧
    ps' ⊆ ps ∧
    unique_list eqb vs `sublist_of` vs ∧
    size this s' = Ret (Z.of_nat (length (unique_list eqb vs))) s'.
Proof.
  intros (h & Hl & Hv) Hfuel.
  destruct (proj1 (returns_eq _ _ _) (unique_spec eqb fuel s this h ps vs Hl Hv Hfuel))
    as ([] & s' & Hrun & ps' & Hl' & Hv' & Hsub & _).
  exists s', ps'. split_and!; try done.
  - by exists h.
  - apply unique_list_sublist.
  - rewrite (size_spec _ _ _ _ Hl'). do 2 f_equal. by eapply values_length.
Qed.

(** X22. On a list of at most one element sort, reverse and unique return
    at once and change nothing, whatever the order and the equality. *)
Theorem short_lists_are_left_alone {T} (ltb eqb : T → T → bool) fuel (s : store T)
    this h ps :
  is_list s this h ps → (length ps ≤ 1)%nat →
  sort ltb fuel this s = Ret tt s ∧
  reverse fuel this s = Ret tt s ∧
  unique eqb fuel this s = Ret tt s.
Proof.
  intros Hl Hlen. pose proof (is_list_lookup _ _ _ _ Hl) as Hobj.
  assert ((Z.of_nat (length ps) <=? 1) = true) as Hle by (apply Z.leb_le; lia).
  split_and!.
  - unfold sort, bind, get_sz, bind, load_list, ret. cbv beta.
    rewrite Hobj. cbn [sz]. by rewrite Hle.
  - unfold reverse, bind, get_sz, bind, load_list, ret. cbv beta.
    rewrite Hobj. cbn [sz]. by rewrite Hle.
  - unfold unique, bind, get_sz, bind, load_list, ret. cbv beta.
    rewrite Hobj. cbn [sz]. by rewrite Hle.
Qed.

(** X23. Erasing at the iterator that insert returned gives back the
    position that was inserted at, and the list holds what it held
    before the insertion. *)
Theorem insert_then_erase {T} (s : store T) this h ps1 ps2 vs1 vs2 v :
  is_list s this h (ps1 ++ ps2) → values s ps1 vs1 → values s ps2 vs2 →
  Z.of_nat (length (ps1 ++ ps2)) + 1 < 2 ^ 64 →
  let pos := Iterator (Some this) (Some (default h (ps2 !! 0%nat))) in
  ∃ it s1 s2,
    insert this pos v s = Ret it s1 ∧
    erase this it s1 = Ret pos s2 ∧
    is_list s2 this h (ps1 ++ ps2) ∧ values s2 (ps1 ++ ps2) (vs1 ++ vs2).
Proof.
  intros Hl Hv1 Hv2 Hsz pos.
  pose proof (values_length _ _ _ Hv1) as Hlen.
  destruct (proj1 (returns_eq _ _ _) (insert_repr s this h ps1 ps2 vs1 vs2 v Hl Hv1 Hv2 Hsz))
    as (it & s1 & Heq & cur & Hfresh & -> & Hl1 & Hvs1 & _).
  apply Forall2_app_inv in Hvs1 as [Hva Hvb]; [|done].
  destruct (proj1 (returns_eq _ _ _) (erase_repr s1 this h ps1 cur ps2 vs1 v vs2 Hl1 Hva Hvb))
    as (it2 & s2 & Heq2 & -> & Hl2 & Hvs2 & _).
  by exists (Iterator (Some this) (Some cur)), s1, s2.
Qed.

(** X24. What is done to one list leaves every other list as it was:
    after a push, a pop, clear, reverse or unique on [this], or sort on
    [this] when it holds at most 2^30 + 1 elements, the list [other] has the
    nodes and the values it had. *)
Theorem other_lists_are_untouched {T} (ltb eqb : T → T → bool) fuel (s : store T)
    this h ps vs other oh pso vso :
  is_list s this h ps → values s ps vs →
  is_list s other oh pso → values s pso vso →
  this ≠ other → apart (oh :: pso) (h :: ps) →
  Z.of_nat (length ps) + 1 < 2 ^ 64 → (length ps + 1 < fuel)%nat →
  let kept := λ s' : store T, is_list s' other oh pso ∧ values s' pso vso in
  (∀ v, returns (push_back this v) (λ _ s', kept s') s) ∧
  (∀ v, returns (push_front this v) (λ _ s', kept s') s) ∧
  leaves (pop_back this) kept s ∧
  leaves (pop_front this) kept s ∧
  returns (clear fuel this) (λ _ s', kept s') s ∧
  returns (reverse fuel this) (λ _ s', kept s') s ∧
  returns (unique eqb fuel this) (λ _ s', kept s') s ∧
  (strict_weak_order ltb → Z.of_nat (length ps) ≤ 2 ^ 30 + 1 →
     returns (sort ltb fuel this) (λ _ s', kept s') s).
Proof.
  intros Hl Hv Hlo Hvo Hne Hap Hsz Hfuel kept.
  pose proof (is_list_lookup _ _ _ _ Hl) as Hobj.
  assert (other ∉ [this]) as Hnot by (intros ?%list_elem_of_singleton; done).
  assert (∀ s', same_nodes_outside s s' (h :: ps) → same_lists_except s s' [this] →
                kept s') as Hkeep.
  { intros s' Hn Ho. unfold kept.
    by apply (list_untouched s s' other oh pso vso (h :: ps) [this]). }
  assert (∀ s', same_nodes_outside s s' (h :: ps) → lists s' = lists s → kept s') as Hkeep'.
  { intros s' Hn Ho. apply Hkeep; [done|]. intros l _. by rewrite Ho. }
  assert (kept s) as Hs by (by split).
  split_and!.
  - intros v. eapply returns_mono; [by apply push_back_repr|].
    intros _ s' (cur & _ & _ & _ & Hn & Ho). by apply Hkeep.
  - intros v. eapply returns_mono; [by apply push_front_repr|].
    intros _ s' (cur & _ & _ & _ & Hn & Ho). by apply Hkeep.
  - destruct ps as [|p ps' _] using rev_ind.
    { unfold leaves. erewrite pop_back_empty by exact Hobj. exact Hs. }
    eapply leaves_of_returns; [by eapply pop_back_spec|].
    intros _ s' (_ & _ & _ & Hn & Ho). by apply Hkeep.
  - destruct ps as [|p ps'].
    { unfold leaves. erewrite pop_front_empty by exact Hobj. exact Hs. }
    eapply leaves_of_returns; [by eapply pop_front_spec|].
    intros _ s' (_ & _ & _ & Hn & Ho). by apply Hkeep.
  - eapply returns_mono; [apply clear_spec; [done|lia]|].
    intros _ s' (_ & _ & Hn & Ho). by apply Hkeep.
  - eapply returns_mono; [apply reverse_spec; [done|lia]|].
    intros _ s' (_ & _ & _ & Hn & Ho). by apply Hkeep'.
  - eapply returns_mono; [apply (unique_spec eqb fuel s this h ps vs); [done|done|lia]|].
    intros _ s' (ps' & _ & _ & _ & Hn & Ho). by apply Hkeep.
  - intros Hlt Hn30.
    eapply returns_mono; [by apply (sort_spec ltb Hlt fuel s this h ps vs)|].
    intros _ s' (al & _ & _ & _ & _ & _ & _ & Hn & Ho). by apply Hkeep'.
Qed.

(** X25. The protected erase unlinks a node without freeing it: the node
    stays allocated with both links null and with its value. The
    protected insert, given that node and the position that followed it,
    links it back where it was. *)
Theorem unlink_then_relink {T} (s : store T) this h ps1 p ps2 :
  is_list s this h (ps1 ++ p :: ps2) →
  ∃ s1 s2,
    erase_node this (Some p) s = Ret (Some p) s1 ∧
    is_list s1 this h (ps1 ++ ps2) ∧
    alive s1 p ∧ nxt s1 p = None ∧ prv s1 p = None ∧
    value_at s1 p = value_at s p ∧
    insert_node this (Some (default h (ps2 !! 0%nat))) (Some p) s1 = Ret (Some p) s2 ∧
    is_list s2 this h (ps1 ++ p :: ps2) ∧
    (∀ x, value_at s2 x = value_at s x).
Proof.
  intros Hl.
  destruct (proj1 (returns_eq _ _ _) (erase_node_spec s this h ps1 p ps2 Hl))
    as (r & s1 & Heq1 & -> & Hl1 & Hval1 & Hal1 & Hn1 & Hp1 & _).
  assert (alive s1 p) as Halive.
  { apply Hal1. eapply is_list_alive; [exact Hl|].
    right. apply elem_of_app. right. left. }
  assert (p ∉ h :: ps1 ++ ps2) as Hout.
  { destruct Hl as (_ & Hnd & _). apply NoDup_cons in Hnd as [Hh Hnd].
    apply NoDup_app in Hnd as (_ & Hdis & Hnd2). apply NoDup_cons in Hnd2 as [Hp2 _].
    intros [->|[Hin|Hin]%elem_of_app]%elem_of_cons.
    - apply Hh. apply elem_of_app. right. left.
    - by apply (Hdis p Hin); left.
    - done. }
  assert (Z.of_nat (length (ps1 ++ ps2)) + 1 < 2 ^ 64) as Hsz.
  { destruct Hl as (_ & _ & _ & Hlt). rewrite length_app in *. cbn [length] in Hlt. lia. }
  destruct (proj1 (returns_eq _ _ _)
              (insert_node_spec s1 this h ps1 ps2 p Hl1 Halive Hout Hsz))
    as (r & s2 & Heq2 & -> & Hl2 & Hval2 & _).
  exists s1, s2. split_and!; try done.
  intros x. by rewrite Hval2.
Qed.

(** X26. size() is the number of elements and empty() tells whether there
    is none; both leave the state as it is. *)
Theorem size_counts_elements {T} (s : store T) this ps vs :
  repr s this ps vs →
  size this s = Ret (Z.of_nat (length vs)) s ∧
  empty this s = Ret (bool_decide (length vs = 0%nat)) s.
Proof.
  intros (h & Hl & Hv). pose proof (values_length _ _ _ Hv) as Hlen. split.
  - rewrite <- Hlen. by eapply size_spec.
  - rewrite (empty_spec _ _ _ _ Hl). do 2 f_equal.
    apply bool_decide_ext. rewrite <- Hlen. split; [by intros ->|].
    by destruct ps.
Qed.

(** ** The further properties, run on concrete lists *)

Lemma push_back_appends_witness :
  ∃ s' cur, push_back 1%positive 7 examples.three = Ret tt s' ∧
    ¬ alive examples.three cur ∧
    repr s' 1%positive [3; 4; 5; cur]%positive [1; 2; 3; 7] ∧
    back 1%positive s' = Ret 7 s' ∧
    size 1%positive s' = Ret 4 s'.
Proof.
  apply (push_back_appends examples.three 1%positive [3; 4; 5]%positive [1; 2; 3] 7).
  - concrete_repr 1%positive.
  - cbn; lia.
Defined.

Lemma push_front_prepends_witness :
  ∃ s' cur, push_front 1%positive 7 examples.three = Ret tt s' ∧
    ¬ alive examples.three cur ∧
    repr s' 1%positive (cur :: [3; 4; 5]%positive) [7; 1; 2; 3] ∧
    front 1%positive s' = Ret 7 s' ∧
    size 1%positive s' = Ret 4 s'.
Proof.
  apply (push_front_prepends examples.three 1%positive [3; 4; 5]%positive [1; 2; 3] 7).
  - concrete_repr 1%positive.
  - cbn; lia.
Defined.

Lemma insert_places_before_witness :
  ∃ cur s',
    insert 1%positive (Iterator (Some 1%positive) (Some 4%positive)) 9 examples.three
      = Ret (Iterator (Some 1%positive) (Some cur)) s' ∧
    ¬ alive examples.three cur ∧
    is_list s' 1%positive 1%positive [3; cur; 4; 5]%positive ∧
    values s' [3; cur; 4; 5]%positive [1; 9; 2; 3] ∧
    deref (Iterator (Some 1%positive) (Some cur), s')
      = Ret 9 (Iterator (Some 1%positive) (Some cur), s') ∧
    pre_incr (Iterator (Some 1%positive) (Some cur), s')
      = Ret tt (Iterator (Some 1%positive) (Some 4%positive), s') ∧
    size 1%positive s' = Ret 4 s'.
Proof.
  apply (insert_places_before examples.three 1%positive 1%positive
           [3%positive] [4; 5]%positive [1] [2; 3] 9).
  - concrete_list.
  - concrete_values.
  - concrete_values.
  - cbn; lia.
Defined.

Lemma insert_throws_iff_witness :
  insert 1%positive (Iterator (Some 2%positive) (Some 4%positive)) 9 examples.three
  = Throw invalid_iterator examples.three.
Proof.
  destruct (insert_throws_iff examples.three 1%positive 1%positive
              [3; 4; 5]%positive [1; 2; 3]
              (Iterator (Some 2%positive) (Some 4%positive)) 9) as [_ Hthrow].
  - concrete_list.
  - concrete_values.
  - intros Ho. discriminate Ho.
  - cbn; lia.
  - apply Hthrow. left. discriminate.
Defined.

Lemma pop_front_removes_first_witness :
  ∃ s', pop_front 1%positive examples.three = Ret tt s' ∧
        repr s' 1%positive [4; 5]%positive [2; 3] ∧ ¬ alive s' 3%positive ∧
        size 1%positive s' = Ret 2 s'.
Proof.
  apply (pop_front_removes_first examples.three 1%positive 3%positive
           [4; 5]%positive 1 [2; 3]).
  concrete_repr 1%positive.
Defined.

Lemma pop_back_removes_last_witness :
  ∃ s', pop_back 1%positive examples.three = Ret tt s' ∧
        repr s' 1%positive [3; 4]%positive [1; 2] ∧ ¬ alive s' 5%positive ∧
        size 1%positive s' = Ret 2 s'.
Proof.
  apply (pop_back_removes_last examples.three 1%positive 5%positive
           [3; 4]%positive 3 [1; 2]).
  change (repr examples.three 1%positive [3; 4; 5]%positive [1; 2; 3]).
  concrete_repr 1%positive.
Defined.

Lemma front_and_back_witness :
  front 1%positive examples.three = Ret 1 examples.three ∧
  back 1%positive examples.three = Ret 3 examples.three.
Proof.
  apply (front_and_back examples.three 1%positive [3; 4; 5]%positive [1; 2; 3]).
  concrete_repr 1%positive.
Defined.

Lemma pops_on_empty_throw_witness :
  pop_front 1%positive examples.none = Throw container_is_empty examples.none ∧
  pop_back 1%positive examples.none = Throw container_is_empty examples.none.
Proof.
  apply (pops_on_empty_throw examples.none 1%positive).
  concrete_repr 1%positive.
Defined.

Lemma clear_empties_witness :
  ∃ s', clear 5 1%positive examples.three = Ret tt s' ∧
    is_list s' 1%positive 1%positive [] ∧ repr s' 1%positive [] [] ∧
    (∀ x, x ∈ [3; 4; 5]%positive → ¬ alive s' x) ∧ alive s' 1%positive ∧
    size 1%positive s' = Ret 0 s' ∧ empty 1%positive s' = Ret true s'.
Proof.
  apply (clear_empties 5 examples.three 1%positive 1%positive [3; 4; 5]%positive).
  - concrete_list.
  - cbn; lia.
Defined.

Lemma destructor_frees_every_node_witness :
  ∃ s', list_dtor 5 1%positive examples.three = Ret tt s' ∧
    (∀ x, x ∈ [1; 3; 4; 5]%positive → ¬ alive s' x) ∧
    lists s' !! 1%positive = Some (ListObj None 0) ∧
    same_nodes_outside examples.three s' [1; 3; 4; 5]%positive ∧
    same_lists_except examples.three s' [1%positive].
Proof.
  apply (destructor_frees_every_node 5 examples.three 1%positive 1%positive
           [3; 4; 5]%positive).
  - concrete_list.
  - cbn; lia.
Defined.

Lemma copy_constructor_copies_witness :
  ∃ this s' h new, list_copy_ctor 5 1%positive examples.three = Ret this s' ∧
    lists examples.three !! this = None ∧ this ≠ 1%positive ∧
    is_list s' this h new ∧ values s' new [1; 2; 3] ∧
    is_list s' 1%positive 1%positive [3; 4; 5]%positive ∧
    values s' [3; 4; 5]%positive [1; 2; 3] ∧
    (∀ x, x ∈ h :: new → ¬ alive examples.three x) ∧
    apart (h :: new) [1; 3; 4; 5]%positive.
Proof.
  apply (copy_constructor_copies 5 examples.three 1%positive 1%positive
           [3; 4; 5]%positive [1; 2; 3]).
  - concrete_list.
  - concrete_values.
  - cbn; lia.
Defined.

Lemma assignment_copies_witness :
  ∃ s' new, assign 8 1%positive 2%positive examples.sorted_pair = Ret tt s' ∧
    repr s' 1%positive new [2; 3; 4] ∧
    repr s' 2%positive [7; 8; 9]%positive [2; 3; 4] ∧
    size 1%positive s' = Ret 3 s'.
Proof.
  destruct (assignment_copies 8 examples.sorted_pair 1%positive 1%positive
              [3; 4; 5; 6]%positive 2%positive 2%positive [7; 8; 9]%positive [2; 3; 4])
    as [_ Hcopy].
  - concrete_list.
  - concrete_list.
  - concrete_values.
  - intros _. concrete_apart.
  - cbn; lia.
  - cbn; lia.
  - apply Hcopy. discriminate.
Defined.

Lemma increment_moves_forward_witness :
  pre_incr (Iterator (Some 1%positive) (Some 4%positive), examples.three)
    = Ret tt (Iterator (Some 1%positive) (Some 5%positive), examples.three) ∧
  post_incr (Iterator (Some 1%positive) (Some 4%positive), examples.three)
    = Ret (Iterator (Some 1%positive) (Some 4%positive))
          (Iterator (Some 1%positive) (Some 5%positive), examples.three).
Proof.
  apply (increment_moves_forward examples.three 1%positive 1%positive
           [3; 4; 5]%positive 1 4%positive).
  - concrete_list.
  - reflexivity.
Defined.

Lemma decrement_moves_backward_witness :
  pre_decr (Iterator (Some 1%positive) (Some 4%positive), examples.three)
    = Ret tt (Iterator (Some 1%positive) (Some 3%positive), examples.three) ∧
  pre_decr (Iterator (Some 1%positive) (Some 3%positive), examples.three)
    = Throw invalid_iterator (Iterator (Some 1%positive) (Some 3%positive), examples.three).
Proof.
  destruct (decrement_moves_backward examples.three 1%positive 1%positive
              [3; 4; 5]%positive) as (Hback & Hfirst & _).
  - concrete_list.
  - split.
    + apply (Hback 0%nat 3%positive 4%positive); reflexivity.
    + apply (Hfirst 3%positive). reflexivity.
Defined.

Lemma null_iterator_throws_witness :
  pre_incr (Iterator None None, examples.three)
    = Throw invalid_iterator (Iterator None None, examples.three) ∧
  post_incr (Iterator None None, examples.three)
    = Throw invalid_iterator (Iterator None None, examples.three) ∧
  pre_decr (Iterator None None, examples.three)
    = Throw invalid_iterator (Iterator None None, examples.three) ∧
  post_decr (Iterator None None, examples.three)
    = Throw invalid_iterator (Iterator None None, examples.three) ∧
  deref (Iterator None None, examples.three)
    = Throw invalid_iterator (Iterator None None, examples.three) ∧
  arrow (Iterator None None, examples.three)
    = Throw invalid_iterator (Iterator None None, examples.three).
Proof.
  apply (null_iterator_throws examples.three (Iterator None None)).
  left. reflexivity.
Defined.

Lemma begin_is_end_iff_empty_witness :
  ∃ b e, begin_ 1%positive examples.three = Ret b examples.three ∧
    end_ 1%positive examples.three = Ret e examples.three ∧
    cbegin 1%positive examples.three = Ret b examples.three ∧
    cend 1%positive examples.three = Ret e examples.three ∧
    (iter_eq b e = true ↔ [1; 2; 3] = []) ∧
    iter_ne b e = negb (iter_eq b e) ∧
    empty 1%positive examples.three = Ret (iter_eq b e) examples.three.
Proof.
  apply (begin_is_end_iff_empty examples.three 1%positive [3; 4; 5]%positive [1; 2; 3]).
  concrete_repr 1%positive.
Defined.

Lemma dereference_reads_value_witness :
  deref (Iterator (Some 1%positive) (Some 4%positive), examples.three)
    = Ret 2 (Iterator (Some 1%positive) (Some 4%positive), examples.three) ∧
  arrow (Iterator (Some 1%positive) (Some 4%positive), examples.three)
    = Ret (Some 2) (Iterator (Some 1%positive) (Some 4%positive), examples.three).
Proof.
  apply (dereference_reads_value examples.three 1%positive [3; 4; 5]%positive
           [1; 2; 3] 1 4%positive 2).
  - concrete_repr 1%positive.
  - reflexivity.
  - reflexivity.
Defined.

Lemma relinking_moves_no_value_witness :
  returns (reverse 5 1%positive)
    (λ _ s', (∀ x, value_at s' x = value_at examples.three x) ∧
             (∀ x, alive s' x ↔ alive examples.three x)) examples.three.
Proof.
  destruct (relinking_moves_no_value Z.ltb 5 examples.three 1%positive 1%positive
              [3; 4; 5]%positive [1; 2; 3]) as (_ & Hrev & _).
  - concrete_list.
  - concrete_values.
  - cbn; lia.
  - exact Hrev.
Defined.

Lemma merge_keeps_own_order_witness :
  ∃ s' ps', merge Z.ltb 8 1%positive 2%positive examples.sorted_pair = Ret tt s' ∧
    is_list s' 1%positive 1%positive ps' ∧
    [3; 4; 5; 6]%positive `sublist_of` ps' ∧ [7; 8; 9]%positive `sublist_of` ps' ∧
    length ps' = 7%nat.
Proof.
  apply (merge_keeps_own_order Z.ltb 8 examples.sorted_pair 1%positive 1%positive
           [3; 4; 5; 6]%positive [1; 3; 3; 5] 2%positive 2%positive
           [7; 8; 9]%positive [2; 3; 4]).
  - concrete_list.
  - concrete_values.
  - concrete_list.
  - concrete_values.
  - discriminate.
  - concrete_apart.
  - cbn; lia.
  - cbn; lia.
Defined.

Lemma unique_compares_with_kept_witness :
  ∃ s' ps', unique Z.eqb 8 1%positive examples.runs = Ret tt s' ∧
    repr s' 1%positive ps' [1; 2; 3; 1] ∧
    ps' ⊆ [3; 4; 5; 6; 7; 8; 9]%positive ∧
    [1; 2; 3; 1] `sublist_of` [1; 1; 2; 2; 2; 3; 1] ∧
    size 1%positive s' = Ret 4 s'.
Proof.
  apply (unique_compares_with_kept Z.eqb 8 examples.runs 1%positive
           [3; 4; 5; 6; 7; 8; 9]%positive [1; 1; 2; 2; 2; 3; 1]).
  - concrete_repr 1%positive.
  - cbn; lia.
Defined.

Lemma short_lists_are_left_alone_witness :
  sort Z.ltb 0 1%positive examples.single = Ret tt examples.single ∧
  reverse 0 1%positive examples.single = Ret tt examples.single ∧
  unique Z.eqb 0 1%positive examples.single = Ret tt examples.single.
Proof.
  apply (short_lists_are_left_alone Z.ltb Z.eqb 0 examples.single 1%positive
           1%positive [3%positive]).
  - concrete_list.
  - cbn; lia.
Defined.

Lemma insert_then_erase_witness :
  ∃ it s1 s2,
    insert 1%positive (Iterator (Some 1%positive) (Some 4%positive)) 9 examples.three
      = Ret it s1 ∧
    erase 1%positive it s1 = Ret (Iterator (Some 1%positive) (Some 4%positive)) s2 ∧
    is_list s2 1%positive 1%positive [3; 4; 5]%positive ∧
    values s2 [3; 4; 5]%positive [1; 2; 3].
Proof.
  apply (insert_then_erase examples.three 1%positive 1%positive
           [3%positive] [4; 5]%positive [1] [2; 3] 9).
  - concrete_list.
  - concrete_values.
  - concrete_values.
  - cbn; lia.
Defined.

Lemma other_lists_are_untouched_witness :
  returns (clear 8 1%positive)
    (λ _ s', is_list s' 2%positive 2%positive [7; 8; 9]%positive ∧
             values s' [7; 8; 9]%positive [2; 3; 4]) examples.sorted_pair.
Proof.
  destruct (other_lists_are_untouched Z.ltb Z.eqb 8 examples.sorted_pair
              1%positive 1%positive [3; 4; 5; 6]%positive [1; 3; 3; 5]
              2%positive 2%positive [7; 8; 9]%positive [2; 3; 4])
    as (_ & _ & _ & _ & Hclear & _).
  - concrete_list.
  - concrete_values.
  - concrete_list.
  - concrete_values.
  - discriminate.
  - concrete_apart.
  - cbn; lia.
  - cbn; lia.
  - exact Hclear.
Defined.

Lemma unlink_then_relink_witness :
  ∃ s1 s2,
    erase_node 1%positive (Some 4%positive) examples.three = Ret (Some 4%positive) s1 ∧
    is_list s1 1%positive 1%positive [3; 5]%positive ∧
    alive s1 4%positive ∧ nxt s1 4%positive = None ∧ prv s1 4%positive = None ∧
    value_at s1 4%positive = value_at examples.three 4%positive ∧
    insert_node 1%positive (Some 5%positive) (Some 4%positive) s1
      = Ret (Some 4%positive) s2 ∧
    is_list s2 1%positive 1%positive [3; 4; 5]%positive ∧
    (∀ x, value_at s2 x = value_at examples.three x).
Proof.
  apply (unlink_then_relink examples.three 1%positive 1%positive
           [3%positive] 4%positive [5%positive]).
  concrete_list.
Defined.

Lemma size_counts_elements_witness :
  size 1%positive examples.three = Ret 3 examples.three ∧
  empty 1%positive examples.three = Ret false examples.three.
Proof.
  apply (size_counts_elements examples.three 1%positive [3; 4; 5]%positive [1; 2; 3]).
  concrete_repr 1%positive.
Defined.

End sjtu.
